(** * Polynomials over arbitrary-precision integers (package [polynomial])

    A shallow embedding of [polynomial.go] and [shamir.go].

    The development has two layers.

    - A value layer, in which a [big.Int] is its integer value and a [Poly]
      is the list of its coefficients, lowest power first.  Run-time panics
      of the Go program (division by zero, a slice expression out of range,
      [make] with a negative length) are the [None] of an option monad.
    - A store layer ([Module Store]), in which a [*big.Int] is an address
      into a store of integers and a [Poly] is a list of addresses, so that
      the in-place updates of the source and their aliasing are visible.

    The value layer treats every [big.Int] as a value.  This is what the
    store layer justifies: no operation overwrites a cell that existed when
    it was called, except [NegSelf] and [sanitize], and the value layer
    follows [sanitize] by going on with the reduced operands ([Mul], [Div],
    and the recursive call of [Gcd]).

    The definitions come first: the two layers, the vocabulary of the
    specification, and runs of the model on the scenarios of the
    specification; the properties follow, first those that settle the
    statements C1 to C10 of the specification, then further properties of
    the operations (X1 to X30): what each operation computes, when it
    panics, how the operations compose, and what they do to the store. *)

From Stdlib Require Import ZArith Znumtheory Lia.
From stdpp Require Import base option list.
From Equations Require Import Equations.

Local Open Scope Z_scope.

(** ** The [math/big] primitives used by the package *)

Module big.

(** [x.Sign()] *)
Definition Sign (x : Z) : Z := Z.sgn x.

(** [x.Cmp(y)]: -1, 0 or +1. *)
Definition Cmp (x y : Z) : Z :=
  match x ?= y with
  | Lt => -1
  | Eq => 0
  | Gt => 1
  end.

(** [z.Mod(x, y)]: Euclidean modulus, in [0, |y|); panics when [y = 0]. *)
Definition Mod (x y : Z) : option Z :=
  if y =? 0 then None else Some (x mod Z.abs y).

(** [z.Div(x, y)]: Euclidean division, the quotient that goes with [Mod];
    panics when [y = 0]. *)
Definition Div (x y : Z) : option Z :=
  if y =? 0 then None else Some (Z.sgn y * (x / Z.abs y)).

(** [z.ModInverse(g, n)]: the inverse of [g] in the ring of integers modulo
    [n], in [0, |n|); [None] stands for the [nil] result returned when [g]
    and [n] are not relatively prime (the receiver is then left unchanged).
    The package only calls it with a modulus that [sanitize] has already
    divided by, so [n] is not 0 there. *)
Definition ModInverse (g n : Z) : option Z :=
  if Z.gcd g n =? 1
  then List.find (λ r, g * r mod Z.abs n =? 1 mod Z.abs n)
                 (Z.of_nat <$> seq 0 (Z.to_nat (Z.abs n)))
  else None.

End big.

(** ** Polynomials: [type Poly []*big.Int] *)

Abbreviation Poly := (list Z).

(** [p.GetDegree()]: [len(p) - 1], so -1 on an empty slice. *)
Definition GetDegree (p : Poly) : Z := Z.of_nat (length p) - 1.

(** The loop of [trim]: going down from [i], the first index above 0 whose
    coefficient is not zero; 0 when there is none. *)
Fixpoint trim_last (p : Poly) (i : nat) : nat :=
  match i with
  | O => O
  | S j => if big.Sign (nth i p 0) =? 0 then trim_last p j else i
  end.

(** [p.trim()]: reslices to [p[:last+1]].  On a slice of length (and capacity)
    0 the slice expression [p[:1]] is out of range and panics. *)
Definition trim (p : Poly) : option Poly :=
  let last := trim_last p (Z.to_nat (GetDegree p)) in
  if decide (S last ≤ length p)%nat then Some (take (S last) p) else None.

(** [p.isZero()] *)
Definition isZero (p : Poly) : bool :=
  (GetDegree p =? 0) && (big.Cmp (nth 0 p 0) 0 =? 0).

(** [NewPolyInts(coeffs...)]: the empty list is the [nil] variadic slice of a
    call without arguments.  (A slice that is empty but not [nil], spread
    into the call, is not represented: it passes the test [coeffs == nil] and
    panics in [trim].) *)
Definition NewPolyInts (coeffs : list Z) : option Poly :=
  match coeffs with
  | [] => Some [0]
  | _ => trim coeffs
  end.

(** The loop of [Compare]: indices go up from 0, and the first coefficient
    comparison that is not 0 decides. *)
Fixpoint Compare_coeffs (p q : Poly) : Z :=
  match p, q with
  | a :: p', b :: q' =>
      if big.Cmp a b =? 1 then 1
      else if big.Cmp a b =? -1 then -1
      else Compare_coeffs p' q'
  | _, _ => 0
  end.

(** [p.Compare(&q)] *)
Definition Compare (p q : Poly) : Z :=
  if GetDegree q <? GetDegree p then 1
  else if GetDegree p <? GetDegree q then -1
  else Compare_coeffs p q.

(** The loop [for i { r[i].Mod(r[i], m) }] of [Add], which is also the body
    of [sanitize]: nothing without a modulus. *)
Definition mod_coeffs (m : option Z) (r : Poly) : option Poly :=
  match m with
  | None => Some r
  | Some m => mapM (λ x, big.Mod x m) r
  end.

(** [p.sanitize(m)], as the new coefficients of [p]. *)
Definition sanitize (p : Poly) (m : option Z) : option Poly := mod_coeffs m p.

(** The body of [Add] below the operand swap.  It is only reached with
    [0 <= Compare p q], hence [len(q) <= len(p)], so that [p[i]] and [r[i]]
    are in range in the first loop. *)
Definition Add_body (p q : Poly) (m : option Z) : option Poly :=
  r ← mod_coeffs m (zip_with Z.add p q ++ drop (length q) p);
  trim r.

(** How many operand swaps [Add] and [Gcd] still have to do. *)
Definition swaps (p q : Poly) : nat := if Compare p q <? 0 then 1%nat else 0%nat.

Lemma Cmp_antisym x y : big.Cmp y x = - big.Cmp x y.
Proof.
  unfold big.Cmp. rewrite (Z.compare_antisym x y).
  destruct (x ?= y); reflexivity.
Qed.

Lemma Compare_coeffs_antisym p : ∀ q, Compare_coeffs q p = - Compare_coeffs p q.
Proof.
  induction p as [|a p IH]; intros [|b q]; simpl; try reflexivity.
  rewrite (Cmp_antisym a b).
  unfold big.Cmp. destruct (a ?= b); simpl; auto.
Qed.

Lemma Compare_antisym p q : Compare q p = - Compare p q.
Proof.
  unfold Compare.
  destruct (GetDegree q <? GetDegree p) eqn:E1, (GetDegree p <? GetDegree q) eqn:E2;
    try reflexivity; [lia|].
  apply Compare_coeffs_antisym.
Qed.

Lemma swaps_swap p q : Compare p q < 0 → (swaps q p < swaps p q)%nat.
Proof.
  intros H. unfold swaps. rewrite (Compare_antisym p q).
  destruct (Compare p q <? 0) eqn:E1, (- Compare p q <? 0) eqn:E2; lia.
Qed.

(** [p.Add(q, m)] *)
Equations Add (p q : Poly) (m : option Z) : option Poly by wf (swaps p q) lt :=
  Add p q m with Z_lt_dec (Compare p q) 0 => {
    | left Hlt := Add q p m
    | right _ := Add_body p q m }.
Next Obligation. apply swaps_swap; assumption. Qed.

(** [p.Neg()] *)
Definition Neg (p : Poly) : Poly := Z.opp <$> p.

(** [p.Sub(q, m)] *)
Definition Sub (p q : Poly) (m : option Z) : option Poly := Add p (Neg q) m.

(** [p.Clone(adjust)]: [make] runs before the test of [adjust], and panics on
    a negative length.  The sum [len(p) + adjust] is taken in the integers:
    this is the code as long as [make] can provide a slice of that length;
    beyond the largest [int] the sum wraps around to a negative length, and
    [make] panics there as it does on every length that it cannot provide. *)
Definition Clone (p : Poly) (adjust : Z) : option Poly :=
  if Z.of_nat (length p) + adjust <? 0 then None
  else if adjust <? 0 then NewPolyInts [0]
  else Some (replicate (Z.to_nat adjust) 0 ++ p).

(** [p.Mul(q, m)].  The operands are reduced first ([sanitize]); [r] is made
    with [deg p + deg q + 1] zeros, which panics when both operands are empty;
    every product is accumulated into [r[i+j]] and reduced. *)
Definition Mul_inner (m : option Z) (a : Z) (i : nat) (q r : Poly) : option Poly :=
  foldl (λ acc j,
           r ← acc;
           b ← q !! j;
           old ← r !! (i + j)%nat;
           c ← match m with
               | None => Some (a * b + old)
               | Some m => big.Mod (a * b + old) m
               end;
           Some (<[(i + j)%nat := c]> r))
        (Some r) (seq 0 (length q)).

Definition Mul_outer (m : option Z) (p q r : Poly) : option Poly :=
  foldl (λ acc i, r ← acc; a ← p !! i; Mul_inner m a i q r)
        (Some r) (seq 0 (length p)).

Definition Mul (p q : Poly) (m : option Z) : option Poly :=
  p ← sanitize p m;
  q ← sanitize q m;
  let n := GetDegree p + GetDegree q + 1 in
  if n <? 0 then None
  else
    r ← Mul_outer m p q (replicate (Z.to_nat n) 0);
    trim r.

(** ** Division *)

(** The loop [for i := rd; i < len(u); i++] of [Div], which multiplies the
    coefficients of [u] from index [rd] on by [r] and reduces them. *)
Definition scale_from (rd : nat) (r : Z) (m : option Z) (u : Poly) : option Poly :=
  hi ← mod_coeffs m ((λ x, x * r) <$> drop rd u);
  Some (take rd u ++ hi).

(** The ratio [r] of the leading coefficients [t[td]] and [q[qd]].  With a
    modulus, [r] starts as 0 and [ModInverse] leaves it so when it finds no
    inverse. *)
Definition Div_ratio (m : option Z) (tlead qlead : Z) : option Z :=
  match m with
  | Some m => big.Mod (default 0 (big.ModInverse qlead m) * tlead) m
  | None => big.Div tlead qlead
  end.

(** One turn of the [for] loop of [Div] on the running remainder [t] and the
    quotient [quo]. *)
Inductive DivStep :=
| StepBreak                      (* [rem = t; break] *)
| StepAbort                      (* [r] is 0: the early [return] in the loop *)
| StepNext (t quo : Poly).       (* next turn *)

Definition Div_step (q : Poly) (m : option Z) (t quo : Poly) : option DivStep :=
  let qd := GetDegree q in
  let td := GetDegree t in
  let rd := td - qd in
  if (rd <? 0) || isZero t then Some StepBreak
  else
    tlead ← t !! Z.to_nat td;
    qlead ← q !! Z.to_nat qd;
    r ← Div_ratio m tlead qlead;
    if big.Cmp r 0 =? 0 then Some StepAbort
    else
      u ← Clone q rd;
      u ← scale_from (Z.to_nat rd) r m u;
      t' ← Sub t u m;
      t' ← trim t';
      if decide (Z.to_nat rd < length quo)%nat
      then Some (StepNext t' (<[Z.to_nat rd := r]> quo))
      else None.

(** How the loop ends; [LoopFuel] is the model running out of turns, which
    [Div_loop_fuel] below shows not to happen with the turns [Div_run] gives. *)
Inductive LoopEnd :=
| LoopBreak (quo rem : Poly)
| LoopAbort
| LoopFuel.

Fixpoint Div_loop (fuel : nat) (q : Poly) (m : option Z) (t quo : Poly)
  : option LoopEnd :=
  match fuel with
  | O => Some LoopFuel
  | S fuel =>
      s ← Div_step q m t quo;
      match s with
      | StepBreak => Some (LoopBreak quo t)
      | StepAbort => Some LoopAbort
      | StepNext t' quo' => Div_loop fuel q m t' quo'
      end
  end.

(** The quotient before the first turn: [deg p - deg q + 1] zeros. *)
Definition Div_start (p q : Poly) : Poly :=
  replicate (Z.to_nat (GetDegree p - GetDegree q + 1)) 0.

(** The state of the loop after [n] turns that went on, from [(t, quo)]. *)
Fixpoint Div_iter (n : nat) (q : Poly) (m : option Z) (t quo : Poly)
  : option (Poly * Poly) :=
  match n with
  | O => Some (t, quo)
  | S n =>
      match Div_step q m t quo with
      | Some (StepNext t' quo') => Div_iter n q m t' quo'
      | _ => None
      end
  end.

(** What [Div] returns, tagged with the [return] statement that produced it. *)
Inductive DivOutcome :=
| DivEarly (quo rem : Poly)      (* the guard before the loop *)
| DivAbort (quo rem : Poly)      (* the [return] inside the loop *)
| DivDone (quo rem : Poly)       (* the [return] after the loop *)
| DivFuel.

Definition Div_run (p q : Poly) (m : option Z) : option DivOutcome :=
  p ← sanitize p m;
  q ← sanitize q m;
  if (GetDegree p <? GetDegree q) || isZero q then
    quo ← NewPolyInts [0];
    rem ← Clone p 0;
    Some (DivEarly quo rem)
  else
    let quo := Div_start p q in
    _ ← Clone p 0;
    t ← Clone p 0;
    e ← Div_loop (2 * length t + 2) q m t quo;
    match e with
    | LoopBreak quo t =>
        quo ← trim quo;
        rem ← trim t;
        Some (DivDone quo rem)
    | LoopAbort =>
        quo ← NewPolyInts [0];
        rem ← Clone p 0;
        Some (DivAbort quo rem)
    | LoopFuel => Some DivFuel
    end.

(** [p.Div(q, m)]: the pair [(quo, rem)].  ([DivFuel] does not occur:
    [Div_run_fuel].) *)
Definition Div (p q : Poly) (m : option Z) : option (Poly * Poly) :=
  o ← Div_run p q m;
  match o with
  | DivEarly quo rem | DivAbort quo rem | DivDone quo rem => Some (quo, rem)
  | DivFuel => None
  end.

(** ** Greatest common divisor *)

Inductive result (A : Type) :=
| Ret (a : A)
| Panic
| OutOfFuel.
Arguments Ret {A} a.
Arguments Panic {A}.
Arguments OutOfFuel {A}.

(** [p.Gcd(q, m)], with [fuel] bounding the depth of the recursion.  [Div]
    has reduced the cells of [q] in place by the time [q.Gcd(rem, m)] is
    called, so the recursive call sees [sanitize q m]. *)
Fixpoint Gcd (fuel : nat) (p q : Poly) (m : option Z) : result Poly :=
  match fuel with
  | O => OutOfFuel
  | S fuel =>
      if Compare p q <? 0 then Gcd fuel q p m
      else if isZero q then Ret p
      else
        match Div p q m, sanitize q m with
        | Some (_, rem), Some q' => Gcd fuel q' rem m
        | _, _ => Panic
        end
  end.

(** ** Evaluation *)

(** The loop of [Eval] over the coefficients, on [(y, accx)]. *)
Fixpoint Eval_loop (p : Poly) (x : Z) (m : option Z) (y accx : Z) : option Z :=
  match p with
  | [] => Some y
  | c :: p' =>
      let y := y + accx * c in
      let accx := accx * x in
      match m with
      | None => Eval_loop p' x m y accx
      | Some n =>
          y ← big.Mod y n;
          accx ← big.Mod accx n;
          Eval_loop p' x m y accx
      end
  end.

(** [p.Eval(x, m)] *)
Definition Eval (p : Poly) (x : Z) (m : option Z) : option Z := Eval_loop p x m 0 1.

(** ** Random polynomials *)

(** The largest [int64], which is also the largest [int] (64 bits wide). *)
Definition MaxInt64 : Z := 2 ^ 63 - 1.

(** The [int64] that an integer wraps around to. *)
Definition wrap64 (z : Z) : Z := (z + 2 ^ 63) mod 2 ^ 64 - 2 ^ 63.

(** [RandomPoly(degree, bits)], for an [int64] [degree].  The random source
    is a parameter: [Rand i e] is what the [i]-th call [p[i].Rand(rr, e)]
    returns.  The length [degree + 1] is computed in [int64] and wraps
    around; [make] panics on a negative length; [exp.Exp(2, bits, nil)] is
    [2^bits], and 1 when [bits] is not positive; the slice is filled and then
    trimmed. *)
Definition RandomPoly (Rand : nat → Z → Z) (degree bits : Z) : option Poly :=
  let n := wrap64 (degree + 1) in
  if n <? 0 then None
  else
    let exp := if bits <=? 0 then 1 else 2 ^ bits in
    trim ((λ i, Rand i exp) <$> seq 0 (Z.to_nat n)).

(** ** Share generation ([shamir.go]) *)

Module shamir.

(** [Point], with the fields [x] and [y] that [GenRandomShares] assigns. *)
Record Point := { x : Z; y : Z }.

(** [q.BitLen()]: the length of [|q|] in bits, 0 for 0. *)
Definition BitLen (q : Z) : Z := if q =? 0 then 0 else Z.log2 (Z.abs q) + 1.

(** [GenRandomShares(n, k, q)].  [RandomBigInt] and the primality test are
    not part of the two source files and are taken as parameters:
    [RandomBigInt i size] is what the [i]-th call [RandomBigInt(size)]
    returns, and [ProbablyPrime q 100] is [q.ProbablyPrime(100)].  The two
    [nil] results are empty lists; [make] panics on a negative [k] or [n]. *)
Definition GenRandomShares
    (RandomBigInt : nat → Z → Z) (ProbablyPrime : Z → Z → bool)
    (n k : Z) (q : Z) : option (list Point * Poly) :=
  if negb (ProbablyPrime q 100) then Some ([], [])
  else
    let size := BitLen q / 8 + 1 in
    if k <? 0 then None
    else
      p ← mapM (λ i, big.Mod (RandomBigInt i size) q) (seq 0 (Z.to_nat k));
      if n <? 0 then None
      else
        ps ← mapM (λ i,
                     r ← big.Mod (RandomBigInt (Z.to_nat k + i)%nat size) q;
                     v ← Eval p r (Some q);
                     Some {| x := r; y := v |})
                  (seq 0 (Z.to_nat n));
        Some (ps, p).

End shamir.

(** * The store layer: [*big.Int] cells and in-place updates *)

Module Store.

(** A [*big.Int] is an address; the store maps the addresses allocated so
    far to the integers they hold; a [Poly] is a list of addresses. *)
Abbreviation loc := nat.
Abbreviation store := (list Z).
Abbreviation Poly := (list loc).

(** Computations on the store; they may panic or (for [Gcd]) exhaust the
    depth they are given. *)
Definition M (A : Type) : Type := store → result (A * store).

Definition ret {A} (a : A) : M A := λ h, Ret (a, h).

Definition bind {A B} (c : M A) (k : A → M B) : M B :=
  λ h, match c h with
       | Ret (a, h') => k a h'
       | Panic => Panic
       | OutOfFuel => OutOfFuel
       end.

Definition panic {A} : M A := λ _, Panic.
Definition out_of_fuel {A} : M A := λ _, OutOfFuel.

Notation "'let*' x ':=' c 'in' k" := (bind c (λ x, k))
  (at level 10, x pattern, c at level 100, k at level 200).
Notation "c ';;' k" := (bind c (λ _, k))
  (at level 100, k at level 200, right associativity).

(** A panic of the integer primitives ([Mod] or [Div] by zero). *)
Definition lift {A} (o : option A) : M A :=
  match o with
  | Some a => ret a
  | None => panic
  end.

(** [new(big.Int)], [big.NewInt(v)]: a fresh cell. *)
Definition new (v : Z) : M loc := λ h, Ret (length h, h ++ [v]).

(** Reading and overwriting the integer behind a pointer. *)
Definition get (l : loc) : M Z :=
  λ h, match h !! l with
       | Some v => Ret (v, h)
       | None => Panic
       end.

Definition set (l : loc) (v : Z) : M unit :=
  λ h, if decide (l < length h)%nat then Ret (tt, <[l := v]> h) else Panic.

(** [p[i]]: panics out of range. *)
Definition idx (p : Poly) (i : nat) : M loc := lift (p !! i).

(** The coefficients a polynomial has in a store. *)
Definition coeffs (h : store) (p : Poly) : option (list Z) :=
  mapM (λ l, h !! l) p.

(** Loops. *)
Fixpoint mapM {A B} (f : A → M B) (l : list A) : M (list B) :=
  match l with
  | [] => ret []
  | a :: l => let* b := f a in let* bs := mapM f l in ret (b :: bs)
  end.

Fixpoint forM {A} (l : list A) (f : A → M unit) : M unit :=
  match l with
  | [] => ret tt
  | a :: l => f a;; forM l f
  end.

Fixpoint foldM {A S} (f : S → A → M S) (s : S) (l : list A) : M S :=
  match l with
  | [] => ret s
  | a :: l => let* s := f s a in foldM f s l
  end.

(** [trim]: only the slice header of the receiver changes. *)
Fixpoint trim_last (p : Poly) (i : nat) : M nat :=
  match i with
  | O => ret O
  | S j =>
      let* l := idx p i in
      let* v := get l in
      if big.Sign v =? 0 then trim_last p j else ret i
  end.

Definition trim (p : Poly) : M Poly :=
  let* last := trim_last p (Z.to_nat (Z.of_nat (length p) - 1)) in
  if decide (S last ≤ length p)%nat then ret (take (S last) p) else panic.

Definition isZero (p : Poly) : M bool :=
  if Z.of_nat (length p) - 1 =? 0
  then let* l := idx p 0 in let* v := get l in ret (big.Cmp v 0 =? 0)
  else ret false.

Definition NewPolyInts (coeffs : list Z) : M Poly :=
  match coeffs with
  | [] => let* l := new 0 in ret [l]
  | _ => let* p := mapM new coeffs in trim p
  end.

Fixpoint Compare_coeffs (p q : Poly) : M Z :=
  match p, q with
  | a :: p', b :: q' =>
      let* x := get a in
      let* y := get b in
      if big.Cmp x y =? 1 then ret 1
      else if big.Cmp x y =? -1 then ret (-1)
      else Compare_coeffs p' q'
  | _, _ => ret 0
  end.

Definition Compare (p q : Poly) : M Z :=
  if Z.of_nat (length q) <? Z.of_nat (length p) then ret 1
  else if Z.of_nat (length p) <? Z.of_nat (length q) then ret (-1)
  else Compare_coeffs p q.

(** [z.Mod(z, m)] on the cell [z]. *)
Definition mod_cell (m : Z) (z : loc) : M unit :=
  let* x := get z in
  let* v := lift (big.Mod x m) in
  set z v.

(** [p.sanitize(m)]: overwrites the cells of [p]. *)
Definition sanitize (p : Poly) (m : option Z) : M unit :=
  match m with
  | None => ret tt
  | Some m => forM p (mod_cell m)
  end.

Definition Add_body (p q : Poly) (m : option Z) : M Poly :=
  let* r1 := mapM (λ i,
                     let* a := new 0 in
                     let* pi := idx p i in
                     let* qi := idx q i in
                     let* x := get pi in
                     let* y := get qi in
                     set a (x + y);;
                     ret a)
                  (seq 0 (length q)) in
  let* r2 := mapM (λ i,
                     let* a := new 0 in
                     let* pi := idx p i in
                     let* x := get pi in
                     set a x;;
                     ret a)
                  (seq (length q) (length p - length q)) in
  let r := r1 ++ r2 in
  match m with
  | None => ret tt
  | Some m => forM r (mod_cell m)
  end;;
  trim r.

(** [p.Add(q, m)].  The recursive call [q.Add(p, m)] is made on the same
    store with the operands exchanged; there [Compare] returns the opposite
    sign ([store_Compare_antisym] below), so that the call is its body. *)
Definition Add (p q : Poly) (m : option Z) : M Poly :=
  let* c := Compare p q in
  if c <? 0
  then Compare q p;; Add_body q p m
  else Add_body p q m.

(** [p.NegSelf()]: in place. *)
Definition NegSelf (p : Poly) : M unit :=
  forM p (λ l, let* x := get l in set l (- x)).

Definition Neg (p : Poly) : M Poly :=
  mapM (λ l, let* b := new 0 in let* x := get l in set b (- x);; ret b) p.

Definition Clone (p : Poly) (adjust : Z) : M Poly :=
  if Z.of_nat (length p) + adjust <? 0 then panic
  else if adjust <? 0 then NewPolyInts [0]
  else
    let* zeros := mapM (λ _, new 0) (seq 0 (Z.to_nat adjust)) in
    let* copy := mapM (λ l, let* b := new 0 in let* x := get l in set b x;; ret b) p in
    ret (zeros ++ copy).

Definition Sub (p q : Poly) (m : option Z) : M Poly :=
  let* r := Neg q in Add p r m.

Definition Mul (p q : Poly) (m : option Z) : M Poly :=
  sanitize p m;;
  sanitize q m;;
  let n := (Z.of_nat (length p) - 1) + (Z.of_nat (length q) - 1) + 1 in
  if n <? 0 then panic
  else
    let* r := mapM (λ _, new 0) (seq 0 (Z.to_nat n)) in
    let* r :=
      foldM (λ r i,
               foldM (λ r j,
                        let* a := new 0 in
                        let* pi := idx p i in
                        let* qj := idx q j in
                        let* x := get pi in
                        let* y := get qj in
                        set a (x * y);;
                        let* rij := idx r (i + j) in
                        let* v := get a in
                        let* old := get rij in
                        set a (v + old);;
                        match m with
                        | None => ret tt
                        | Some m => mod_cell m a
                        end;;
                        ret (<[(i + j)%nat := a]> r))
                     r (seq 0 (length q)))
            r (seq 0 (length p)) in
    trim r.

(** The ratio [r], in a cell of its own, from [t[td]] and [q[qd]]. *)
Definition Div_ratio (m : option Z) (t q : Poly) (td qd : nat) : M loc :=
  let* r := new 0 in
  match m with
  | Some m =>
      let* ql := idx q qd in
      let* g := get ql in
      match big.ModInverse g m with
      | Some i => set r i
      | None => ret tt
      end;;
      let* tl := idx t td in
      let* x := get r in
      let* y := get tl in
      set r (x * y);;
      mod_cell m r
  | None =>
      let* tl := idx t td in
      let* ql := idx q qd in
      let* x := get tl in
      let* y := get ql in
      let* v := lift (big.Div x y) in
      set r v
  end;;
  ret r.

Inductive DivStep :=
| StepBreak
| StepAbort
| StepNext (t quo : Poly).

Definition Div_step (q : Poly) (m : option Z) (t quo : Poly) : M DivStep :=
  let qd := Z.of_nat (length q) - 1 in
  let td := Z.of_nat (length t) - 1 in
  let rd := td - qd in
  let* z := (if rd <? 0 then ret true else isZero t) in
  if (z : bool) then ret StepBreak
  else
    let* r := Div_ratio m t q (Z.to_nat td) (Z.to_nat qd) in
    let* v := get r in
    if big.Cmp v 0 =? 0 then ret StepAbort
    else
      let* u := Clone q rd in
      forM (drop (Z.to_nat rd) u)
           (λ ui,
              let* x := get ui in
              set ui (x * v);;
              match m with
              | None => ret tt
              | Some m => mod_cell m ui
              end);;
      let* t' := Sub t u m in
      let* t' := trim t' in
      if decide (Z.to_nat rd < length quo)%nat
      then ret (StepNext t' (<[Z.to_nat rd := r]> quo))
      else panic.

Fixpoint Div_loop (fuel : nat) (q : Poly) (m : option Z) (t quo : Poly)
  : M (option (Poly * Poly)) :=
  match fuel with
  | O => out_of_fuel
  | S fuel =>
      let* s := Div_step q m t quo in
      match s with
      | StepBreak => ret (Some (quo, t))
      | StepAbort => ret None
      | StepNext t' quo' => Div_loop fuel q m t' quo'
      end
  end.

(** [p.Div(q, m)].  The loop is given as many turns as in the value layer,
    where they are shown to be enough ([Div_loop_fuel]). *)
Definition Div (p q : Poly) (m : option Z) : M (Poly * Poly) :=
  sanitize p m;;
  sanitize q m;;
  let* z := (if Z.of_nat (length p) - 1 <? Z.of_nat (length q) - 1
             then ret true else isZero q) in
  if (z : bool) then
    let* quo := NewPolyInts [0] in
    let* rem := Clone p 0 in
    ret (quo, rem)
  else
    let n := (Z.of_nat (length p) - 1) - (Z.of_nat (length q) - 1) + 1 in
    let* quo := (if n <? 0 then panic else ret (replicate (Z.to_nat n) 0%nat)) in
    let* _ := Clone p 0 in
    let* quo := mapM (λ _, new 0) quo in
    let* t := Clone p 0 in
    let* e := Div_loop (2 * length t + 2) q m t quo in
    match e with
    | Some (quo, t) =>
        let* quo := trim quo in
        let* rem := trim t in
        ret (quo, rem)
    | None =>
        let* quo := NewPolyInts [0] in
        let* rem := Clone p 0 in
        ret (quo, rem)
    end.

(** [p.Gcd(q, m)], to the depth [fuel]. *)
Fixpoint Gcd (fuel : nat) (p q : Poly) (m : option Z) : M Poly :=
  match fuel with
  | O => out_of_fuel
  | S fuel =>
      let* c := Compare p q in
      if c <? 0 then Gcd fuel q p m
      else
        let* z := isZero q in
        if (z : bool) then ret p
        else
          let* d := Div p q m in
          Gcd fuel q d.2 m
  end.

(** [p.Eval(x, m)] *)
Definition Eval (p : Poly) (x : loc) (m : option Z) : M loc :=
  let* y := new 0 in
  let* accx := new 1 in
  let* xd := new 0 in
  forM p (λ c,
            let* a := get accx in
            let* b := get c in
            set xd (a * b);;
            let* v := get y in
            let* w := get xd in
            set y (v + w);;
            let* a := get accx in
            let* xv := get x in
            set accx (a * xv);;
            match m with
            | None => ret tt
            | Some m => mod_cell m y;; mod_cell m accx
            end);;
  ret y.

(** Running an operation on two polynomials given by their coefficients:
    the operands are laid out in an empty store, one cell per coefficient,
    and the result is read back together with the coefficients that the
    operands have after the call. *)
Definition discard_store {A} (r : result (A * store)) : result A :=
  match r with
  | Ret (a, _) => Ret a
  | Panic => Panic
  | OutOfFuel => OutOfFuel
  end.

Definition run2 {A} (p q : list Z) (f : Poly → Poly → M A)
  : result (A * (list Z * list Z)) :=
  discard_store
    ((let* p' := mapM new p in
      let* q' := mapM new q in
      let* a := f p' q' in
      let* p1 := mapM get p' in
      let* q1 := mapM get q' in
      ret (a, (p1, q1))) []).

Definition read2 (r : Poly * Poly) : M (list Z * list Z) :=
  let* a := mapM get r.1 in
  let* b := mapM get r.2 in
  ret (a, b).

End Store.

(** * The vocabulary of the specification *)

(** The coefficient of [x^k]. *)
Definition coef (p : Poly) (k : nat) : Z := nth k p 0.

(** [i] is the lowest index at which [p] and [q] differ. *)
Definition first_diff (p q : Poly) (i : nat) : Prop :=
  (i < length p)%nat ∧ coef p i ≠ coef q i ∧ ∀ j, (j < i)%nat → coef p j = coef q j.

(** The comparison in the words of the specification: by degree, then by
    the coefficients from the highest power down to the lowest. *)
Definition Compare_high_first (p q : Poly) : Z :=
  if GetDegree q <? GetDegree p then 1
  else if GetDegree p <? GetDegree q then -1
  else Compare_coeffs (rev p) (rev q).

(** The invariant of the data model: never empty, and a leading coefficient
    that is not zero unless the polynomial is the one-element constant. *)
Definition canonical (p : Poly) : Prop :=
  p ≠ [] ∧ ((1 < length p)%nat → coef p (length p - 1) ≠ 0).

(** A coefficient after [Mod] by the modulus, when there is one. *)
Definition reduce (m : option Z) (x : Z) : Z :=
  match m with
  | Some n => x mod Z.abs n
  | None => x
  end.

(** A primality test to run the model with: trial division. *)
Definition trial_division (q _ : Z) : bool :=
  (1 <? q) && forallb (λ d, negb (q mod d =? 0)) (Z.of_nat <$> seq 2 (Z.to_nat q - 2)).

(** Equality of coefficients up to the modulus, when there is one. *)
Definition cong (m : option Z) (a b : Z) : Prop := reduce m a = reduce m b.

(** The sum of [f 0], ..., [f (n - 1)]. *)
Fixpoint Zsum (f : nat → Z) (n : nat) : Z :=
  match n with
  | O => 0
  | S n => Zsum f n + f n
  end.

(** The coefficient of [x^k] in the product of [a] and [b]. *)
Definition conv (a b : Poly) (k : nat) : Z :=
  Zsum (λ i, coef a i * coef b (k - i)) (S k).

(** [q] shifted up by [rd], multiplied by [r] and reduced: the polynomial [u]
    that a turn of the loop subtracts. *)
Definition shifted (m : option Z) (q : Poly) (rd : nat) (r : Z) (k : nat) : Z :=
  if decide (rd ≤ k)%nat then reduce m (coef q (k - rd) * r) else 0.

(** A state of the loop from which no further turn is taken. *)
Definition stuck (q : Poly) (m : option Z) (t : Poly) : Prop :=
  ∀ quo t' quo', Div_step q m t quo ≠ Some (StepNext t' quo').

(** The leading coefficient. *)
Definition lead (p : Poly) : Z := coef p (length p - 1).

(** [Div p q] without a modulus enters its loop, and the turn number [n] of
    the loop (counting from 0) starts with the running remainder [t] and
    computes a ratio: it is not the turn that breaks. *)
Definition Div_turn (p q : Poly) (n : nat) (t : Poly) : Prop :=
  ((GetDegree p <? GetDegree q) || isZero q) = false ∧
  (∃ quo, Div_iter n q None p (Div_start p q) = Some (t, quo)) ∧
  (length q ≤ length t)%nat ∧ t ≠ [0].

(** The ratio of [a] by [b] exists and is an integer, or is not one. *)
Definition exact_ratio (a b : Z) : Prop := b ≠ 0 ∧ (b | a).
Definition inexact_ratio (a b : Z) : Prop := b ≠ 0 ∧ ¬ (b | a).

(** Every cell of the store [h] is the same in [h']. *)
Definition unchanged (h h' : list Z) : Prop :=
  ∀ l, (l < length h)%nat → h' !! l = h !! l.

(** Every cell of [h] is the same in [h'], or is a cell of [ps] and holds in
    [h'] what it held in [h], reduced modulo [n]. *)
Definition reduced_in (n : Z) (ps : list nat) (h h' : list Z) : Prop :=
  ∀ l, (l < length h)%nat →
       h' !! l = h !! l ∨ (l ∈ ps ∧ h' !! l = reduce (Some n) <$> h !! l).

(** The value of the polynomial at [x]: the sum of the [p_i * x^i]. *)
Definition value (p : Poly) (x : Z) : Z :=
  Zsum (λ i, coef p i * x ^ Z.of_nat i) (length p).

(** [x] is a root of [p]: [Eval] returns 0 there. *)
Definition root (m : option Z) (p : Poly) (x : Z) : Prop := (Eval p x m = Some 0).

(** The term that the turn [i] of the outer loop of [Mul] adds to [r[k]]. *)
Definition Mul_term (p q : Poly) (k i : nat) : Z :=
  if decide (i ≤ k)%nat then coef p i * coef q (k - i) else 0.

(** A polynomial whose coefficients are their own residues. *)
Definition reduced (m : option Z) (p : Poly) : Prop :=
  ∀ k, coef p k = reduce m (coef p k).

(** A cell that the store [h] does not hold yet: a computation started on
    [h] can only have it by allocating it. *)
Definition new_cell (h : list Z) (l : nat) : Prop := (length h ≤ l)%nat.

(** ** Running the two layers side by side *)

(** A grid of operands and moduli (among them the empty slice, operands that
    are not canonical, the moduli 0 and 1, a negative and a composite one). *)
Definition grid_polys : list (list Z) :=
  [ []; [0]; [1]; [3]; [-2]; [0; 0]; [1; 0]; [0; 1]; [2; 3]; [-1; 2]; [1; 1]; [0; 2];
    [5; 0; 3]; [1; 2; 0; 3]; [-1; 0; 1]; [6; -4; 2]; [0; 0; 1]; [1; 0; 0; 0; -1] ].

Definition grid_moduli : list (option Z) :=
  [None; Some 3; Some 5; Some 0; Some (-3); Some 1; Some 6].

Definition on_grid (f : list Z → list Z → option Z → bool) : bool :=
  forallb (λ p, forallb (λ q, forallb (f p q) grid_moduli) grid_polys) grid_polys.

(** The outcome of a run on the store, as the value layer words it: the
    result when there is one, [Some None] for a panic, [None] when the depth
    is exhausted. *)
Definition outcome {A} (r : result (A * (list Z * list Z))) : option (option A) :=
  match r with
  | Ret (a, _) => Some (Some a)
  | Panic => Some None
  | OutOfFuel => None
  end.

(** The coefficients that [p] and [q] have after [f] has run on them. *)
Definition operands_after {A} (p q : list Z) (f : Store.Poly → Store.Poly → Store.M A)
  : option (list Z * list Z) :=
  match Store.run2 p q f with
  | Ret (_, pq) => Some pq
  | _ => None
  end.

(** [f] on the store and [g] on the values have the same outcome on [p], [q]
    and [m]; [rd] reads the result back. *)
Definition agree {A B} `{EqDecision B}
    (f : Store.Poly → Store.Poly → option Z → Store.M A) (rd : A → Store.M B)
    (g : list Z → list Z → option Z → option B) (p q : list Z) (m : option Z) : bool :=
  bool_decide (outcome (Store.run2 p q (λ p q, Store.bind (f p q m) rd)) = Some (g p q m)).

Definition Gcd_outcome (r : result (list Z)) : option (option (list Z)) :=
  match r with
  | Ret a => Some (Some a)
  | Panic => Some None
  | OutOfFuel => None
  end.

(** * The scenarios of the specification, run on the model *)

Example Add_ex : Add [1; 2] [5; 6; 7] None = Some [6; 8; 7].
Proof. reflexivity. Qed.

Example Mul_ex : Mul [1; 1] [5; -3; 3] None = Some [5; 2; 0; 3].
Proof. reflexivity. Qed.

Example Div_ex : Div [1; 2; 0; 3] [1; 1] None = Some ([5; -3; 3], [-4]).
Proof. reflexivity. Qed.

Example Div_mod_ex : Div [1; 2; 0; 3] [1; 2] (Some 7) = Some ([4; 1; 5], [4]).
Proof. reflexivity. Qed.

Example Gcd_ex : Gcd 10 [-1; 0; 1] [1; 1] None = Ret [1; 1].
Proof. reflexivity. Qed.

Example Eval_ex : Eval [1; 2; 0; 3] 2 None = Some 29.
Proof. reflexivity. Qed.

Example Store_Add_ex :
  Store.run2 [1; 2] [5; 6; 7]
    (λ p q, Store.bind (Store.Add p q None) (Store.mapM Store.get))
  = Ret ([6; 8; 7], ([1; 2], [5; 6; 7])).
Proof. reflexivity. Qed.

Example Store_Div_ex :
  Store.run2 [1; 2; 0; 3] [1; 1]
    (λ p q, Store.bind (Store.Div p q None) Store.read2)
  = Ret (([5; -3; 3], [-4]), ([1; 2; 0; 3], [1; 1])).
Proof. reflexivity. Qed.

(** With a modulus the operands themselves come back reduced. *)
Example Store_Div_mod_ex :
  Store.run2 [8; 2; 0; 10] [1; 9]
    (λ p q, Store.bind (Store.Div p q (Some 7)) Store.read2)
  = Ret (([4; 1; 5], [4]), ([1; 2; 0; 3], [1; 2])).
Proof. reflexivity. Qed.

Example Store_Mul_ex :
  Store.run2 [1; 1] [5; -3; 3]
    (λ p q, Store.bind (Store.Mul p q None) (Store.mapM Store.get))
  = Ret ([5; 2; 0; 3], ([1; 1], [5; -3; 3])).
Proof. reflexivity. Qed.

Example Store_Gcd_ex :
  Store.run2 [-1; 0; 1] [1; 1]
    (λ p q, Store.bind (Store.Gcd 10 p q None) (Store.mapM Store.get))
  = Ret ([1; 1], ([-1; 0; 1], [1; 1])).
Proof. reflexivity. Qed.

Example GenRandomShares_ex :
  shamir.GenRandomShares (λ i _, Z.of_nat (7 * i + 2)) trial_division 2 3 5
  = Some ([ {| shamir.x := 3; shamir.y := 3 |}; {| shamir.x := 0; shamir.y := 2 |} ],
          [2; 4; 1]).
Proof. reflexivity. Qed.

(** The two layers give the same results, and panic together, on the grid. *)
Example layers_agree_Add :
  on_grid (agree Store.Add (Store.mapM Store.get) Add) = true.
Proof. vm_compute. reflexivity. Qed.

Example layers_agree_Sub :
  on_grid (agree Store.Sub (Store.mapM Store.get) Sub) = true.
Proof. vm_compute. reflexivity. Qed.

Example layers_agree_Mul :
  on_grid (agree Store.Mul (Store.mapM Store.get) Mul) = true.
Proof. vm_compute. reflexivity. Qed.

Example layers_agree_Div :
  on_grid (agree Store.Div Store.read2 Div) = true.
Proof. vm_compute. reflexivity. Qed.

Example layers_agree_Gcd :
  on_grid (λ p q m,
             bool_decide
               (outcome (Store.run2 p q (λ p q, Store.bind (Store.Gcd 12 p q m)
                                                  (Store.mapM Store.get)))
                = Gcd_outcome (Gcd 12 p q m))) = true.
Proof. vm_compute. reflexivity. Qed.

Example layers_agree_Eval :
  on_grid (λ p q m,
             match q with
             | [] => true
             | x :: _ =>
                 bool_decide
                   (outcome (Store.run2 p [x] (λ p q, Store.bind
                                                 (Store.bind (Store.idx q 0)
                                                    (λ l, Store.Eval p l m))
                                                 Store.get))
                    = Some (Eval p x m))
             end) = true.
Proof. vm_compute. reflexivity. Qed.

(** After [Div] has returned, its operands hold what [sanitize] makes of
    them. *)
Example Div_operands_sanitized :
  on_grid (λ p q m,
             match operands_after p q (λ p q, Store.Div p q m) with
             | Some (p1, q1) =>
                 bool_decide (sanitize p m = Some p1 ∧ sanitize q m = Some q1)
             | None => true
             end) = true.
Proof. vm_compute. reflexivity. Qed.

(** * Properties *)

(** ** Integer primitives *)

Lemma Cmp_cases x y :
  (x < y ∧ big.Cmp x y = -1) ∨ (x = y ∧ big.Cmp x y = 0) ∨ (y < x ∧ big.Cmp x y = 1).
Proof.
  unfold big.Cmp. destruct (Z.compare_spec x y); auto.
Qed.

Lemma Cmp_zero_iff x y : (big.Cmp x y =? 0) = true ↔ x = y.
Proof.
  destruct (Cmp_cases x y) as [[? ->]|[[? ->]|[? ->]]]; simpl; split; intros; lia || discriminate.
Qed.

Lemma Mod_Some x m : m ≠ 0 → big.Mod x m = Some (x mod Z.abs m).
Proof. intros H. unfold big.Mod. destruct (Z.eqb_spec m 0); [contradiction|reflexivity]. Qed.

Lemma Mod_inv x m y : big.Mod x m = Some y → m ≠ 0 ∧ y = x mod Z.abs m.
Proof.
  unfold big.Mod. destruct (Z.eqb_spec m 0); [discriminate|].
  intros [= <-]. auto.
Qed.

(** [Div] and [Mod] are the Euclidean pair: the remainder is never negative. *)
Lemma Div_Mod_euclid x y :
  y ≠ 0 →
  ∃ d r, big.Div x y = Some d ∧ big.Mod x y = Some r ∧ x = d * y + r ∧ 0 ≤ r < Z.abs y.
Proof.
  intros Hy. unfold big.Div, big.Mod.
  destruct (Z.eqb_spec y 0); [contradiction|].
  eexists _, _. split; [reflexivity|]. split; [reflexivity|].
  assert (Ha : 0 < Z.abs y) by lia.
  split; [|apply Z.mod_pos_bound; assumption].
  pose proof (Z.div_mod x (Z.abs y) ltac:(lia)) as E.
  assert (Z.sgn y * (x / Z.abs y) * y = Z.abs y * (x / Z.abs y)) as ->; [|lia].
  destruct (Z.abs_spec y) as [[? ->]|[? ->]];
    [rewrite Z.sgn_pos by lia|rewrite Z.sgn_neg by lia]; ring.
Qed.

(** ** Comparison *)

Lemma Compare_coeffs_refl_eq p :
  ∀ q, length p = length q → Compare_coeffs p q = 0 → p = q.
Proof.
  induction p as [|a p IH]; intros [|b q] Hl; simpl in *; try discriminate; [reflexivity|].
  destruct (Cmp_cases a b) as [[? ->]|[[? ->]|[? ->]]]; simpl; try discriminate.
  intros Hc. f_equal; [assumption|]. apply IH; [lia|assumption].
Qed.

Lemma Compare_zero_eq p q : Compare p q = 0 → p = q.
Proof.
  unfold Compare, GetDegree.
  destruct (Z.ltb_spec (Z.of_nat (length q) - 1) (Z.of_nat (length p) - 1)); [discriminate|].
  destruct (Z.ltb_spec (Z.of_nat (length p) - 1) (Z.of_nat (length q) - 1)); [discriminate|].
  apply Compare_coeffs_refl_eq. lia.
Qed.

Lemma Compare_nonneg_length p q : 0 ≤ Compare p q → (length q ≤ length p)%nat.
Proof.
  unfold Compare, GetDegree.
  destruct (Z.ltb_spec (Z.of_nat (length q) - 1) (Z.of_nat (length p) - 1)); [lia|].
  destruct (Z.ltb_spec (Z.of_nat (length p) - 1) (Z.of_nat (length q) - 1)); lia.
Qed.

(** ** Addition *)

(** [Add] swaps its operands at most once. *)
Lemma Add_swap_once p q m :
  Add p q m = if Compare p q <? 0 then Add_body q p m else Add_body p q m.
Proof.
  rewrite Add_equation_1.
  destruct (Z_lt_dec (Compare p q) 0) as [H|H]; simpl.
  - rewrite Add_equation_1.
    destruct (Z_lt_dec (Compare q p) 0) as [H'|H']; simpl.
    + rewrite (Compare_antisym p q) in H'. lia.
    + destruct (Z.ltb_spec (Compare p q) 0); [reflexivity|lia].
  - destruct (Z.ltb_spec (Compare p q) 0); [lia|reflexivity].
Qed.

(** C7.  [Add] is commutative: for all coefficient lists [p], [q] and every
    modulus [m], absent ([None]) or present, [p.Add(q, m)] and [q.Add(p, m)]
    are the same result, coefficient by coefficient (and panic together, as
    with the modulus 0), whatever way [Compare] orders the operands. *)
Theorem Add_comm (p q : Poly) (m : option Z) : Add p q m = Add q p m.
Proof.
  rewrite (Add_swap_once p q), (Add_swap_once q p), (Compare_antisym p q).
  destruct (Z.ltb_spec (Compare p q) 0) as [H|H];
    destruct (Z.ltb_spec (- Compare p q) 0) as [H'|H']; try reflexivity; try lia.
  assert (Compare p q = 0) as E by lia.
  apply Compare_zero_eq in E. subst q. reflexivity.
Qed.

(** ** C5: the order of [Compare] *)

Lemma Compare_coeffs_first_diff p :
  ∀ q i, length p = length q → first_diff p q i →
         Compare_coeffs p q = big.Cmp (coef p i) (coef q i).
Proof.
  induction p as [|a p IH]; intros [|b q] i Hl (Hi & Hne & Hlow); simpl in *; try lia.
  destruct i as [|i].
  - unfold coef in *; simpl in *.
    destruct (Cmp_cases a b) as [[? ->]|[[? ->]|[? ->]]]; simpl; try reflexivity.
    contradiction.
  - assert (a = b) as <- by (apply (Hlow 0%nat); lia).
    assert (big.Cmp a a = 0) as ->.
    { destruct (Cmp_cases a a) as [[? ?]|[[? ?]|[? ?]]]; lia || assumption. }
    simpl. change (coef (a :: p) (S i)) with (coef p i).
    change (coef (a :: q) (S i)) with (coef q i).
    apply IH; [lia|].
    split; [lia|]. split; [unfold coef in *; simpl in Hne; exact Hne|].
    intros j Hj. specialize (Hlow (S j) ltac:(lia)). unfold coef in *; simpl in Hlow; exact Hlow.
Qed.

(** C5, as the code has it.  [p.Compare(&q)] is decided by the degree first
    (the higher degree is the greater: 1 when [p] has it, -1 when [q] has it);
    with equal degrees it is 0 on equal coefficient lists, and otherwise the
    result of [Cmp] on the coefficients at the LOWEST index where [p] and [q]
    differ: the loop runs from the constant term up to the leading one. *)
Theorem Compare_low_to_high (p q : Poly) :
  (GetDegree q < GetDegree p → Compare p q = 1) ∧
  (GetDegree p < GetDegree q → Compare p q = -1) ∧
  (GetDegree p = GetDegree q →
     (p = q → Compare p q = 0) ∧
     (∀ i, first_diff p q i → Compare p q = big.Cmp (coef p i) (coef q i) ∧
                              Compare p q ≠ 0)).
Proof.
  unfold Compare. split; [|split].
  - intros H. destruct (Z.ltb_spec (GetDegree q) (GetDegree p)); [reflexivity|lia].
  - intros H. destruct (Z.ltb_spec (GetDegree q) (GetDegree p)); [lia|].
    destruct (Z.ltb_spec (GetDegree p) (GetDegree q)); [reflexivity|lia].
  - intros H.
    destruct (Z.ltb_spec (GetDegree q) (GetDegree p)); [lia|].
    destruct (Z.ltb_spec (GetDegree p) (GetDegree q)); [lia|].
    assert (Hl : length p = length q) by (unfold GetDegree in H; lia).
    split.
    + intros <-. pose proof (Compare_coeffs_antisym p p). lia.
    + intros i Hd. rewrite (Compare_coeffs_first_diff p q i Hl Hd). split; [reflexivity|].
      destruct Hd as (_ & Hne & _).
      destruct (Cmp_cases (coef p i) (coef q i)) as [[? ->]|[[? ->]|[? ->]]]; lia.
Qed.

Lemma Compare_low_to_high_witness :
  GetDegree [1; 2] = GetDegree [2; 1] ∧ first_diff [1; 2] [2; 1] 0 ∧
  Compare [1; 2] [2; 1] = big.Cmp 1 2 ∧ Compare [1; 2] [2; 1] ≠ 0.
Proof.
  assert (Hd : GetDegree [1; 2] = GetDegree [2; 1]) by reflexivity.
  assert (Hf : first_diff [1; 2] [2; 1] 0).
  { split; [simpl; lia|]. split; [vm_compute; discriminate|]. intros j Hj. lia. }
  split; [exact Hd|]. split; [exact Hf|].
  exact (proj2 (proj2 (proj2 (Compare_low_to_high [1; 2] [2; 1])) Hd) 0%nat Hf).
Defined.

(** C5, as the specification words it, fails: on [1 + 2x] and [2 + x] the
    code answers "less" (the constant terms 1 and 2 decide), where going from
    the highest power down answers "greater" (2 against 1). *)
Lemma Compare_high_first_counterexample :
  Compare [1; 2] [2; 1] = -1 ∧ Compare_high_first [1; 2] [2; 1] = 1 ∧
  Compare [1; 2] [2; 1] ≠ Compare_high_first [1; 2] [2; 1].
Proof. vm_compute. repeat split; discriminate. Qed.

(** ** Canonical form and [trim] *)

Lemma trim_last_le p i : (trim_last p i ≤ i)%nat.
Proof.
  induction i as [|i IH]; simpl; [lia|].
  destruct (big.Sign _ =? 0); lia.
Qed.

Lemma trim_last_zeros p i k :
  (trim_last p i < k ≤ i)%nat → coef p k = 0.
Proof.
  induction i as [|i IH]; simpl; [lia|].
  destruct (Z.eqb_spec (big.Sign (nth (S i) p 0)) 0) as [E|E]; [|lia].
  intros Hk. destruct (decide (k = S i)) as [->|Hne].
  - unfold coef. unfold big.Sign in E. apply (proj1 (Z.sgn_null_iff _)). exact E.
  - apply IH. lia.
Qed.

Lemma trim_last_nonzero p i :
  (0 < trim_last p i)%nat → coef p (trim_last p i) ≠ 0.
Proof.
  induction i as [|i IH]; simpl; [lia|].
  destruct (Z.eqb_spec (big.Sign (nth (S i) p 0)) 0) as [E|E]; [exact IH|].
  intros _ Hz. apply E. unfold coef in Hz. rewrite Hz. reflexivity.
Qed.

Lemma trim_nonempty p :
  p ≠ [] → trim p = Some (take (S (trim_last p (length p - 1))) p).
Proof.
  intros Hp. unfold trim, GetDegree.
  assert (0 < length p)%nat by (destruct p; [contradiction|simpl; lia]).
  replace (Z.to_nat (Z.of_nat (length p) - 1)) with (length p - 1)%nat by lia.
  pose proof (trim_last_le p (length p - 1)).
  destruct (decide _); [reflexivity|lia].
Qed.

Lemma trim_empty : trim [] = None.
Proof. reflexivity. Qed.

Lemma trim_inv p r :
  trim p = Some r →
  p ≠ [] ∧ r = take (S (trim_last p (length p - 1))) p.
Proof.
  destruct p as [|a p]; [discriminate|].
  rewrite trim_nonempty by discriminate. intros [= <-]. split; [discriminate|reflexivity].
Qed.

Lemma coef_take p n k : (k < n)%nat → coef (take n p) k = coef p k.
Proof.
  unfold coef. revert n k. induction p as [|a p IH]; intros [|n] [|k] H; simpl; try lia; try reflexivity.
  apply IH. lia.
Qed.

Lemma coef_ge p k : (length p ≤ k)%nat → coef p k = 0.
Proof. intros H. unfold coef. apply nth_overflow. exact H. Qed.

(** [trim] keeps every coefficient: what it cuts off is zero. *)
Lemma coef_trim p r k : trim p = Some r → coef r k = coef p k.
Proof.
  intros H. apply trim_inv in H as [Hp ->].
  set (l := trim_last p (length p - 1)).
  destruct (decide (k < S l)%nat) as [Hk|Hk]; [apply coef_take; exact Hk|].
  rewrite coef_ge by (rewrite length_take; lia).
  destruct (decide (k ≤ length p - 1)%nat) as [Hk'|Hk'].
  - symmetry. apply (trim_last_zeros p (length p - 1)). fold l. lia.
  - symmetry. apply coef_ge. lia.
Qed.

Lemma trim_length p r : trim p = Some r → (1 ≤ length r ≤ length p)%nat.
Proof.
  intros H. apply trim_inv in H as [Hp ->].
  assert (0 < length p)%nat by (destruct p; [contradiction|simpl; lia]).
  pose proof (trim_last_le p (length p - 1)).
  rewrite length_take. lia.
Qed.

Lemma trim_canonical p r : trim p = Some r → canonical r.
Proof.
  intros H. pose proof (trim_length _ _ H) as Hl.
  apply trim_inv in H as [Hp ->].
  assert (0 < length p)%nat by (destruct p; [contradiction|simpl; lia]).
  pose proof (trim_last_le p (length p - 1)) as Hle.
  split.
  - intros E. rewrite E in Hl. simpl in Hl. lia.
  - rewrite length_take.
    replace (S (trim_last p (length p - 1)) `min` length p)%nat
      with (S (trim_last p (length p - 1))) by lia.
    intros Hlt. rewrite coef_take by lia.
    replace (S (trim_last p (length p - 1)) - 1)%nat with (trim_last p (length p - 1)) by lia.
    apply trim_last_nonzero. lia.
Qed.

Lemma trim_last_canonical p :
  canonical p → trim_last p (length p - 1) = (length p - 1)%nat.
Proof.
  intros [Hp Hlead].
  destruct (length p - 1)%nat as [|n] eqn:E; [reflexivity|].
  simpl. specialize (Hlead ltac:(lia)). rewrite ?E in Hlead. unfold coef in Hlead.
  destruct (Z.eqb_spec (big.Sign (nth (S n) p 0)) 0) as [Hz|Hz]; [|reflexivity].
  unfold big.Sign in Hz. apply (proj1 (Z.sgn_null_iff _)) in Hz. contradiction.
Qed.

Lemma trim_of_canonical p : canonical p → trim p = Some p.
Proof.
  intros Hc. pose proof Hc as [Hp _].
  rewrite trim_nonempty by exact Hp. rewrite (trim_last_canonical p Hc).
  assert (0 < length p)%nat by (destruct p; [contradiction|simpl; lia]).
  rewrite take_ge by lia. reflexivity.
Qed.

(** Canonicalization is idempotent. *)
Lemma trim_idempotent p r : trim p = Some r → trim r = Some r.
Proof. intros H. apply trim_of_canonical. exact (trim_canonical _ _ H). Qed.

(** ** Reduction of the coefficients *)

Lemma mod_coeffs_Some m r : m ≠ Some 0 → mod_coeffs m r = Some (reduce m <$> r).
Proof.
  intros Hm. destruct m as [n|]; simpl; [|rewrite list_fmap_id; reflexivity].
  assert (n ≠ 0) by congruence.
  induction r as [|x r IH]; [reflexivity|].
  cbn. rewrite Mod_Some by assumption. cbn. 
  cbn in IH. rewrite IH. reflexivity.
Qed.

Lemma mod_coeffs_inv m r r' :
  mod_coeffs m r = Some r' → r' = reduce m <$> r ∧ (r = [] ∨ m ≠ Some 0).
Proof.
  destruct (decide (m = Some 0)) as [->|Hm].
  - destruct r as [|x r]; cbn; [intros [= <-]; auto|discriminate].
  - rewrite mod_coeffs_Some by exact Hm. intros [= <-]. auto.
Qed.

Lemma reduce_idem m x : reduce m (reduce m x) = reduce m x.
Proof.
  destruct m as [n|]; simpl; [|reflexivity].
  destruct (decide (n = 0)) as [->|Hn]; [simpl; rewrite !Z.mod_0_r; reflexivity|].
  apply Z.mod_mod. lia.
Qed.

(** ** C4: [Clone] *)

Lemma Clone_nonneg p s : 0 ≤ s → Clone p s = Some (replicate (Z.to_nat s) 0 ++ p).
Proof.
  intros H. unfold Clone.
  destruct (Z.ltb_spec (Z.of_nat (length p) + s) 0); [lia|].
  destruct (Z.ltb_spec s 0); [lia|reflexivity].
Qed.

Lemma Clone_0 p : Clone p 0 = Some p.
Proof. rewrite Clone_nonneg by lia. reflexivity. Qed.

Lemma Clone_small_negative p s :
  s < 0 → 0 ≤ Z.of_nat (length p) + s → Clone p s = Some [0].
Proof.
  intros H1 H2. unfold Clone.
  destruct (Z.ltb_spec (Z.of_nat (length p) + s) 0); [lia|].
  destruct (Z.ltb_spec s 0); [reflexivity|lia].
Qed.

(** C4.  [Clone] does not yield the zero polynomial for every negative shift:
    [make([]*big.Int, len(p)+adjust)] is evaluated before [adjust < 0] is
    tested, so a shift below [-len(p)] asks [make] for a negative length and
    the call panics ([None]).  (From [-len(p)] up to -1 the result is [0], and
    from 0 on it is [p] after [adjust] zeros: [Clone_small_negative],
    [Clone_nonneg].) *)
Theorem Clone_panics_below_length (p : Poly) (s : Z) :
  s < - Z.of_nat (length p) → Clone p s = None.
Proof.
  intros H. unfold Clone.
  destruct (Z.ltb_spec (Z.of_nat (length p) + s) 0); [reflexivity|lia].
Qed.

Lemma Clone_panics_below_length_witness :
  -2 < - Z.of_nat (length [1]) ∧ Clone [1] (-2) = None.
Proof.
  split; [simpl; lia|].
  apply (Clone_panics_below_length [1] (-2)). simpl. lia.
Defined.

(** ** C3: the guard of [Div] *)

Lemma GetDegree_fmap (f : Z → Z) (p : Poly) : GetDegree (f <$> p) = GetDegree p.
Proof. unfold GetDegree. rewrite length_fmap. reflexivity. Qed.

Lemma Div_run_early p q m :
  m ≠ Some 0 →
  GetDegree p < GetDegree q ∨ isZero (reduce m <$> q) = true →
  Div_run p q m = Some (DivEarly [0] (reduce m <$> p)).
Proof.
  intros Hm Hc. unfold Div_run, sanitize.
  rewrite !mod_coeffs_Some by exact Hm. simpl.
  rewrite !GetDegree_fmap.
  assert (((GetDegree p <? GetDegree q) || isZero (reduce m <$> q)) = true) as ->.
  { destruct Hc as [Hc|Hc]; [|rewrite Hc; destruct (_ <? _); reflexivity].
    apply Z.ltb_lt in Hc. rewrite Hc. reflexivity. }
  rewrite Clone_0. reflexivity.
Qed.

(** C3, as the code has it.  When [deg p < deg q], or [q] is the zero
    polynomial once its coefficients are reduced, [Div] returns the quotient
    [0] and a remainder that has the coefficients of [p], each reduced by the
    modulus when there is one ([sanitize] runs before the guard).  When [p]
    so reduced is canonical, the remainder is that polynomial itself; without
    a modulus it is [p] itself, for a canonical [p].  (What the remainder is
    as a slice when reducing [p] clears its leading coefficient is left
    open here.)  The modulus 0 is excluded: [sanitize] divides by it. *)
Theorem Div_early (p q : Poly) (m : option Z) :
  m ≠ Some 0 →
  GetDegree p < GetDegree q ∨ isZero (reduce m <$> q) = true →
  ∃ rem,
    Div p q m = Some ([0], rem) ∧
    (∀ k, coef rem k = reduce m (coef p k)) ∧
    (canonical (reduce m <$> p) → rem = reduce m <$> p) ∧
    (m = None → canonical p → rem = p).
Proof.
  intros Hm Hc. exists (reduce m <$> p).
  split; [|split; [|split]].
  - unfold Div. rewrite (Div_run_early p q m Hm Hc). reflexivity.
  - intros k. unfold coef. clear Hc. revert k.
    induction p as [|a p IH]; intros [|k]; simpl; try apply IH; try reflexivity;
      destruct m as [n|]; simpl; try rewrite Zmod_0_l; reflexivity.
  - intros _. reflexivity.
  - intros -> _. simpl. apply list_fmap_id.
Qed.

Lemma Div_early_witness :
  (∃ rem, Div [7; 8] [0] None = Some ([0], rem) ∧ rem = [7; 8]) ∧
  (∃ rem, Div [5] [1; 1] (Some 3) = Some ([0], rem) ∧ rem = [2]).
Proof.
  split.
  - assert (H1 : (None : option Z) ≠ Some 0) by discriminate.
    assert (H2 : GetDegree [7; 8] < GetDegree [0] ∨ isZero (reduce None <$> [0]) = true)
      by (right; reflexivity).
    assert (H3 : canonical [7; 8]) by (split; [discriminate|intros _; simpl; discriminate]).
    destruct (Div_early [7; 8] [0] None H1 H2) as (rem & HD & _ & _ & Hn).
    exists rem. split; [exact HD|]. exact (Hn eq_refl H3).
  - assert (H1 : Some 3 ≠ Some 0) by discriminate.
    assert (H2 : GetDegree [5] < GetDegree [1; 1] ∨
                 isZero (reduce (Some 3) <$> [1; 1]) = true)
      by (left; reflexivity).
    assert (H3 : canonical (reduce (Some 3) <$> [5]))
      by (split; [discriminate|simpl; lia]).
    destruct (Div_early [5] [1; 1] (Some 3) H1 H2) as (rem & HD & _ & Hc & _).
    exists rem. split; [exact HD|]. exact (Hc H3).
Defined.

(** C3, as the specification words it, fails with a modulus: [deg p < deg q],
    yet the remainder is [2], not the dividend [5]. *)
Lemma Div_early_counterexample :
  GetDegree [5] < GetDegree [1; 1] ∧
  Div [5] [1; 1] (Some 3) = Some ([0], [2]) ∧
  [2] ≠ [5].
Proof. vm_compute. repeat split; discriminate. Qed.

(** ** Congruence of coefficients *)

Lemma cong_refl m a : cong m a a.
Proof. reflexivity. Qed.

Lemma cong_sym m a b : cong m a b → cong m b a.
Proof. unfold cong. congruence. Qed.

Lemma cong_trans m a b c : cong m a b → cong m b c → cong m a c.
Proof. unfold cong. congruence. Qed.

Lemma cong_reduce m a : cong m (reduce m a) a.
Proof. apply reduce_idem. Qed.

Lemma cong_add m a a' b b' : cong m a a' → cong m b b' → cong m (a + b) (a' + b').
Proof.
  unfold cong. destruct m as [n|]; simpl; [|congruence].
  intros Ha Hb. destruct (decide (n = 0)) as [->|Hn].
  - simpl in *. rewrite !Z.mod_0_r in *. congruence.
  - rewrite (Z.add_mod a b), (Z.add_mod a' b') by lia. rewrite Ha, Hb. reflexivity.
Qed.

Lemma cong_mul m a a' b b' : cong m a a' → cong m b b' → cong m (a * b) (a' * b').
Proof.
  unfold cong. destruct m as [n|]; simpl; [|congruence].
  intros Ha Hb. destruct (decide (n = 0)) as [->|Hn].
  - simpl in *. rewrite !Z.mod_0_r in *. congruence.
  - rewrite (Z.mul_mod a b), (Z.mul_mod a' b') by lia. rewrite Ha, Hb. reflexivity.
Qed.

Lemma cong_opp m a a' : cong m a a' → cong m (- a) (- a').
Proof.
  intros H. replace (- a) with (-1 * a) by ring. replace (- a') with (-1 * a') by ring.
  apply cong_mul; [apply cong_refl|exact H].
Qed.

Lemma cong_sub m a a' b b' : cong m a a' → cong m b b' → cong m (a - b) (a' - b').
Proof.
  intros Ha Hb. unfold Z.sub. apply cong_add; [exact Ha|apply cong_opp; exact Hb].
Qed.

Lemma cong_eq m a b : a = b → cong m a b.
Proof. intros ->. apply cong_refl. Qed.

(** ** Sums and the coefficients of a product *)

Lemma Zsum_ext f g n : (∀ i, (i < n)%nat → f i = g i) → Zsum f n = Zsum g n.
Proof.
  induction n as [|n IH]; intros H; simpl; [reflexivity|].
  rewrite IH by (intros; apply H; lia). rewrite H by lia. reflexivity.
Qed.

Lemma Zsum_cong m f g n :
  (∀ i, (i < n)%nat → cong m (f i) (g i)) → cong m (Zsum f n) (Zsum g n).
Proof.
  induction n as [|n IH]; intros H; simpl; [apply cong_refl|].
  apply cong_add; [apply IH; intros; apply H; lia|apply H; lia].
Qed.

Lemma Zsum_add f g n : Zsum (λ i, f i + g i) n = Zsum f n + Zsum g n.
Proof. induction n as [|n IH]; simpl; [reflexivity|]. rewrite IH. ring. Qed.

Lemma Zsum_zero n : Zsum (λ _, 0) n = 0.
Proof. induction n as [|n IH]; simpl; [reflexivity|]. rewrite IH. reflexivity. Qed.

(** A sum with one term only. *)
Lemma Zsum_single j (v : Z) n :
  Zsum (λ i, if decide (i = j) then v else 0) n = if decide (j < n)%nat then v else 0.
Proof.
  induction n as [|n IH]; simpl.
  - destruct (decide (j < 0)%nat); [lia|reflexivity].
  - rewrite IH.
    destruct (decide (j < n)%nat), (decide (n = j)), (decide (j < S n)%nat); lia.
Qed.

Lemma coef_fmap (f : Z → Z) p k : f 0 = 0 → coef (f <$> p) k = f (coef p k).
Proof.
  intros Hf. unfold coef. revert k. induction p as [|a p IH]; intros [|k]; simpl; auto.
Qed.

Lemma reduce_0 m : reduce m 0 = 0.
Proof. destruct m as [n|]; simpl; [apply Zmod_0_l|reflexivity]. Qed.

Lemma coef_reduce m p k : coef (reduce m <$> p) k = reduce m (coef p k).
Proof. apply coef_fmap. apply reduce_0. Qed.

Lemma coef_insert (p : Poly) j v k :
  (j < length p)%nat → coef (<[j := v]> p) k = if decide (k = j) then v else coef p k.
Proof.
  unfold coef. revert j k. induction p as [|a p IH]; intros j k Hj; simpl in Hj; [lia|].
  destruct j as [|j], k as [|k]; simpl; try reflexivity.
  rewrite IH by lia. destruct (decide (k = j)), (decide (S k = S j)); lia || reflexivity.
Qed.

(** Writing [r] at index [j] of a quotient that holds 0 there adds [r] times
    [b] shifted by [j] to the product. *)
Lemma conv_insert a b j r k :
  (j < length a)%nat → coef a j = 0 →
  conv (<[j := r]> a) b k = conv a b k + (if decide (j ≤ k)%nat then r * coef b (k - j) else 0).
Proof.
  intros Hj Hz. unfold conv.
  rewrite (Zsum_ext _ (λ i, coef a i * coef b (k - i)
                            + (if decide (i = j) then r * coef b (k - j) else 0))).
  - rewrite Zsum_add, Zsum_single.
    destruct (decide (j < S k)%nat), (decide (j ≤ k)%nat); lia || reflexivity.
  - intros i _. rewrite coef_insert by exact Hj.
    destruct (decide (i = j)) as [->|]; [rewrite Hz; ring|ring].
Qed.

Lemma conv_ext a a' b b' k :
  (∀ i, coef a i = coef a' i) → (∀ i, coef b i = coef b' i) → conv a b k = conv a' b' k.
Proof.
  intros Ha Hb. unfold conv. apply Zsum_ext. intros i _. rewrite Ha, Hb. reflexivity.
Qed.

Lemma conv_cong m a a' b b' k :
  (∀ i, cong m (coef a i) (coef a' i)) → (∀ i, cong m (coef b i) (coef b' i)) →
  cong m (conv a b k) (conv a' b' k).
Proof.
  intros Ha Hb. unfold conv. apply Zsum_cong. intros i _. apply cong_mul; auto.
Qed.

Lemma conv_zero_l a b k : (∀ i, coef a i = 0) → conv a b k = 0.
Proof.
  intros Ha. unfold conv. rewrite (Zsum_ext _ (λ _, 0)); [apply Zsum_zero|].
  intros i _. rewrite Ha. ring.
Qed.

(** ** Coefficients of a sum *)

Lemma coef_nil k : coef [] k = 0.
Proof. destruct k; reflexivity. Qed.

Lemma coef_zip_add p :
  ∀ q k, (length q ≤ length p)%nat →
         coef (zip_with Z.add p q ++ drop (length q) p) k = coef p k + coef q k.
Proof.
  induction p as [|a p IH]; intros [|b q] k Hl; simpl in *; try lia.
  - rewrite coef_nil. reflexivity.
  - rewrite coef_nil. ring.
  - destruct k as [|k]; [reflexivity|].
    change (coef (zip_with Z.add p q ++ drop (length q) p) k = coef p k + coef q k).
    apply IH. lia.
Qed.

Lemma length_zip_add (p q : Poly) :
  (length q ≤ length p)%nat →
  length (zip_with Z.add p q ++ drop (length q) p) = length p.
Proof.
  intros Hl. rewrite length_app, length_zip_with, length_drop. lia.
Qed.

(** What [Add] computes: the reduced coefficientwise sum, over the length of
    the longer operand, then [trim]. *)
Lemma Add_inv p q m r :
  Add p q m = Some r →
  ∃ s, trim s = Some r ∧
       length s = (length p `max` length q)%nat ∧
       (∀ k, coef s k = reduce m (coef p k + coef q k)) ∧
       (s = [] ∨ m ≠ Some 0).
Proof.
  rewrite Add_swap_once. unfold Add_body.
  destruct (Z.ltb_spec (Compare p q) 0) as [Hc|Hc].
  - assert (Hl : (length p ≤ length q)%nat).
    { apply Compare_nonneg_length. rewrite (Compare_antisym p q). lia. }
    destruct (mod_coeffs m _) as [s|] eqn:Es; [|discriminate]. simpl.
    intros Ht. apply mod_coeffs_inv in Es as [-> Hm].
    eexists. split; [exact Ht|].
    split; [rewrite length_fmap, length_zip_add by exact Hl; lia|].
    split.
    + intros k. rewrite coef_reduce, coef_zip_add by exact Hl. f_equal. ring.
    + destruct Hm as [Hm|Hm]; [left; rewrite Hm; reflexivity|right; exact Hm].
  - assert (Hl : (length q ≤ length p)%nat) by (apply Compare_nonneg_length; lia).
    destruct (mod_coeffs m _) as [s|] eqn:Es; [|discriminate]. simpl.
    intros Ht. apply mod_coeffs_inv in Es as [-> Hm].
    eexists. split; [exact Ht|].
    split; [rewrite length_fmap, length_zip_add by exact Hl; lia|].
    split.
    + intros k. rewrite coef_reduce, coef_zip_add by exact Hl. reflexivity.
    + destruct Hm as [Hm|Hm]; [left; rewrite Hm; reflexivity|right; exact Hm].
Qed.

Lemma Add_coef p q m r k :
  Add p q m = Some r → coef r k = reduce m (coef p k + coef q k).
Proof.
  intros H. apply Add_inv in H as (s & Ht & _ & Hs & _).
  rewrite (coef_trim _ _ k Ht). apply Hs.
Qed.

(** [Add] does not panic on a modulus that is not 0, unless both operands
    are empty. *)
Lemma Add_Some p q m :
  m ≠ Some 0 → (p ≠ [] ∨ q ≠ []) →
  ∃ r, Add p q m = Some r.
Proof.
  intros Hm Hne. rewrite Add_swap_once. unfold Add_body.
  rewrite !mod_coeffs_Some by exact Hm. simpl.
  assert (Hlen : ∀ l : Poly, l ≠ [] → (0 < length l)%nat)
    by (intros [|? ?] ?; [contradiction|simpl; lia]).
  destruct (Z.ltb_spec (Compare p q) 0) as [Hc|Hc].
  - assert (Hl : (length p ≤ length q)%nat).
    { apply Compare_nonneg_length. rewrite (Compare_antisym p q). lia. }
    rewrite trim_nonempty; [eauto|].
    intros E. apply (f_equal length) in E.
    rewrite length_fmap, length_zip_add in E by exact Hl. simpl in E.
    destruct Hne as [Hne|Hne]; apply Hlen in Hne; lia.
  - assert (Hl : (length q ≤ length p)%nat) by (apply Compare_nonneg_length; lia).
    rewrite trim_nonempty; [eauto|].
    intros E. apply (f_equal length) in E.
    rewrite length_fmap, length_zip_add in E by exact Hl. simpl in E.
    destruct Hne as [Hne|Hne]; apply Hlen in Hne; lia.
Qed.

(** ** More on [trim] *)

Lemma trim_shrinks s r :
  trim s = Some r → (2 ≤ length s)%nat → coef s (length s - 1) = 0 →
  (length r < length s)%nat.
Proof.
  intros H Hl Hz. apply trim_inv in H as [_ ->].
  destruct (length s - 1)%nat as [|n] eqn:E; [lia|].
  simpl. unfold coef in Hz. rewrite Hz. simpl.
  pose proof (trim_last_le s n). rewrite length_take. lia.
Qed.

Lemma trim_keeps s r :
  trim s = Some r → coef s (length s - 1) ≠ 0 → r = s.
Proof.
  intros H Hnz.
  assert (Hc : canonical s).
  { split; [|intros _; exact Hnz]. intros ->. discriminate. }
  rewrite (trim_of_canonical s Hc) in H. congruence.
Qed.

Lemma isZero_iff p : isZero p = true ↔ p = [0].
Proof.
  unfold isZero, GetDegree. split.
  - intros H. apply andb_prop in H as [H1 H2].
    apply Z.eqb_eq in H1. apply Cmp_zero_iff in H2.
    destruct p as [|a [|b p]]; simpl in *; try lia. congruence.
  - intros ->. reflexivity.
Qed.

Lemma isZero_false_iff p : isZero p = false ↔ p ≠ [0].
Proof.
  rewrite <- isZero_iff. destruct (isZero p); split; congruence.
Qed.

(** ** The ratio of the leading coefficients *)

Lemma ModInverse_sound g n r :
  big.ModInverse g n = Some r → (g * r) mod Z.abs n = 1 mod Z.abs n.
Proof.
  unfold big.ModInverse. destruct (Z.gcd g n =? 1); [|discriminate].
  intros H. apply find_some in H as [_ H]. apply Z.eqb_eq in H. exact H.
Qed.

(** With a modulus, a ratio that is not 0 cancels the leading coefficient. *)
Lemma Div_ratio_mod n a b r :
  Div_ratio (Some n) a b = Some r → r ≠ 0 →
  n ≠ 0 ∧ cong (Some n) (b * r) a.
Proof.
  unfold Div_ratio. intros H Hr. apply Mod_inv in H as [Hn ->].
  split; [exact Hn|].
  destruct (big.ModInverse b n) as [i|] eqn:Ei; simpl in *.
  - apply ModInverse_sound in Ei.
    apply cong_trans with (b * (i * a)).
    { apply cong_mul; [apply cong_refl|]. apply (cong_reduce (Some n)). }
    replace (b * (i * a)) with ((b * i) * a) by ring.
    replace a with (1 * a) at 2 by ring.
    apply cong_mul; [exact Ei|apply cong_refl].
  - rewrite Z.mul_0_l, Zmod_0_l in Hr. contradiction.
Qed.

(** Without a modulus, the ratio is the Euclidean quotient: what is left of
    the leading coefficient lies in [0, |b|). *)
Lemma Div_ratio_int a b r :
  Div_ratio None a b = Some r → b ≠ 0 ∧ 0 ≤ a - b * r < Z.abs b.
Proof.
  unfold Div_ratio. intros H.
  assert (Hb : b ≠ 0).
  { intros ->. discriminate. }
  destruct (Div_Mod_euclid a b Hb) as (d & r' & Hd & _ & E & Hr').
  rewrite Hd in H. injection H as <-. split; [exact Hb|]. lia.
Qed.

Lemma Div_ratio_int_small a b :
  b ≠ 0 → 0 ≤ a < Z.abs b → Div_ratio None a b = Some 0.
Proof.
  intros Hb Ha. unfold Div_ratio, big.Div.
  destruct (Z.eqb_spec b 0); [contradiction|].
  rewrite Z.div_small by exact Ha. rewrite Z.mul_0_r. reflexivity.
Qed.

Lemma Div_ratio_int_exact a b r :
  Div_ratio None a b = Some r → (b | a) → a = b * r.
Proof.
  intros H [c Hc]. apply Div_ratio_int in H as [Hb Hr].
  subst a. assert (Z.abs (c - r) * Z.abs b < Z.abs b).
  { rewrite <- Z.abs_mul. replace ((c - r) * b) with (c * b - b * r) by ring. lia. }
  assert (Z.abs (c - r) = 0) by nia. assert (c = r) by lia. subst. ring.
Qed.

Lemma Div_ratio_int_Some a b : b ≠ 0 → ∃ r, Div_ratio None a b = Some r.
Proof.
  intros Hb. unfold Div_ratio, big.Div.
  destruct (Z.eqb_spec b 0); [contradiction|eauto].
Qed.

(** ** One turn of the division loop *)

Lemma lookup_lead (p : Poly) v :
  p !! Z.to_nat (GetDegree p) = Some v → p ≠ [] ∧ v = coef p (length p - 1).
Proof.
  unfold GetDegree. intros H. destruct p as [|a p]; [discriminate|].
  split; [discriminate|].
  replace (Z.to_nat (Z.of_nat (length (a :: p)) - 1)) with (length (a :: p) - 1)%nat in H
    by (simpl; lia).
  unfold coef. symmetry. apply nth_lookup_Some with (d := 0) in H. exact H.
Qed.

Lemma lookup_lead_Some (p : Poly) :
  p ≠ [] → p !! Z.to_nat (GetDegree p) = Some (coef p (length p - 1)).
Proof.
  intros Hp. unfold GetDegree.
  assert (0 < length p)%nat by (destruct p; [contradiction|simpl; lia]).
  replace (Z.to_nat (Z.of_nat (length p) - 1)) with (length p - 1)%nat by lia.
  destruct (p !! (length p - 1)%nat) as [v|] eqn:E.
  - f_equal. unfold coef. symmetry.
    apply nth_lookup_Some with (d := 0) in E. exact E.
  - apply lookup_ge_None in E. lia.
Qed.

Lemma coef_app_replicate (q : Poly) n k :
  coef (replicate n 0 ++ q) k = if decide (n ≤ k)%nat then coef q (k - n) else 0.
Proof.
  unfold coef. revert k. induction n as [|n IH]; intros k; simpl.
  - rewrite Nat.sub_0_r. destruct (decide (0 ≤ k)%nat); [reflexivity|lia].
  - destruct k as [|k]; simpl.
    + destruct (decide (S n ≤ 0)%nat); [lia|reflexivity].
    + rewrite IH. destruct (decide (n ≤ k)%nat), (decide (S n ≤ S k)%nat); lia || reflexivity.
Qed.

Lemma scale_from_inv rd r m q u :
  scale_from rd r m (replicate rd 0 ++ q) = Some u →
  length u = (rd + length q)%nat ∧ (∀ k, coef u k = shifted m q rd r k).
Proof.
  unfold scale_from.
  rewrite take_app_length' by (rewrite length_replicate; reflexivity).
  rewrite drop_app_length' by (rewrite length_replicate; reflexivity).
  destruct (mod_coeffs m _) as [hi|] eqn:E; [|discriminate]. simpl.
  intros [= <-]. apply mod_coeffs_inv in E as [-> _].
  split; [rewrite length_app, length_replicate, !length_fmap; reflexivity|].
  intros k. rewrite coef_app_replicate. unfold shifted.
  destruct (decide (rd ≤ k)%nat); [|reflexivity].
  rewrite coef_reduce, coef_fmap by reflexivity. reflexivity.
Qed.

Lemma scale_from_Some rd r m q :
  m ≠ Some 0 → ∃ u, scale_from rd r m (replicate rd 0 ++ q) = Some u.
Proof.
  intros Hm. unfold scale_from. rewrite mod_coeffs_Some by exact Hm. simpl. eauto.
Qed.

(** [Div_step] with the degrees as lengths and the indices resolved. *)
Lemma Div_step_unfold q m t quo :
  Div_step q m t quo =
    if decide ((length t < length q)%nat ∨ t = [0]) then Some StepBreak
    else if decide (q = []) then None
    else
      r ← Div_ratio m (coef t (length t - 1)) (coef q (length q - 1));
      if decide (r = 0) then Some StepAbort
      else
        let rd := (length t - length q)%nat in
        u ← scale_from rd r m (replicate rd 0 ++ q);
        s ← Sub t u m;
        t' ← trim s;
        if decide (rd < length quo)%nat
        then Some (StepNext t' (<[rd := r]> quo))
        else None.
Proof.
  unfold Div_step.
  destruct (decide ((length t < length q)%nat ∨ t = [0])) as [Hb|Hb].
  - assert (((GetDegree t - GetDegree q <? 0) || isZero t) = true) as ->; [|reflexivity].
    destruct Hb as [Hb|Hb].
    + assert ((GetDegree t - GetDegree q <? 0) = true) as ->; [|reflexivity].
      apply Z.ltb_lt. unfold GetDegree. lia.
    + apply isZero_iff in Hb. rewrite Hb. apply orb_true_r.
  - assert (Hl : (length q ≤ length t)%nat) by (destruct (decide (length t < length q)%nat); [tauto|lia]).
    assert (Hz : isZero t = false) by (apply isZero_false_iff; tauto).
    assert ((GetDegree t - GetDegree q <? 0) = false) as ->
      by (apply Z.ltb_ge; unfold GetDegree; lia).
    rewrite Hz. simpl.
    destruct (decide (q = [])) as [->|Hq].
    { destruct (t !! Z.to_nat (GetDegree t)); reflexivity. }
    assert (Ht : t ≠ []).
    { intros ->. destruct q; [contradiction|simpl in Hl; lia]. }
    rewrite (lookup_lead_Some t Ht), (lookup_lead_Some q Hq). simpl.
    destruct (Div_ratio m _ _) as [r|]; [|reflexivity]. simpl.
    destruct (decide (r = 0)) as [->|Hr]; [reflexivity|].
    assert ((big.Cmp r 0 =? 0) = false) as ->.
    { destruct (big.Cmp r 0 =? 0) eqn:E; [|reflexivity]. apply Cmp_zero_iff in E. contradiction. }
    assert (Hrd : GetDegree t - GetDegree q = Z.of_nat (length t - length q))
      by (unfold GetDegree; lia).
    rewrite Hrd, Clone_nonneg by lia. rewrite Nat2Z.id. reflexivity.
Qed.

(** What a turn that goes on has done. *)
Lemma Div_step_next q m t quo t' quo' :
  Div_step q m t quo = Some (StepNext t' quo') →
  ∃ r s,
    q ≠ [] ∧ (length q ≤ length t)%nat ∧ t ≠ [0] ∧ m ≠ Some 0 ∧
    Div_ratio m (coef t (length t - 1)) (coef q (length q - 1)) = Some r ∧ r ≠ 0 ∧
    trim s = Some t' ∧ length s = length t ∧
    (∀ k, coef s k = reduce m (coef t k - shifted m q (length t - length q) r k)) ∧
    (length t - length q < length quo)%nat ∧
    quo' = <[(length t - length q)%nat := r]> quo.
Proof.
  rewrite Div_step_unfold.
  destruct (decide _) as [|Hb]; [discriminate|].
  destruct (decide (q = [])) as [|Hq]; [discriminate|].
  destruct (Div_ratio m _ _) as [r|] eqn:Er; [|discriminate]. simpl.
  destruct (decide (r = 0)) as [|Hr]; [discriminate|].
  destruct (scale_from _ r m _) as [u|] eqn:Eu; [|discriminate]. simpl.
  destruct (Sub t u m) as [s1|] eqn:Es; [|discriminate]. simpl.
  destruct (trim s1) as [t1|] eqn:Et; [|discriminate]. simpl.
  destruct (decide _) as [Hquo|]; [|discriminate].
  intros [= <- <-].
  assert (Hl : (length q ≤ length t)%nat) by (destruct (decide (length t < length q)%nat); [tauto|lia]).
  apply scale_from_inv in Eu as [Lu Hu].
  unfold Sub in Es. apply Add_inv in Es as (s & Hs & Ls & Cs & Hm).
  assert (Lt : (0 < length t)%nat) by (destruct q; [contradiction|simpl in Hl; lia]).
  unfold Neg in Ls. rewrite length_fmap, Lu in Ls.
  exists r, s. repeat split; try assumption; try tauto.
  - destruct Hm as [->|Hm]; [simpl in Ls; lia|exact Hm].
  - rewrite <- Et. rewrite (trim_idempotent _ _ Hs). exact Hs.
  - lia.
  - intros k. rewrite Cs. f_equal. unfold Neg.
    rewrite coef_fmap by reflexivity. rewrite Hu. ring.
Qed.

Lemma Div_step_break q m t quo :
  Div_step q m t quo = Some StepBreak → (length t < length q)%nat ∨ t = [0].
Proof.
  rewrite Div_step_unfold.
  destruct (decide _) as [Hb|Hb]; [intros _; exact Hb|].
  destruct (decide (q = [])); [discriminate|].
  destruct (Div_ratio m _ _) as [r|]; [|discriminate]. simpl.
  destruct (decide (r = 0)); [discriminate|].
  destruct (scale_from _ r m _) as [u|]; [|discriminate]. simpl.
  destruct (Sub t u m) as [s1|]; [|discriminate]. simpl.
  destruct (trim s1) as [t1|]; [|discriminate]. simpl.
  destruct (decide _); discriminate.
Qed.

(** A turn that computes a ratio other than 0, on a quotient that is long
    enough, goes on: nothing in it panics. *)
Lemma Div_step_goes_on q m t quo r :
  q ≠ [] → (length q ≤ length t)%nat → t ≠ [0] → m ≠ Some 0 →
  Div_ratio m (coef t (length t - 1)) (coef q (length q - 1)) = Some r → r ≠ 0 →
  (length t - length q < length quo)%nat →
  ∃ t', Div_step q m t quo
        = Some (StepNext t' (<[(length t - length q)%nat := r]> quo)).
Proof.
  intros Hq Hl Ht Hm Er Hr Hquo. rewrite Div_step_unfold.
  destruct (decide _) as [[Hb|Hb]|_]; [lia|contradiction|].
  destruct (decide (q = [])); [contradiction|].
  rewrite Er. simpl. destruct (decide (r = 0)); [contradiction|].
  destruct (scale_from_Some (length t - length q) r m q Hm) as [u Eu].
  rewrite Eu. simpl.
  assert (Hne : t ≠ []) by (intros ->; destruct q; [contradiction|simpl in Hl; lia]).
  destruct (Add_Some t (Neg u) m Hm (or_introl Hne)) as [s Es].
  unfold Sub. rewrite Es. simpl.
  apply Add_inv in Es as (s0 & Hs & _).
  rewrite (trim_idempotent _ _ Hs). simpl.
  destruct (decide _); [eauto|lia].
Qed.

(** Every turn either shortens the running remainder or leaves the loop at
    its last turn. *)
Lemma Div_step_decreases q m t quo t' quo' :
  Div_step q m t quo = Some (StepNext t' quo') →
  (1 ≤ length t')%nat ∧
  ((length t' < length t)%nat ∨ (length t' = length t ∧ stuck q m t')).
Proof.
  intros H. apply Div_step_next in H
    as (r & s & Hq & Hl & Ht0 & Hm & Er & Hr & Hs & Ls & Cs & _ & _).
  pose proof (trim_length _ _ Hs) as Lt'.
  split; [lia|].
  assert (Lq : (0 < length q)%nat) by (destruct q; [contradiction|simpl; lia]).
  (* the leading coefficient of the sum before [trim] *)
  assert (Elead : coef s (length s - 1)
                  = reduce m (coef t (length t - 1)
                              - reduce m (coef q (length q - 1) * r))).
  { rewrite Cs, Ls. unfold shifted.
    destruct (decide _) as [_|]; [|lia].
    replace (length t - 1 - (length t - length q))%nat with (length q - 1)%nat by lia.
    reflexivity. }
  destruct (decide (coef s (length s - 1) = 0)) as [Hz|Hnz].
  - (* the leading coefficient is cancelled *)
    destruct (decide (2 ≤ length s)%nat) as [H2|H1].
    + left. rewrite <- Ls. apply (trim_shrinks s t' Hs H2 Hz).
    + right. assert (length s = 1%nat) by lia.
      assert (s = [0]) as ->.
      { destruct s as [|a [|b s]]; simpl in *; try lia.
        unfold coef in Hz. simpl in Hz. congruence. }
      injection Hs as <-. split; [lia|].
      intros quo1 t1 quo2 Hstep. apply Div_step_next in Hstep as (? & ? & ? & ? & Hne & _).
      contradiction.
  - (* it is not: only without a modulus, and the next ratio is 0 *)
    right. rewrite (trim_keeps s t' Hs Hnz) in *. split; [exact Ls|].
    intros quo1 t1 quo2 Hstep.
    apply Div_step_next in Hstep as (r1 & _ & _ & _ & _ & _ & Er1 & Hr1 & _).
    rewrite Elead in Er1, Hnz.
    destruct m as [n|].
    + apply Div_ratio_mod in Er as [Hn Hc]; [|exact Hr].
      apply Hnz.
      assert (Hd : cong (Some n)
                     (coef t (length t - 1) - reduce (Some n) (coef q (length q - 1) * r))
                     (coef t (length t - 1) - coef t (length t - 1))).
      { apply cong_sub; [apply cong_refl|].
        eapply cong_trans; [apply cong_reduce|exact Hc]. }
      unfold cong in Hd. rewrite Hd, Z.sub_diag. apply reduce_0.
    + simpl in *. apply Div_ratio_int in Er as [Hb Hrange].
      rewrite Div_ratio_int_small in Er1 by (exact Hb || lia).
      congruence.
Qed.

(** ** The division loop ends *)

Lemma stuck_loop q m t fuel quo :
  stuck q m t → Div_loop (S fuel) q m t quo ≠ Some LoopFuel.
Proof.
  intros Hs. simpl. destruct (Div_step q m t quo) as [[| |t' quo']|] eqn:E; simpl;
    try discriminate.
  exfalso. exact (Hs _ _ _ E).
Qed.

(** [2 * len(t) + 1] turns are enough: the model of the loop does not run out
    of turns. *)
Lemma Div_loop_fuel q m fuel :
  ∀ t quo, (2 * length t + 1 ≤ fuel)%nat → Div_loop fuel q m t quo ≠ Some LoopFuel.
Proof.
  induction fuel as [|fuel IH]; intros t quo Hf; [lia|].
  simpl. destruct (Div_step q m t quo) as [[| |t' quo']|] eqn:E; simpl; try discriminate.
  apply Div_step_decreases in E as [L1 [Hlt|[Heq Hs]]].
  - apply IH. lia.
  - destruct fuel as [|fuel]; [lia|]. apply stuck_loop. exact Hs.
Qed.

(** [Div_run] with its clones resolved. *)
Lemma Div_run_unfold p q m :
  Div_run p q m =
    ps ← sanitize p m;
    qs ← sanitize q m;
    if (GetDegree ps <? GetDegree qs) || isZero qs then Some (DivEarly [0] ps)
    else
      match Div_loop (2 * length ps + 2) qs m ps (Div_start ps qs) with
      | Some (LoopBreak quo t) =>
          quo ← trim quo; rem ← trim t; Some (DivDone quo rem)
      | Some LoopAbort => Some (DivAbort [0] ps)
      | Some LoopFuel => Some DivFuel
      | None => None
      end.
Proof.
  unfold Div_run.
  destruct (sanitize p m) as [ps|]; [|reflexivity].
  destruct (sanitize q m) as [qs|]; [|reflexivity].
  cbn [mbind option_bind]. rewrite Clone_0. cbn [mbind option_bind].
  destruct (_ || _); [reflexivity|].
  destruct (Div_loop _ qs m ps _) as [[quo rem| |]|]; reflexivity.
Qed.

Lemma Div_run_fuel p q m : Div_run p q m ≠ Some DivFuel.
Proof.
  rewrite Div_run_unfold.
  destruct (sanitize p m) as [ps|]; [|discriminate].
  destruct (sanitize q m) as [qs|]; [|discriminate].
  cbn [mbind option_bind].
  destruct (_ || _); [discriminate|].
  destruct (Div_loop _ qs m ps _) as [[quo rem| |]|] eqn:E; try discriminate.
  - destruct (trim quo); [|discriminate]. cbn [mbind option_bind].
    destruct (trim rem); discriminate.
  - exfalso. revert E. apply Div_loop_fuel. lia.
Qed.

(** ** C1: the postcondition of the division *)

Section DivInvariant.

Variables (p q : Poly) (m : option Z).

(** The quotient so far times [q], plus the running remainder, is [p]. *)
Definition Inv1 (t quo : Poly) : Prop :=
  ∀ k, cong m (conv quo q k + coef t k) (coef p k).

(** The quotient holds 0 wherever a later turn can write. *)
Definition Inv2 (t quo : Poly) : Prop :=
  ∀ j, (length q + j ≤ length t)%nat → coef quo j = 0.

Lemma Div_step_Inv t quo t' quo' :
  Div_step q m t quo = Some (StepNext t' quo') →
  Inv1 t quo → Inv2 t quo →
  Inv1 t' quo' ∧ ((length t' < length t)%nat → Inv2 t' quo').
Proof.
  intros H I1 I2.
  apply Div_step_next in H
    as (r & s & Hq & Hl & Ht0 & Hm & Er & Hr & Hs & Ls & Cs & Hquo & ->).
  set (rd := (length t - length q)%nat) in *.
  assert (Hz : coef quo rd = 0) by (apply I2; lia).
  split.
  - intros k. rewrite (coef_trim _ _ k Hs), Cs, (conv_insert _ _ _ _ _ Hquo Hz).
    eapply cong_trans; [|apply I1].
    rewrite <- Z.add_assoc. apply cong_add; [apply cong_refl|].
    eapply cong_trans; [apply cong_add; [apply cong_refl|apply cong_reduce]|].
    unfold shifted. destruct (decide (rd ≤ k)%nat).
    + replace (coef t k) with (r * coef q (k - rd) + (coef t k - coef q (k - rd) * r)) at 2
        by ring.
      apply cong_add; [apply cong_refl|].
      apply cong_sub; [apply cong_refl|apply cong_reduce].
    + apply cong_eq. ring.
  - intros Hlt j Hj. rewrite coef_insert by exact Hquo.
    destruct (decide (j = rd)); [lia|]. apply I2. lia.
Qed.

Lemma Div_loop_break_post fuel :
  ∀ t quo quoF remF,
    Inv1 t quo → Inv2 t quo ∨ stuck q m t →
    Div_loop fuel q m t quo = Some (LoopBreak quoF remF) →
    Inv1 remF quoF ∧ ((length remF < length q)%nat ∨ remF = [0]).
Proof.
  induction fuel as [|fuel IH]; intros t quo quoF remF I1 I2; [discriminate|].
  simpl. destruct (Div_step q m t quo) as [[| |t' quo']|] eqn:E; simpl; try discriminate.
  - intros [= <- <-]. split; [exact I1|]. exact (Div_step_break _ _ _ _ E).
  - destruct I2 as [I2|Hs]; [|exfalso; exact (Hs _ _ _ E)].
    destruct (Div_step_Inv _ _ _ _ E I1 I2) as [I1' I2'].
    apply IH; [exact I1'|].
    apply Div_step_decreases in E as [_ [Hlt|[_ Hs]]]; [left; auto|right; exact Hs].
Qed.

End DivInvariant.

Lemma coef_replicate_0 n k : coef (replicate n 0) k = 0.
Proof.
  unfold coef. revert k. induction n as [|n IH]; intros [|k]; simpl; auto.
Qed.

Lemma sanitize_inv p m ps : sanitize p m = Some ps → ps = reduce m <$> p.
Proof. intros H. apply mod_coeffs_inv in H as [-> _]. reflexivity. Qed.

(** The result of [Div] satisfies the division identity whenever the call
    returns from its guard or from the end of its loop; after the loop the
    remainder is 0 or shorter than the divisor, and after the guard it is
    shorter than the divisor unless the divisor is the zero polynomial. *)
Lemma Div_run_post p q m quo rem :
  (Div_run p q m = Some (DivDone quo rem) →
   (∀ k, cong m (conv quo q k + coef rem k) (coef p k)) ∧
   (isZero rem = true ∨ GetDegree rem < GetDegree q)) ∧
  (Div_run p q m = Some (DivEarly quo rem) →
   (∀ k, cong m (conv quo q k + coef rem k) (coef p k)) ∧
   (isZero (reduce m <$> q) = false → GetDegree rem < GetDegree q)).
Proof.
  rewrite Div_run_unfold.
  destruct (sanitize p m) as [ps|] eqn:Ep; [|split; discriminate].
  destruct (sanitize q m) as [qs|] eqn:Eq; [|split; discriminate].
  cbn [mbind option_bind].
  apply sanitize_inv in Ep, Eq. subst ps qs.
  rewrite !GetDegree_fmap.
  destruct (_ || _) eqn:Eg.
  - (* the guard *)
    split; [discriminate|]. intros H. injection H as <- <-. split.
    + intros k. rewrite conv_zero_l by (intros [|[|i]]; reflexivity).
      rewrite coef_reduce. simpl. apply cong_reduce.
    + intros Hz. rewrite Hz, orb_false_r in Eg. apply Z.ltb_lt in Eg.
      rewrite GetDegree_fmap. exact Eg.
  - (* the loop *)
    destruct (Div_loop _ _ m _ _) as [[quoF remF| |]|] eqn:El;
      try (split; discriminate).
    destruct (trim quoF) as [quo'|] eqn:Equo; [|split; discriminate].
    cbn [mbind option_bind].
    destruct (trim remF) as [rem'|] eqn:Erem; [|split; discriminate].
    cbn [mbind option_bind].
    split; [|discriminate]. intros H. injection H as <- <-.
    apply (Div_loop_break_post (reduce m <$> p)) in El as [I1 Hrem].
    + split.
      * intros k.
        apply cong_trans with (conv quoF (reduce m <$> q) k + coef remF k).
        { rewrite (coef_trim _ _ k Erem). apply cong_add; [|apply cong_refl].
          apply conv_cong; intros i.
          - rewrite (coef_trim _ _ i Equo). apply cong_refl.
          - rewrite coef_reduce. apply cong_sym, cong_reduce. }
        eapply cong_trans; [apply I1|]. rewrite coef_reduce. apply cong_reduce.
      * destruct Hrem as [Hrem| ->].
        -- right. pose proof (trim_length _ _ Erem). rewrite length_fmap in Hrem.
           unfold GetDegree. lia.
        -- left. injection Erem as <-. reflexivity.
    + intros k. unfold Div_start. rewrite conv_zero_l by (intros i; apply coef_replicate_0).
      apply cong_refl.
    + left. intros j _. apply coef_replicate_0.
Qed.

(** ** C2: a ratio that is not an integer *)

Lemma Div_step_length q m t quo t' quo' :
  Div_step q m t quo = Some (StepNext t' quo') →
  (length t' ≤ length t)%nat ∧ length quo' = length quo ∧ canonical t'.
Proof.
  intros H. apply Div_step_next in H
    as (r & s & _ & _ & _ & _ & _ & _ & Hs & Ls & _ & _ & ->).
  pose proof (trim_length _ _ Hs). rewrite length_insert.
  split; [lia|]. split; [reflexivity|]. exact (trim_canonical _ _ Hs).
Qed.

Lemma Div_iter_length q m n :
  ∀ t quo t' quo',
    Div_iter n q m t quo = Some (t', quo') →
    (length t' ≤ length t)%nat ∧ length quo' = length quo.
Proof.
  induction n as [|n IH]; intros t quo t' quo'; simpl.
  - intros [= <- <-]. lia.
  - destruct (Div_step q m t quo) as [[| |t1 quo1]|] eqn:E; try discriminate.
    intros H. apply IH in H as [H1 H2].
    apply Div_step_length in E as (E1 & E2 & _). lia.
Qed.

Lemma Div_step_abort q m t quo :
  q ≠ [] → (length q ≤ length t)%nat → t ≠ [0] →
  Div_ratio m (lead t) (lead q) = Some 0 →
  Div_step q m t quo = Some StepAbort.
Proof.
  intros Hq Hl Ht Er. rewrite Div_step_unfold.
  destruct (decide _) as [[Hb|Hb]|_]; [lia|contradiction|].
  destruct (decide (q = [])); [contradiction|].
  unfold lead in Er. rewrite Er. reflexivity.
Qed.

Lemma lead_nonzero_nonempty p : lead p ≠ 0 → p ≠ [] ∧ p ≠ [0].
Proof.
  intros H. split; intros ->; apply H; reflexivity.
Qed.

(** From a turn whose ratio is not an integer, the loop aborts: at once when
    the Euclidean quotient is 0, and otherwise at the next turn, where what is
    left of the leading coefficient is smaller than the divisor's. *)
Lemma Div_loop_inexact_turn q t quo fuel :
  (length q ≤ length t)%nat → t ≠ [0] →
  inexact_ratio (lead t) (lead q) →
  (length t - length q < length quo)%nat →
  Div_loop fuel q None t quo = Some LoopAbort ∨
  Div_loop fuel q None t quo = Some LoopFuel.
Proof.
  intros Hl Ht [Hb Hndiv] Hquo.
  destruct fuel as [|fuel]; [right; reflexivity|].
  destruct (lead_nonzero_nonempty q Hb) as [Hq _].
  destruct (Div_ratio_int_Some (lead t) (lead q) Hb) as [r Er].
  simpl. destruct (decide (r = 0)) as [->|Hr].
  { rewrite (Div_step_abort q None t quo Hq Hl Ht Er). left. reflexivity. }
  destruct (Div_step_goes_on q None t quo r Hq Hl Ht ltac:(discriminate) Er Hr Hquo)
    as [t' Estep].
  rewrite Estep. simpl.
  destruct fuel as [|fuel]; [right; reflexivity|]. left.
  apply Div_step_next in Estep
    as (r' & s & _ & _ & _ & _ & Er' & _ & Hs & Ls & Cs & _ & _).
  unfold lead in Er. rewrite Er in Er'. injection Er' as <-.
  apply Div_ratio_int in Er as [_ Hrange].
  assert (Elead : coef s (length s - 1) = lead t - lead q * r).
  { rewrite Cs, Ls. simpl. unfold shifted.
    assert (Lq : (0 < length q)%nat) by (destruct q; [contradiction|simpl; lia]).
    destruct (decide _) as [_|]; [|lia].
    replace (length t - 1 - (length t - length q))%nat with (length q - 1)%nat by lia.
    simpl. unfold lead. reflexivity. }
  assert (Hnz : coef s (length s - 1) ≠ 0).
  { rewrite Elead. intros Hz. apply Hndiv. exists r. unfold lead in *. lia. }
  pose proof (trim_keeps s t' Hs Hnz) as ->.
  assert (Hlead' : lead s = lead t - lead q * r) by exact Elead.
  simpl. rewrite (Div_step_abort q None s); [reflexivity|exact Hq|lia| |].
  - apply lead_nonzero_nonempty. rewrite Hlead'. unfold lead in *. lia.
  - rewrite Hlead'. apply Div_ratio_int_small; [exact Hb|]. unfold lead in *. lia.
Qed.

Lemma Div_loop_inexact q n :
  ∀ fuel t0 quo0 t quo,
    Div_iter n q None t0 quo0 = Some (t, quo) →
    (length q ≤ length t)%nat → t ≠ [0] →
    inexact_ratio (lead t) (lead q) →
    (length t0 - length q < length quo0)%nat →
    Div_loop fuel q None t0 quo0 = Some LoopAbort ∨
    Div_loop fuel q None t0 quo0 = Some LoopFuel.
Proof.
  induction n as [|n IH]; intros fuel t0 quo0 t quo; simpl.
  - intros [= <- <-]. apply Div_loop_inexact_turn.
  - destruct (Div_step q None t0 quo0) as [[| |t1 quo1]|] eqn:E; try discriminate.
    intros Hiter Hl Ht Hin Hquo.
    destruct fuel as [|fuel]; [right; reflexivity|].
    simpl. rewrite E. simpl.
    apply (IH fuel t1 quo1 t quo Hiter Hl Ht Hin).
    apply Div_step_length in E as (E1 & E2 & _). lia.
Qed.

(** C2.  Without a modulus, if some turn of the loop of [Div p q] meets
    leading coefficients whose ratio is not an integer, the call leaves by the
    [return] inside the loop with the quotient [0] and, as remainder, a copy
    of the dividend [p] as it was given: nothing of the turns made so far is
    kept.  (The coefficients are integers by construction.) *)
Theorem Div_inexact_aborts (p q : Poly) (n : nat) (t : Poly) :
  Div_turn p q n t →
  inexact_ratio (lead t) (lead q) →
  Div_run p q None = Some (DivAbort [0] p) ∧ Div p q None = Some ([0], p).
Proof.
  intros (Hg & [quo Hiter] & Hl & Ht) Hin.
  assert (E : Div_run p q None = Some (DivAbort [0] p)).
  { rewrite Div_run_unfold. simpl. rewrite Hg.
    pose proof (Div_iter_length _ _ _ _ _ _ _ Hiter) as [L1 L2].
    destruct (Div_loop_inexact q n (length p + (length p + 0) + 2) p (Div_start p q) t quo
                Hiter Hl Ht Hin) as [-> | Hf].
    - unfold Div_start, GetDegree. rewrite length_replicate. lia.
    - reflexivity.
    - exfalso. revert Hf. apply Div_loop_fuel. lia. }
  split; [exact E|]. unfold Div. rewrite E. reflexivity.
Qed.

Lemma Div_inexact_aborts_witness :
  Div_turn [1; 0; 2] [1; 2] 1 [1; -1] ∧
  inexact_ratio (lead [1; -1]) (lead [1; 2]) ∧
  Div_run [1; 0; 2] [1; 2] None = Some (DivAbort [0] [1; 0; 2]) ∧
  Div [1; 0; 2] [1; 2] None = Some ([0], [1; 0; 2]).
Proof.
  assert (Ht : Div_turn [1; 0; 2] [1; 2] 1 [1; -1]).
  { split; [reflexivity|]. split; [exists [0; 1]; reflexivity|].
    split; [simpl; lia|discriminate]. }
  assert (Hi : inexact_ratio (lead [1; -1]) (lead [1; 2])).
  { split; [discriminate|]. intros [c Hc]. unfold lead, coef in Hc. simpl in Hc. lia. }
  split; [exact Ht|]. split; [exact Hi|].
  exact (Div_inexact_aborts [1; 0; 2] [1; 2] 1 [1; -1] Ht Hi).
Defined.

(** ** C1, without a modulus: exact ratios *)

Lemma canonical_lead t : canonical t → t ≠ [0] → lead t ≠ 0.
Proof.
  intros [Hne Hl] Hz. unfold lead.
  destruct t as [|a [|b t]]; [contradiction| |apply Hl; simpl; lia].
  unfold coef. simpl. congruence.
Qed.

Lemma Div_step_break_intro q m t quo :
  (length t < length q)%nat ∨ t = [0] → Div_step q m t quo = Some StepBreak.
Proof.
  intros H. rewrite Div_step_unfold. destruct (decide _); [reflexivity|contradiction].
Qed.

(** When every ratio met is exact, the loop neither aborts nor panics. *)
Lemma Div_loop_exact q fuel :
  ∀ t quo,
    canonical t → (length t - length q < length quo)%nat →
    (∀ n t1 quo1, Div_iter n q None t quo = Some (t1, quo1) →
                  (length q ≤ length t1)%nat → t1 ≠ [0] →
                  exact_ratio (lead t1) (lead q)) →
    match Div_loop fuel q None t quo with
    | Some (LoopBreak quoF remF) => length quoF = length quo ∧ canonical remF
    | Some LoopFuel => True
    | _ => False
    end.
Proof.
  induction fuel as [|fuel IH]; intros t quo Hc Hquo Hex; [exact I|].
  simpl. destruct (decide ((length t < length q)%nat ∨ t = [0])) as [Hb|Hb].
  - rewrite (Div_step_break_intro q None t quo Hb). simpl. auto.
  - assert (Hl : (length q ≤ length t)%nat) by (destruct (decide (length t < length q)%nat); [tauto|lia]).
    assert (Ht : t ≠ [0]) by tauto.
    destruct (Hex 0%nat t quo eq_refl Hl Ht) as [Hb0 Hdiv].
    destruct (lead_nonzero_nonempty q Hb0) as [Hq _].
    destruct (Div_ratio_int_Some (lead t) (lead q) Hb0) as [r Er].
    pose proof (Div_ratio_int_exact _ _ _ Er Hdiv) as Ea.
    pose proof (canonical_lead t Hc Ht) as Ha.
    assert (Hr : r ≠ 0) by (intros ->; lia).
    destruct (Div_step_goes_on q None t quo r Hq Hl Ht ltac:(discriminate) Er Hr Hquo)
      as [t' Estep].
    rewrite Estep. simpl.
    pose proof (Div_step_length _ _ _ _ _ _ Estep) as (L1 & L2 & Hc').
    specialize (IH t' (<[(length t - length q)%nat := r]> quo) Hc').
    destruct (Div_loop fuel q None t' _) as [[quoF remF| |]|].
    + rewrite <- L2. apply IH; [lia|].
      intros n t1 quo1 Hn. apply (Hex (S n) t1 quo1). simpl. rewrite Estep. exact Hn.
    + apply IH; [lia|].
      intros n t1 quo1 Hn. apply (Hex (S n) t1 quo1). simpl. rewrite Estep. exact Hn.
    + exact I.
    + apply IH; [lia|].
      intros n t1 quo1 Hn. apply (Hex (S n) t1 quo1). simpl. rewrite Estep. exact Hn.
Qed.

Lemma Div_run_exact p q :
  canonical p →
  (∀ n t, Div_turn p q n t → exact_ratio (lead t) (lead q)) →
  ∃ quo rem,
    Div_run p q None = Some (DivDone quo rem) ∨
    Div_run p q None = Some (DivEarly quo rem).
Proof.
  intros Hc Hex. rewrite Div_run_unfold. simpl.
  destruct (_ || _) eqn:Eg; [eauto|].
  apply orb_false_elim in Eg as [Eg1 Eg2]. apply Z.ltb_ge in Eg1.
  assert (Lq : (length (Div_start p q) = length p - length q + 1)%nat).
  { unfold Div_start, GetDegree in *. rewrite length_replicate. lia. }
  assert (Lpq : (length q ≤ length p)%nat) by (unfold GetDegree in Eg1; lia).
  pose proof (Div_loop_exact q (length p + (length p + 0) + 2) p (Div_start p q) Hc
                ltac:(lia)) as H.
  destruct (Div_loop _ q None p _) as [[quoF remF| |]|] eqn:El.
  - destruct H as [L1 Hc'].
    + intros n t1 quo1 Hn Hl1 Ht1. apply (Hex n). split.
      * rewrite (proj2 (Z.ltb_ge _ _) Eg1), Eg2. reflexivity.
      * split; [eauto|]. split; assumption.
    + rewrite (trim_of_canonical remF Hc').
      rewrite trim_nonempty by (intros ->; simpl in L1; lia).
      simpl. eauto.
  - exfalso. apply H.
    intros n t1 quo1 Hn Hl1 Ht1. apply (Hex n). split.
    + rewrite (proj2 (Z.ltb_ge _ _) Eg1), Eg2. reflexivity.
    + split; [eauto|]. split; assumption.
  - exfalso. revert El. apply Div_loop_fuel. lia.
  - exfalso. apply H.
    intros n t1 quo1 Hn Hl1 Ht1. apply (Hex n). split.
    + rewrite (proj2 (Z.ltb_ge _ _) Eg1), Eg2. reflexivity.
    + split; [eauto|]. split; assumption.
Qed.

(** C1, as the code has it.  With a prime modulus [n]: whenever [Div p q]
    returns from the end of its loop, [quo * q + rem] and [p] have the same
    coefficients modulo [n] and the remainder is [0] or of degree below that
    of [q]; whenever it returns from its guard, the same identity holds, and
    the remainder is of degree below that of [q] PROVIDED [q], reduced, is
    not the zero polynomial (the guard answers a division by zero with the
    remainder [p]).  Without a modulus, for a canonical dividend: when every
    ratio of leading coefficients met by the loop is exact, [Div] returns in
    one of these two ways, never from the [return] that gives up, and
    [quo * q + rem] is [p] with the same bound on the remainder. *)
Theorem Div_postcondition (p q : Poly) :
  (∀ n quo rem,
     Z.prime n →
     (Div_run p q (Some n) = Some (DivDone quo rem) →
      (∀ k, (conv quo q k + coef rem k) mod n = coef p k mod n) ∧
      (isZero rem = true ∨ GetDegree rem < GetDegree q)) ∧
     (Div_run p q (Some n) = Some (DivEarly quo rem) →
      (∀ k, (conv quo q k + coef rem k) mod n = coef p k mod n) ∧
      (isZero (reduce (Some n) <$> q) = false → GetDegree rem < GetDegree q))) ∧
  (canonical p →
   (∀ n t, Div_turn p q n t → exact_ratio (lead t) (lead q)) →
   ∃ quo rem,
     (Div_run p q None = Some (DivDone quo rem) ∨
      Div_run p q None = Some (DivEarly quo rem)) ∧
     Div p q None = Some (quo, rem) ∧
     (∀ k, conv quo q k + coef rem k = coef p k) ∧
     (isZero q = false → isZero rem = true ∨ GetDegree rem < GetDegree q)).
Proof.
  split.
  - intros n quo rem [Hn _].
    destruct (Div_run_post p q (Some n) quo rem) as [HD HE].
    assert (Hmod : ∀ a b, cong (Some n) a b → a mod n = b mod n).
    { intros a b Hc. unfold cong in Hc. simpl in Hc.
      rewrite Z.abs_eq in Hc by lia. exact Hc. }
    split.
    + intros H. destruct (HD H) as [Hc Hd]. split; [|exact Hd].
      intros k. apply Hmod, Hc.
    + intros H. destruct (HE H) as [Hc Hd]. split; [|exact Hd].
      intros k. apply Hmod, Hc.
  - intros Hc Hex.
    destruct (Div_run_exact p q Hc Hex) as (quo & rem & H).
    exists quo, rem. split; [exact H|].
    split; [unfold Div; destruct H as [-> | ->]; reflexivity|].
    destruct (Div_run_post p q None quo rem) as [HD HE].
    destruct H as [H|H].
    + destruct (HD H) as [Hk Hd]. split; [exact Hk|]. intros _. exact Hd.
    + destruct (HE H) as [Hk Hd]. split; [exact Hk|].
      intros Hz. right. apply Hd. simpl. rewrite list_fmap_id. exact Hz.
Qed.

Lemma Div_postcondition_witness :
  (Z.prime 3 ∧
   Div_run [1; 2; 0; 2] [1; 2] (Some 3) = Some (DivDone [2; 1; 1] [2]) ∧
   (∀ k, (conv [2; 1; 1] [1; 2] k + coef [2] k) mod 3 = coef [1; 2; 0; 2] k mod 3) ∧
   (isZero [2] = true ∨ GetDegree [2] < GetDegree [1; 2])) ∧
  (canonical [1; 2; 0; 3] ∧
   (∀ n t, Div_turn [1; 2; 0; 3] [1; 1] n t → exact_ratio (lead t) (lead [1; 1])) ∧
   ∃ quo rem,
     (Div_run [1; 2; 0; 3] [1; 1] None = Some (DivDone quo rem) ∨
      Div_run [1; 2; 0; 3] [1; 1] None = Some (DivEarly quo rem)) ∧
     Div [1; 2; 0; 3] [1; 1] None = Some (quo, rem) ∧
     (∀ k, conv quo [1; 1] k + coef rem k = coef [1; 2; 0; 3] k) ∧
     (isZero [1; 1] = false → isZero rem = true ∨ GetDegree rem < GetDegree [1; 1])).
Proof.
  split.
  - assert (E : Div_run [1; 2; 0; 2] [1; 2] (Some 3) = Some (DivDone [2; 1; 1] [2]))
      by reflexivity.
    split; [exact Z.prime_3|]. split; [exact E|].
    exact (proj1 (proj1 (Div_postcondition [1; 2; 0; 2] [1; 2]) 3 [2; 1; 1] [2]
                    Z.prime_3) E).
  - assert (Hc : canonical [1; 2; 0; 3]).
    { split; [discriminate|]. intros _. discriminate. }
    assert (Hex : ∀ n t, Div_turn [1; 2; 0; 3] [1; 1] n t →
                         exact_ratio (lead t) (lead [1; 1])).
    { intros n t _. split; [discriminate|]. apply Z.divide_1_l. }
    split; [exact Hc|]. split; [exact Hex|].
    exact (proj2 (Div_postcondition [1; 2; 0; 3] [1; 1]) Hc Hex).
Defined.

(** C1, as the specification words it, fails on the zero divisor: [Div] of
    [1] by [0] modulo the prime 3 returns from its guard, which is not a
    failure, with the remainder [1]: not zero, and not of degree below that
    of the divisor. *)
Lemma Div_zero_divisor_counterexample :
  Z.prime 3 ∧
  Div_run [1] [0] (Some 3) = Some (DivEarly [0] [1]) ∧
  Div [1] [0] (Some 3) = Some ([0], [1]) ∧
  ¬ (isZero [1] = true ∨ GetDegree [1] < GetDegree [0]).
Proof.
  split; [exact Z.prime_3|]. split; [reflexivity|]. split; [reflexivity|].
  intros [H|H]; [discriminate|]. vm_compute in H. discriminate.
Qed.

(** ** C8: canonical results *)

Lemma NewPolyInts_canonical cs p : NewPolyInts cs = Some p → canonical p.
Proof.
  destruct cs as [|c cs]; simpl.
  - intros [= <-]. split; [discriminate|]. simpl. lia.
  - apply trim_canonical.
Qed.

Lemma Add_canonical p q m r : Add p q m = Some r → canonical r.
Proof.
  intros H. apply Add_inv in H as (s & Hs & _). exact (trim_canonical _ _ Hs).
Qed.

Lemma Sub_canonical p q m r : Sub p q m = Some r → canonical r.
Proof. apply Add_canonical. Qed.

Lemma Mul_canonical p q m r : Mul p q m = Some r → canonical r.
Proof.
  unfold Mul.
  destruct (sanitize p m) as [ps|]; [|discriminate].
  destruct (sanitize q m) as [qs|]; [|discriminate].
  cbn [mbind option_bind].
  destruct (_ <? 0); [discriminate|].
  destruct (Mul_outer m ps qs _) as [r0|]; [|discriminate].
  cbn [mbind option_bind]. apply trim_canonical.
Qed.

(** After its loop, [Div] returns a canonical quotient and remainder. *)
Lemma Div_done_canonical p q m quo rem :
  Div_run p q m = Some (DivDone quo rem) → canonical quo ∧ canonical rem.
Proof.
  rewrite Div_run_unfold.
  destruct (sanitize p m) as [ps|]; [|discriminate].
  destruct (sanitize q m) as [qs|]; [|discriminate].
  cbn [mbind option_bind].
  destruct (_ || _); [discriminate|].
  destruct (Div_loop _ qs m ps _) as [[quoF remF| |]|]; try discriminate.
  destruct (trim quoF) as [quo'|] eqn:Equo; [|discriminate].
  cbn [mbind option_bind].
  destruct (trim remF) as [rem'|] eqn:Erem; [|discriminate].
  cbn [mbind option_bind].
  intros [= <- <-]. split; eapply trim_canonical; eassumption.
Qed.

(** C8.  [Div] can return a remainder that is not canonical: with the
    canonical operands [1 + 3x] and [x^2] and the modulus 3, [sanitize] turns
    the dividend into [1; 0], the guard [deg p < deg q] returns its clone
    without a [trim], and the leading coefficient of the result is 0. *)
Theorem Div_early_rem_not_canonical :
  canonical [1; 3] ∧ canonical [0; 0; 1] ∧
  Div [1; 3] [0; 0; 1] (Some 3) = Some ([0], [1; 0]) ∧
  ¬ canonical [1; 0].
Proof.
  repeat split; try discriminate.
  - intros [_ H]. apply H; [simpl; lia|reflexivity].
Qed.

(** ** C9: [Gcd] and the stall of [Div] *)

Lemma Gcd_stalls_both fuel :
  Gcd fuel [0; 1] [2] None = OutOfFuel ∧ Gcd fuel [2] [0; 1] None = OutOfFuel.
Proof.
  induction fuel as [|fuel [IH1 IH2]]; [split; reflexivity|].
  split.
  - change (Gcd (S fuel) [0; 1] [2] None) with (Gcd fuel [2] [0; 1] None). exact IH2.
  - change (Gcd (S fuel) [2] [0; 1] None) with (Gcd fuel [0; 1] [2] None). exact IH1.
Qed.

(** C9.  [Gcd] has no guard against the stall: on [x] and [2] without a
    modulus, [Div] gives up (1 divided by 2 is 0) and returns the dividend
    [x] as remainder, the recursive call [Gcd 2 x] swaps back to [Gcd x 2],
    and no depth of recursion ever returns. *)
Theorem Gcd_stalls (fuel : nat) : Gcd fuel [0; 1] [2] None = OutOfFuel.
Proof. exact (proj1 (Gcd_stalls_both fuel)). Qed.

(** ** C10: share generation *)

Lemma Eval_loop_Some p x n : n ≠ 0 → ∀ y accx, is_Some (Eval_loop p x (Some n) y accx).
Proof.
  intros Hn. induction p as [|c p IH]; intros y accx; simpl; [eauto|].
  rewrite !Mod_Some by exact Hn. simpl. apply IH.
Qed.

Lemma Eval_Some p x n : n ≠ 0 → is_Some (Eval p x (Some n)).
Proof. intros Hn. apply Eval_loop_Some. exact Hn. Qed.

Section GenRandomShares.

Variable RandomBigInt : nat → Z → Z.
Variable ProbablyPrime : Z → Z → bool.

(** The primality test never rejects a prime. *)
Hypothesis ProbablyPrime_prime : ∀ q n, Z.prime q → ProbablyPrime q n = true.

Let GenRandomShares := shamir.GenRandomShares RandomBigInt ProbablyPrime.

(** C10.  For a prime modulus [q] and counts [n], [k] that are not negative,
    [GenRandomShares] returns [n] shares and a polynomial of [k]
    coefficients ([GetDegree] is [k - 1]); every share [(x, y)] satisfies
    [Eval p x q = y]; and the [x] of the [i]-th share is a draw of its own,
    the [(k+i)]-th call of [RandomBigInt], reduced into [0, q): a random
    field element, not the index [i]. *)
Theorem GenRandomShares_shares (n k q : Z) :
  Z.prime q → 0 ≤ n → 0 ≤ k →
  ∃ ps p,
    GenRandomShares n k q = Some (ps, p) ∧
    Z.of_nat (length ps) = n ∧
    GetDegree p = k - 1 ∧
    (∀ i pt, ps !! i = Some pt →
       Eval p (shamir.x pt) (Some q) = Some (shamir.y pt) ∧
       shamir.x pt =
         RandomBigInt (Z.to_nat k + i)%nat (shamir.BitLen q / 8 + 1) mod q ∧
       0 ≤ shamir.x pt < q).
Proof.
  intros Hq Hn Hk.
  assert (Hq1 : 1 < q) by (destruct Hq; assumption).
  assert (Hq0 : q ≠ 0) by lia.
  assert (Habs : Z.abs q = q) by lia.
  unfold GenRandomShares, shamir.GenRandomShares.
  rewrite (ProbablyPrime_prime q 100 Hq). simpl.
  destruct (Z.ltb_spec k 0) as [?|_]; [lia|].
  set (size := shamir.BitLen q / 8 + 1).
  destruct (mapM (λ i, big.Mod (RandomBigInt i size) q) (seq 0 (Z.to_nat k)))
    as [p|] eqn:Ep.
  2:{ apply mapM_None in Ep. apply Exists_exists in Ep as (i & _ & Hi).
      rewrite Mod_Some in Hi by exact Hq0. discriminate. }
  simpl.
  destruct (Z.ltb_spec n 0) as [?|_]; [lia|].
  set (f := λ i : nat,
              r ← big.Mod (RandomBigInt (Z.to_nat k + i)%nat size) q;
              v ← Eval p r (Some q);
              Some {| shamir.x := r; shamir.y := v |}).
  destruct (mapM f (seq 0 (Z.to_nat n))) as [ps|] eqn:Eps.
  2:{ apply mapM_None in Eps. apply Exists_exists in Eps as (i & _ & Hi).
      unfold f in Hi. rewrite Mod_Some in Hi by exact Hq0. simpl in Hi.
      destruct (Eval_Some p (RandomBigInt (Z.to_nat k + i)%nat size mod Z.abs q) q Hq0)
        as [v Hv].
      rewrite Hv in Hi. discriminate. }
  simpl. exists ps, p. split; [reflexivity|].
  pose proof (length_mapM _ _ _ Ep) as Lp. rewrite length_seq in Lp.
  pose proof (length_mapM _ _ _ Eps) as Lps. rewrite length_seq in Lps.
  split; [lia|]. split; [unfold GetDegree; lia|].
  intros i pt Hi.
  apply mapM_Some_1 in Eps.
  destruct (Forall2_lookup_r _ _ _ _ _ Eps Hi) as (j & Hj & Hf).
  apply lookup_seq in Hj as [-> _]. simpl in Hf.
  unfold f in Hf. rewrite Mod_Some in Hf by exact Hq0. simpl in Hf.
  rewrite Habs in Hf.
  destruct (Eval p (RandomBigInt (Z.to_nat k + i)%nat size mod q) (Some q)) as [v|] eqn:Ev;
    [|discriminate].
  simpl in Hf. injection Hf as <-. simpl.
  split; [exact Ev|]. split; [reflexivity|].
  apply Z.mod_pos_bound. lia.
Qed.

End GenRandomShares.

Lemma trial_division_prime q n : Z.prime q → trial_division q n = true.
Proof.
  intros [Hq1 Hq]. unfold trial_division.
  apply andb_true_intro. split; [apply Z.ltb_lt; assumption|].
  apply forallb_forall. intros d Hd.
  apply in_map_iff in Hd as (i & <- & Hi). apply in_seq in Hi.
  apply negb_true_iff. apply Z.eqb_neq. intros Hz.
  apply (Hq (Z.of_nat i)); [lia|].
  apply Z.mod_divide; [lia|exact Hz].
Qed.

Lemma GenRandomShares_shares_witness :
  Z.prime 3 ∧ 0 ≤ 5 ∧ 0 ≤ 3 ∧
  ∃ ps p,
    shamir.GenRandomShares (λ i _, Z.of_nat (7 * i + 2)) trial_division 5 3 3 = Some (ps, p) ∧
    Z.of_nat (length ps) = 5 ∧
    GetDegree p = 3 - 1 ∧
    (∀ i pt, ps !! i = Some pt →
       Eval p (shamir.x pt) (Some 3) = Some (shamir.y pt) ∧
       shamir.x pt = Z.of_nat (7 * (Z.to_nat 3 + i) + 2) mod 3 ∧
       0 ≤ shamir.x pt < 3).
Proof.
  split; [exact Z.prime_3|]. split; [lia|]. split; [lia|].
  exact (GenRandomShares_shares (λ i _, Z.of_nat (7 * i + 2)) trial_division
           trial_division_prime 5 3 3 Z.prime_3 ltac:(lia) ltac:(lia)).
Defined.

(** ** The comparison on the store *)

Lemma store_Compare_coeffs_antisym p :
  ∀ q h c h',
    Store.Compare_coeffs p q h = Ret (c, h') →
    h' = h ∧ Store.Compare_coeffs q p h = Ret (- c, h).
Proof.
  induction p as [|a p IH]; intros [|b q] h c h'; simpl;
    try (intros [= <- <-]; split; reflexivity).
  unfold Store.bind, Store.get.
  destruct (h !! a) as [x|] eqn:Ea; [|discriminate].
  destruct (h !! b) as [y|] eqn:Eb; [|discriminate].
  cbn. rewrite Ea. cbn. rewrite (Cmp_antisym x y).
  destruct (Cmp_cases x y) as [[_ ->]|[[_ ->]|[_ ->]]]; simpl.
  - intros [= <- <-]. split; reflexivity.
  - apply IH.
  - intros [= <- <-]. split; reflexivity.
Qed.

(** [Compare] reads only, and exchanging the operands exchanges the sign:
    after [p.Compare(&q) < 0], the call [q.Add(p, m)] does not swap again. *)
Lemma store_Compare_antisym p q h c h' :
  Store.Compare p q h = Ret (c, h') →
  h' = h ∧ Store.Compare q p h = Ret (- c, h).
Proof.
  unfold Store.Compare.
  destruct (Z.ltb_spec (Z.of_nat (length q)) (Z.of_nat (length p))) as [H1|H1].
  - intros [= <- <-]. split; [reflexivity|].
    destruct (Z.ltb_spec (Z.of_nat (length p)) (Z.of_nat (length q))); [lia|reflexivity].
  - destruct (Z.ltb_spec (Z.of_nat (length p)) (Z.of_nat (length q))) as [H2|H2].
    + intros [= <- <-]. split; reflexivity.
    + apply store_Compare_coeffs_antisym.
Qed.

(** ** Which cells a computation may change *)

Section Frame.

Import Store.

(** The cells below [n] belong to the caller.  Among them, those in [Red] may
    be overwritten, but only with [f] of what they hold; [f] is a reduction,
    so doing it twice is doing it once. *)
Variable n : nat.
Variable Red : loc → Prop.
Variable f : Z → Z.
Hypothesis f_idem : ∀ x, f (f x) = f x.

Definition kept (h h' : store) : Prop :=
  (length h ≤ length h')%nat ∧
  ∀ l, (l < n)%nat → h' !! l = h !! l ∨ (Red l ∧ h' !! l = f <$> h !! l).

(** [c], started on a store that holds the caller's cells, keeps them and
    returns a result that satisfies [R]. *)
Definition Triple {A} (c : M A) (R : A → Prop) : Prop :=
  ∀ h a h', (n ≤ length h)%nat → c h = Ret (a, h') → kept h h' ∧ R a.

(** A cell allocated by the computation itself. *)
Definition fresh (l : loc) : Prop := (n ≤ l)%nat.

(** [Mod] by [m] is the reduction [f]. *)
Definition reduces (m : Z) : Prop := ∀ x v, big.Mod x m = Some v → v = f x.

(** The operands of a call with a modulus are reduced in place: their cells
    must be cells that may be reduced, or fresh ones. *)
Definition sanitizable (m : option Z) (p : Poly) : Prop :=
  match m with
  | None => True
  | Some m => Forall (λ l, fresh l ∨ Red l) p ∧ reduces m
  end.

(** What the division hands on is made of fresh cells. *)
Definition fresh_step (s : DivStep) : Prop :=
  match s with
  | StepNext t quo => Forall fresh t ∧ Forall fresh quo
  | _ => True
  end.

Definition fresh_pair (r : Poly * Poly) : Prop := Forall fresh r.1 ∧ Forall fresh r.2.

Definition fresh_end (e : option (Poly * Poly)) : Prop :=
  match e with
  | Some r => fresh_pair r
  | None => True
  end.

Lemma kept_refl h : kept h h.
Proof. split; [lia|]. intros l _. left. reflexivity. Qed.

Lemma kept_trans h1 h2 h3 : kept h1 h2 → kept h2 h3 → kept h1 h3.
Proof.
  intros [L1 K1] [L2 K2]. split; [lia|].
  intros l Hl. destruct (K1 l Hl) as [E1|[Hs E1]], (K2 l Hl) as [E2|[Hs' E2]].
  - left. congruence.
  - right. split; [exact Hs'|]. congruence.
  - right. split; [exact Hs|]. congruence.
  - right. split; [exact Hs|]. rewrite E2, E1.
    destruct (h1 !! l); simpl; [rewrite f_idem|]; reflexivity.
Qed.

Lemma T_ret {A} (a : A) (R : A → Prop) : R a → Triple (ret a) R.
Proof. intros Ha h a' h' _ [= <- <-]. split; [apply kept_refl|exact Ha]. Qed.

Lemma T_bind {A B} (c : M A) (k : A → M B) (R1 : A → Prop) (R2 : B → Prop) :
  Triple c R1 → (∀ a, R1 a → Triple (k a) R2) → Triple (bind c k) R2.
Proof.
  intros Hc Hk h b h' Hn. unfold bind.
  destruct (c h) as [[a h1]| |] eqn:E; try discriminate.
  intros Ek. destruct (Hc h a h1 Hn E) as [K1 Ha].
  destruct (Hk a Ha h1 b h' ltac:(destruct K1; lia) Ek) as [K2 Hb].
  split; [exact (kept_trans _ _ _ K1 K2)|exact Hb].
Qed.

Lemma T_weaken {A} (c : M A) (R R' : A → Prop) :
  Triple c R → (∀ a, R a → R' a) → Triple c R'.
Proof.
  intros Hc HR h a h' Hn E. destruct (Hc h a h' Hn E). split; auto.
Qed.

Lemma T_panic {A} (R : A → Prop) : Triple panic R.
Proof. intros h a h' _. discriminate. Qed.

Lemma T_out_of_fuel {A} (R : A → Prop) : Triple out_of_fuel R.
Proof. intros h a h' _. discriminate. Qed.

Lemma T_lift {A} (o : option A) : Triple (lift o) (λ a, o = Some a).
Proof. destruct o; simpl; [apply T_ret; reflexivity|apply T_panic]. Qed.

Lemma T_new v : Triple (new v) fresh.
Proof.
  intros h l h' Hn. unfold new. intros [= <- <-]. split; [|exact Hn].
  split; [rewrite length_app; simpl; lia|].
  intros l Hl. left. apply lookup_app_l. lia.
Qed.

Lemma T_get l : Triple (get l) (λ _, True).
Proof.
  intros h v h' _. unfold get. destruct (h !! l); [|discriminate].
  intros [= <- <-]. split; [apply kept_refl|exact I].
Qed.

(** Any write to a fresh cell. *)
Lemma T_set l v : fresh l → Triple (set l v) (λ _, True).
Proof.
  intros Hf h u h' Hn. unfold set. destruct (decide _); [|discriminate].
  intros [= <- <-]. split; [|exact I].
  split; [rewrite length_insert; lia|].
  intros l' Hl'. left. apply list_lookup_insert_ne. unfold fresh in Hf. lia.
Qed.

Lemma T_idx (p : Poly) i : Triple (idx p i) (λ l, l ∈ p).
Proof.
  unfold idx. eapply T_weaken; [apply T_lift|].
  intros l Hl. simpl in Hl. eapply list_elem_of_lookup_2. exact Hl.
Qed.

(** A cell that the computation may reduce: its own, or one of [Red] when
    [Mod] by [m] is [f]. *)
Lemma T_mod_cell m l :
  fresh l ∨ (Red l ∧ reduces m) → Triple (mod_cell m l) (λ _, True).
Proof.
  intros Hl h u h' Hn. unfold mod_cell, bind, get, lift, set.
  destruct (h !! l) as [x|] eqn:Ex; [|discriminate].
  destruct (big.Mod x m) as [v|] eqn:Ev; [|discriminate]. simpl.
  destruct (decide _); [|discriminate].
  intros [= <- <-]. split; [|exact I].
  split; [rewrite length_insert; lia|].
  intros l' Hl'. destruct (decide (l' = l)) as [->|Hne].
  - destruct Hl as [Hl|[Hs Hr]]; [unfold fresh in Hl; lia|].
    right. split; [exact Hs|].
    rewrite list_lookup_insert_eq by assumption. rewrite Ex. simpl.
    f_equal. exact (Hr _ _ Ev).
  - left. apply list_lookup_insert_ne. congruence.
Qed.

Lemma T_mapM {A B} (g : A → M B) (l : list A) (R : B → Prop) :
  (∀ a, a ∈ l → Triple (g a) R) → Triple (mapM g l) (Forall R).
Proof.
  induction l as [|a l IH]; intros Hg; simpl.
  - apply T_ret. constructor.
  - eapply T_bind; [apply Hg; left|]. intros b Hb.
    eapply T_bind; [apply IH; intros; apply Hg; right; assumption|].
    intros bs Hbs. apply T_ret. constructor; assumption.
Qed.

Lemma T_forM {A} (g : A → M unit) (l : list A) :
  (∀ a, a ∈ l → Triple (g a) (λ _, True)) → Triple (forM l g) (λ _, True).
Proof.
  induction l as [|a l IH]; intros Hg; simpl.
  - apply T_ret. exact I.
  - eapply T_bind; [apply Hg; left|]. intros _ _.
    apply IH. intros; apply Hg; right; assumption.
Qed.

Lemma T_foldM {A St} (g : St → A → M St) (l : list A) (Inv : St → Prop) :
  (∀ s a, Inv s → a ∈ l → Triple (g s a) Inv) →
  ∀ s, Inv s → Triple (foldM g s l) Inv.
Proof.
  induction l as [|a l IH]; intros Hg s Hs; simpl.
  - apply T_ret. exact Hs.
  - eapply T_bind; [apply Hg; [exact Hs|left]|]. intros s' Hs'.
    apply IH; [|exact Hs']. intros; apply Hg; [assumption|right; assumption].
Qed.

(** *** The operations *)

(** Stepping through a computation, one bind at a time. *)
Ltac t_bind := eapply T_bind; [|intros ? ?].
Tactic Notation "t_bind_as" ident(x) ident(H) := eapply T_bind; [|intros x H].
Tactic Notation "t_bind_any_as" ident(x) :=
  eapply (T_bind _ _ (λ _, True)); [|intros x _].
Ltac t_bind_any := eapply (T_bind _ _ (λ _, True)); [|intros ? _].
Ltac t_prim :=
  first [ apply T_new | apply T_get | apply T_idx | apply T_lift
        | apply T_panic | apply T_out_of_fuel ].

Lemma T_trim_last p i : Triple (trim_last p i) (λ _, True).
Proof.
  induction i as [|i IH]; simpl; [apply T_ret; exact I|].
  t_bind; [t_prim|]. t_bind; [t_prim|].
  destruct (big.Sign _ =? 0); [exact IH|apply T_ret; exact I].
Qed.

(** [trim] returns a prefix of its receiver. *)
Lemma T_trim p : Triple (trim p) (λ r, ∀ P : loc → Prop, Forall P p → Forall P r).
Proof.
  unfold trim. t_bind; [apply T_trim_last|].
  destruct (decide _); [|apply T_panic].
  apply T_ret. intros P HP. apply Forall_take. exact HP.
Qed.

Lemma T_trim_fresh p : Forall fresh p → Triple (trim p) (Forall fresh).
Proof. intros Hp. eapply T_weaken; [apply T_trim|]. intros r Hr. apply Hr. exact Hp. Qed.

Lemma T_isZero p : Triple (isZero p) (λ _, True).
Proof.
  unfold isZero. destruct (_ =? 0); [|apply T_ret; exact I].
  t_bind; [t_prim|]. t_bind; [t_prim|]. apply T_ret. exact I.
Qed.

Lemma T_Compare_coeffs p : ∀ q, Triple (Compare_coeffs p q) (λ _, True).
Proof.
  induction p as [|a p IH]; intros [|b q]; simpl; try (apply T_ret; exact I).
  t_bind; [t_prim|]. t_bind; [t_prim|].
  destruct (_ =? 1); [apply T_ret; exact I|].
  destruct (_ =? -1); [apply T_ret; exact I|]. apply IH.
Qed.

Lemma T_Compare p q : Triple (Compare p q) (λ _, True).
Proof.
  unfold Compare. destruct (_ <? _); [apply T_ret; exact I|].
  destruct (_ <? _); [apply T_ret; exact I|]. apply T_Compare_coeffs.
Qed.

Lemma T_NewPolyInts cs : Triple (NewPolyInts cs) (Forall fresh).
Proof.
  unfold NewPolyInts. destruct cs as [|c cs].
  - t_bind; [t_prim|]. apply T_ret. constructor; [assumption|constructor].
  - t_bind; [apply (T_mapM _ _ fresh); intros; apply T_new|]. apply T_trim_fresh. assumption.
Qed.

Lemma T_forM_mod_fresh m r : Forall fresh r → Triple (forM r (mod_cell m)) (λ _, True).
Proof.
  intros Hr. apply T_forM. intros l Hl. apply T_mod_cell. left.
  rewrite Forall_forall in Hr. apply Hr. exact Hl.
Qed.

Lemma T_Add_body p q m : Triple (Add_body p q m) (Forall fresh).
Proof.
  unfold Add_body.
  t_bind.
  { apply (T_mapM _ _ fresh). intros i _. t_bind; [t_prim|].
    t_bind; [t_prim|]. t_bind; [t_prim|]. t_bind; [t_prim|]. t_bind; [t_prim|].
    t_bind; [apply T_set; assumption|]. apply T_ret. assumption. }
  t_bind.
  { apply (T_mapM _ _ fresh). intros i _. t_bind; [t_prim|].
    t_bind; [t_prim|]. t_bind; [t_prim|].
    t_bind; [apply T_set; assumption|]. apply T_ret. assumption. }
  assert (Hr : Forall fresh (a ++ a0)) by (apply Forall_app; split; assumption).
  t_bind_any.
  { destruct m as [m|]; [apply T_forM_mod_fresh; exact Hr|apply T_ret; exact I]. }
  apply T_trim_fresh. exact Hr.
Qed.

Lemma T_Add p q m : Triple (Add p q m) (Forall fresh).
Proof.
  unfold Add. t_bind; [apply T_Compare|].
  destruct (_ <? 0); [|apply T_Add_body].
  t_bind; [apply T_Compare|]. apply T_Add_body.
Qed.

Lemma T_Neg p : Triple (Neg p) (Forall fresh).
Proof.
  unfold Neg. apply (T_mapM _ _ fresh). intros l _.
  t_bind; [t_prim|]. t_bind; [t_prim|].
  t_bind; [apply T_set; assumption|]. apply T_ret. assumption.
Qed.

Lemma T_Clone p adjust : Triple (Clone p adjust) (Forall fresh).
Proof.
  unfold Clone. destruct (_ <? 0); [apply T_panic|].
  destruct (_ <? 0); [apply T_NewPolyInts|].
  t_bind; [apply (T_mapM _ _ fresh); intros; apply T_new|].
  t_bind.
  { apply (T_mapM _ _ fresh). intros l _. t_bind; [t_prim|]. t_bind; [t_prim|].
    t_bind; [apply T_set; assumption|]. apply T_ret. assumption. }
  apply T_ret. apply Forall_app. split; assumption.
Qed.

Lemma T_Sub p q m : Triple (Sub p q m) (Forall fresh).
Proof. unfold Sub. t_bind; [apply T_Neg|]. apply T_Add. Qed.

Lemma T_sanitize p m : sanitizable m p → Triple (sanitize p m) (λ _, True).
Proof.
  unfold sanitize, sanitizable. destruct m as [m|]; [|intros _; apply T_ret; exact I].
  intros [Hp Hm]. apply T_forM. intros l Hl. apply T_mod_cell.
  rewrite Forall_forall in Hp. destruct (Hp l Hl) as [?|?]; [left|right]; auto.
Qed.

Lemma T_mod_opt_fresh m a :
  fresh a →
  Triple (match m with None => ret tt | Some m => mod_cell m a end) (λ _, True).
Proof.
  intros Ha. destruct m as [m|]; [apply T_mod_cell; left; exact Ha|apply T_ret; exact I].
Qed.

Lemma T_Mul p q m :
  sanitizable m p → sanitizable m q → Triple (Mul p q m) (Forall fresh).
Proof.
  intros Hp Hq. unfold Mul.
  t_bind; [apply T_sanitize; exact Hp|].
  t_bind; [apply T_sanitize; exact Hq|].
  destruct (_ <? 0); [apply T_panic|].
  t_bind; [apply (T_mapM _ _ fresh); intros; apply T_new|].
  t_bind.
  { apply (T_foldM _ _ (Forall fresh)); [|assumption].
    intros r i Hr _. apply (T_foldM _ _ (Forall fresh)); [|exact Hr].
    clear r Hr. intros r j Hr _.
    t_bind; [t_prim|]. t_bind; [t_prim|]. t_bind; [t_prim|].
    t_bind; [t_prim|]. t_bind; [t_prim|].
    t_bind; [apply T_set; assumption|].
    t_bind; [t_prim|]. t_bind; [t_prim|]. t_bind; [t_prim|].
    t_bind; [apply T_set; assumption|].
    t_bind; [apply T_mod_opt_fresh; assumption|].
    apply T_ret. apply Forall_insert; assumption. }
  apply T_trim_fresh; assumption.
Qed.

Lemma T_Div_ratio m t q td qd : Triple (Div_ratio m t q td qd) fresh.
Proof.
  unfold Div_ratio. t_bind_as r Hr; [t_prim|].
  t_bind_any; [|apply T_ret; exact Hr].
  destruct m as [m|].
  - t_bind; [t_prim|]. t_bind; [t_prim|].
    t_bind_any; [destruct (big.ModInverse _ _); [apply T_set; exact Hr|apply T_ret; exact I]|].
    t_bind; [t_prim|]. t_bind; [t_prim|]. t_bind; [t_prim|].
    t_bind; [apply T_set; exact Hr|].
    apply T_mod_cell. left. exact Hr.
  - t_bind; [t_prim|]. t_bind; [t_prim|]. t_bind; [t_prim|]. t_bind; [t_prim|].
    t_bind; [t_prim|]. apply T_set. exact Hr.
Qed.

Lemma T_Div_step q m t quo :
  Forall fresh quo → Triple (Div_step q m t quo) fresh_step.
Proof.
  intros Hquo. unfold Div_step.
  t_bind_any_as z; [destruct (_ <? 0); [apply T_ret; exact I|apply T_isZero]|].
  destruct z; [apply T_ret; exact I|].
  t_bind_as r Hr; [apply T_Div_ratio|].
  t_bind; [t_prim|].
  destruct (_ =? 0); [apply T_ret; exact I|].
  t_bind_as u Hu; [apply T_Clone|].
  t_bind_any.
  { apply T_forM. intros ui Hui.
    assert (Hf : fresh ui).
    { apply (Forall_drop _ (Z.to_nat (Z.of_nat (length t) - 1
                                      - (Z.of_nat (length q) - 1)))) in Hu.
      rewrite Forall_forall in Hu. apply Hu. exact Hui. }
    t_bind; [t_prim|]. t_bind; [apply T_set; exact Hf|].
    apply T_mod_opt_fresh. exact Hf. }
  t_bind_as t1 Ht1; [apply T_Sub|].
  t_bind_as t2 Ht2; [apply T_trim_fresh; exact Ht1|].
  destruct (decide _); [|apply T_panic].
  apply T_ret. split; [exact Ht2|]. apply Forall_insert; assumption.
Qed.

Lemma T_Div_loop q m fuel :
  ∀ t quo, Forall fresh t → Forall fresh quo →
           Triple (Div_loop fuel q m t quo) fresh_end.
Proof.
  induction fuel as [|fuel IH]; intros t quo Ht Hquo; simpl; [apply T_out_of_fuel|].
  t_bind_as s Hs; [apply T_Div_step; exact Hquo|].
  destruct s as [| |t' quo'].
  - apply T_ret. split; assumption.
  - apply T_ret. exact I.
  - destruct Hs. apply IH; assumption.
Qed.

Lemma T_Div_give_up p : Triple
  (let* quo := NewPolyInts [0] in let* rem := Clone p 0 in ret (quo, rem)) fresh_pair.
Proof.
  t_bind; [apply T_NewPolyInts|]. t_bind; [apply T_Clone|].
  apply T_ret. split; assumption.
Qed.

Lemma T_Div p q m :
  sanitizable m p → sanitizable m q → Triple (Div p q m) fresh_pair.
Proof.
  intros Hp Hq. unfold Div.
  t_bind; [apply T_sanitize; exact Hp|].
  t_bind; [apply T_sanitize; exact Hq|].
  t_bind_any_as z; [destruct (_ <? _); [apply T_ret; exact I|apply T_isZero]|].
  destruct z; [apply T_Div_give_up|].
  t_bind_any_as quo0; [destruct (_ <? 0); [apply T_panic|apply T_ret; exact I]|].
  t_bind; [apply T_Clone|].
  t_bind_as quo Hquo; [apply (T_mapM _ _ fresh); intros; apply T_new|].
  t_bind_as t Ht; [apply T_Clone|].
  t_bind_as e He; [apply T_Div_loop; assumption|].
  destruct e as [[quo' t']|]; [|apply T_Div_give_up].
  destruct He as [Hq' Ht']. simpl in Hq', Ht'.
  t_bind; [apply T_trim_fresh; exact Hq'|].
  t_bind; [apply T_trim_fresh; exact Ht'|].
  apply T_ret. split; assumption.
Qed.

Lemma sanitizable_fresh m p q : sanitizable m q → Forall fresh p → sanitizable m p.
Proof.
  unfold sanitizable. destruct m as [m|]; [|auto].
  intros [_ Hm] Hp. split; [|exact Hm].
  eapply Forall_impl; [exact Hp|]. intros l Hl. left. exact Hl.
Qed.

Lemma T_Gcd m fuel :
  ∀ p q, sanitizable m p → sanitizable m q → Triple (Gcd fuel p q m) (λ _, True).
Proof.
  induction fuel as [|fuel IH]; intros p q Hp Hq; simpl; [apply T_out_of_fuel|].
  t_bind; [apply T_Compare|].
  destruct (_ <? 0); [apply IH; assumption|].
  t_bind_any_as z; [apply T_isZero|].
  destruct z; [apply T_ret; exact I|].
  t_bind_as d Hd; [apply T_Div; assumption|].
  destruct Hd as [_ H2].
  apply IH; [exact Hq|]. exact (sanitizable_fresh m _ q Hq H2).
Qed.

Lemma T_Eval p x m : Triple (Eval p x m) fresh.
Proof.
  unfold Eval. t_bind; [t_prim|]. t_bind; [t_prim|]. t_bind; [t_prim|].
  t_bind; [|apply T_ret; assumption].
  apply T_forM. intros c _.
  t_bind; [t_prim|]. t_bind; [t_prim|]. t_bind; [apply T_set; assumption|].
  t_bind; [t_prim|]. t_bind; [t_prim|]. t_bind; [apply T_set; assumption|].
  t_bind; [t_prim|]. t_bind; [t_prim|]. t_bind; [apply T_set; assumption|].
  destruct m as [m|]; [|apply T_ret; exact I].
  t_bind; apply T_mod_cell; left; assumption.
Qed.

End Frame.

(** ** C6: what happens to the operands *)

Lemma Triple_unchanged {A} (c : Store.M A) (R : A → Prop) h a h' :
  Triple (length h) (λ _, False) (reduce None) c R →
  c h = Ret (a, h') → unchanged h h'.
Proof.
  intros Hc E. destruct (Hc h a h' ltac:(lia) E) as [[_ K] _].
  intros l Hl. destruct (K l Hl) as [?|[[] _]]. assumption.
Qed.

Lemma Triple_reduced_in {A} (c : Store.M A) (R : A → Prop) n ps h a h' :
  Triple (length h) (λ l, l ∈ ps) (reduce (Some n)) c R →
  c h = Ret (a, h') → reduced_in n ps h h'.
Proof.
  intros Hc E. destruct (Hc h a h' ltac:(lia) E) as [[_ K] _]. exact K.
Qed.

Lemma sanitizable_operand n (h : list Z) ps p :
  p ⊆ ps →
  sanitizable (length h) (λ l, l ∈ ps) (reduce (Some n)) (Some n) p.
Proof.
  intros Hp. split.
  - apply Forall_forall. intros l Hl. right. apply Hp. exact Hl.
  - intros x v Hv. apply Mod_inv in Hv as [_ ->]. reflexivity.
Qed.

(** Cells that are unchanged give the same coefficients. *)
Lemma unchanged_coeffs h h' p :
  unchanged h h' → Forall (λ l, (l < length h)%nat) p →
  Store.coeffs h' p = Store.coeffs h p.
Proof.
  intros Hu Hp. unfold Store.coeffs. apply Forall_mapM_ext.
  eapply Forall_impl; [exact Hp|]. intros l Hl. apply Hu. exact Hl.
Qed.

(** C6, as the code has it.  [Add], [Sub] and [Eval], with or without a
    modulus, and [Mul], [Div] and [Gcd] without one, leave every cell that
    existed before the call as it was: the coefficients of the operands (and
    of every other polynomial) are unchanged; so do [Neg], [Clone], [Compare],
    [isZero] and [trim], which only reslices its receiver.  With a modulus
    [n], [Mul], [Div] and [Gcd] run [sanitize] on their operands: a cell that
    existed before the call is either unchanged, or is a cell of [p] or [q]
    and has been overwritten with its residue modulo [n]. *)
Theorem operands_kept (h : list Z) (p q : list nat) (x : nat) :
  (∀ m r h', Store.Add p q m h = Ret (r, h') → unchanged h h') ∧
  (∀ m r h', Store.Sub p q m h = Ret (r, h') → unchanged h h') ∧
  (∀ m r h', Store.Eval p x m h = Ret (r, h') → unchanged h h') ∧
  (∀ r h', Store.Mul p q None h = Ret (r, h') → unchanged h h') ∧
  (∀ r h', Store.Div p q None h = Ret (r, h') → unchanged h h') ∧
  (∀ fuel r h', Store.Gcd fuel p q None h = Ret (r, h') → unchanged h h') ∧
  (∀ n r h', Store.Mul p q (Some n) h = Ret (r, h') → reduced_in n (p ++ q) h h') ∧
  (∀ n r h', Store.Div p q (Some n) h = Ret (r, h') → reduced_in n (p ++ q) h h') ∧
  (∀ fuel n r h', Store.Gcd fuel p q (Some n) h = Ret (r, h') →
                  reduced_in n (p ++ q) h h') ∧
  (∀ r h', Store.Neg p h = Ret (r, h') → unchanged h h') ∧
  (∀ s r h', Store.Clone p s h = Ret (r, h') → unchanged h h') ∧
  (∀ c h', Store.Compare p q h = Ret (c, h') → unchanged h h') ∧
  (∀ z h', Store.isZero p h = Ret (z, h') → unchanged h h') ∧
  (∀ r h', Store.trim p h = Ret (r, h') → unchanged h h').
Proof.
  assert (Hp : ∀ n, sanitizable (length h) (λ l, l ∈ p ++ q) (reduce (Some n)) (Some n) p).
  { intros n. apply sanitizable_operand. intros l Hl. apply elem_of_app. left. exact Hl. }
  assert (Hq : ∀ n, sanitizable (length h) (λ l, l ∈ p ++ q) (reduce (Some n)) (Some n) q).
  { intros n. apply sanitizable_operand. intros l Hl. apply elem_of_app. right. exact Hl. }
  repeat split.
  - intros m r h'. apply Triple_unchanged with (R := Forall (fresh (length h))).
    apply T_Add. apply reduce_idem.
  - intros m r h'. apply Triple_unchanged with (R := Forall (fresh (length h))).
    apply T_Sub. apply reduce_idem.
  - intros m r h'. apply Triple_unchanged with (R := fresh (length h)).
    apply T_Eval. apply reduce_idem.
  - intros r h'. apply Triple_unchanged with (R := Forall (fresh (length h))).
    apply T_Mul; [apply reduce_idem|exact I|exact I].
  - intros r h'. apply Triple_unchanged with (R := fresh_pair (length h)).
    apply T_Div; [apply reduce_idem|exact I|exact I].
  - intros fuel r h'. apply Triple_unchanged with (R := λ _, True).
    apply T_Gcd; [apply reduce_idem|exact I|exact I].
  - intros n r h'. apply Triple_reduced_in with (R := Forall (fresh (length h))).
    apply T_Mul; [apply reduce_idem|apply Hp|apply Hq].
  - intros n r h'. apply Triple_reduced_in with (R := fresh_pair (length h)).
    apply T_Div; [apply reduce_idem|apply Hp|apply Hq].
  - intros fuel n r h'. apply Triple_reduced_in with (R := λ _, True).
    apply T_Gcd; [apply reduce_idem|apply Hp|apply Hq].
  - intros r h'. apply Triple_unchanged with (R := Forall (fresh (length h))).
    apply T_Neg. apply reduce_idem.
  - intros s r h'. apply Triple_unchanged with (R := Forall (fresh (length h))).
    apply T_Clone. apply reduce_idem.
  - intros c h'. apply Triple_unchanged with (R := λ _, True).
    apply T_Compare. apply reduce_idem.
  - intros z h'. apply Triple_unchanged with (R := λ _, True).
    apply T_isZero. apply reduce_idem.
  - intros r h'.
    apply Triple_unchanged with (R := λ r, ∀ P : nat → Prop, Forall P p → Forall P r).
    apply T_trim. apply reduce_idem.
Qed.

Lemma operands_kept_witness :
  Store.Add [0%nat] [1%nat] (Some 3) [5; 4] = Ret ([2%nat], [5; 4; 0]) ∧
  unchanged [5; 4] [5; 4; 0] ∧
  Store.Mul [0%nat] [1%nat] (Some 3) [5; 1] = Ret ([3%nat], [2; 1; 0; 2]) ∧
  reduced_in 3 ([0%nat] ++ [1%nat]) [5; 1] [2; 1; 0; 2].
Proof.
  assert (E1 : Store.Add [0%nat] [1%nat] (Some 3) [5; 4] = Ret ([2%nat], [5; 4; 0]))
    by reflexivity.
  assert (E2 : Store.Mul [0%nat] [1%nat] (Some 3) [5; 1] = Ret ([3%nat], [2; 1; 0; 2]))
    by reflexivity.
  pose proof (operands_kept [5; 4] [0%nat] [1%nat] 0%nat) as (HAdd & _).
  pose proof (operands_kept [5; 1] [0%nat] [1%nat] 0%nat)
    as (_ & _ & _ & _ & _ & _ & HMul & _).
  split; [exact E1|]. split; [exact (HAdd _ _ _ E1)|].
  split; [exact E2|]. exact (HMul _ _ _ E2).
Defined.

(** C6, as the specification words it, fails: [Mul] with the modulus 3 on the
    operand [5] (the cell 0 of the store) returns with that cell holding 2.
    [Div] and [Gcd] do the same. *)
Lemma Mul_overwrites_operand_counterexample :
  Store.coeffs [5; 1] [0%nat] = Some [5] ∧
  Store.Mul [0%nat] [1%nat] (Some 3) [5; 1] = Ret ([3%nat], [2; 1; 0; 2]) ∧
  Store.coeffs [2; 1; 0; 2] [0%nat] = Some [2] ∧
  ¬ unchanged [5; 1] [2; 1; 0; 2].
Proof.
  repeat split.
  intros H. specialize (H 0%nat ltac:(simpl; lia)). discriminate.
Qed.

(** * Further properties of the operations *)

(** ** Canonical polynomials are determined by their coefficients *)

Lemma coef_lookup (p : Poly) k v : p !! k = Some v → coef p k = v.
Proof. intros H. unfold coef. apply nth_lookup_Some with (d := 0) in H. exact H. Qed.

Lemma lookup_coef (p : Poly) k : (k < length p)%nat → p !! k = Some (coef p k).
Proof.
  intros H. destruct (lookup_lt_is_Some_2 p k H) as [v Hv].
  rewrite Hv. f_equal. symmetry. apply coef_lookup. exact Hv.
Qed.

Lemma coef_ext_length (p q : Poly) :
  length p = length q → (∀ k, coef p k = coef q k) → p = q.
Proof.
  intros HL H. apply list_eq_same_length with (n := length p); auto.
  intros i x y Hi Hx Hy. apply coef_lookup in Hx, Hy. rewrite <- Hx, <- Hy. apply H.
Qed.

Lemma canonical_length_le (p q : Poly) :
  canonical q → p ≠ [] → (∀ k, coef p k = coef q k) → (length q ≤ length p)%nat.
Proof.
  intros [Hq Hlead] Hp H.
  destruct (decide (length q ≤ length p)%nat) as [|Hn]; [assumption|exfalso].
  assert (0 < length p)%nat by (destruct p; [congruence|simpl; lia]).
  apply Hlead; [lia|]. rewrite <- H. apply coef_ge. lia.
Qed.

Lemma canonical_ext (p q : Poly) :
  canonical p → canonical q → (∀ k, coef p k = coef q k) → p = q.
Proof.
  intros Hp Hq H. apply coef_ext_length; [|exact H].
  pose proof (canonical_length_le p q Hq (proj1 Hp) H).
  pose proof (canonical_length_le q p Hp (proj1 Hq) (λ k, eq_sym (H k))).
  lia.
Qed.

(** ** [trim], [NewPolyInts] and [isZero] *)

Lemma trim_None p : trim p = None ↔ p = [].
Proof.
  split.
  - intros H. destruct (decide (p = [])) as [|Hn]; [assumption|].
    rewrite (trim_nonempty p Hn) in H. discriminate.
  - intros ->. apply trim_empty.
Qed.

(** X1.  [trim] panics on the empty slice only.  Otherwise its result is
    canonical, is an initial segment of its argument, has the same
    coefficients (only zeros are cut off), and is left as it is by a second
    [trim]. *)
Theorem trim_spec (p : Poly) :
  (trim p = None ↔ p = []) ∧
  (∀ r, trim p = Some r →
        canonical r ∧ r `prefix_of` p ∧ (∀ k, coef r k = coef p k) ∧ trim r = Some r).
Proof.
  split; [apply trim_None|].
  intros r H. split; [exact (trim_canonical _ _ H)|].
  split; [|split].
  - apply trim_inv in H as [_ ->]. apply prefix_take.
  - intros k. exact (coef_trim _ _ k H).
  - exact (trim_idempotent _ _ H).
Qed.

Lemma trim_spec_witness :
  canonical [1; 2] ∧ [1; 2] `prefix_of` [1; 2; 0; 0] ∧
  (∀ k, coef [1; 2] k = coef [1; 2; 0; 0] k) ∧ trim [1; 2] = Some [1; 2].
Proof. apply (proj2 (trim_spec [1; 2; 0; 0]) [1; 2]). reflexivity. Defined.

(** X2.  Called with at least one coefficient, [NewPolyInts] returns; and
    whenever it returns (which includes the call without arguments), what it
    returns is canonical and has the coefficients it was given. *)
Theorem NewPolyInts_spec (cs : list Z) :
  (cs ≠ [] → ∃ p, NewPolyInts cs = Some p) ∧
  (∀ p, NewPolyInts cs = Some p → canonical p ∧ ∀ k, coef p k = coef cs k).
Proof.
  split.
  - intros Hcs. destruct cs as [|c cs]; [congruence|].
    destruct (trim (c :: cs)) as [p|] eqn:E; [exists p; exact E|].
    apply trim_None in E. discriminate.
  - intros p H. destruct cs as [|c cs].
    + injection H as <-. split.
      * split; [discriminate|]. simpl. lia.
      * intros [|[|k]]; reflexivity.
    + split; [exact (trim_canonical _ _ H)|].
      intros k. exact (coef_trim _ _ k H).
Qed.

Lemma NewPolyInts_spec_witness :
  (∃ p, NewPolyInts [1; 2; 0; 3; 0] = Some p) ∧
  (canonical [1; 2; 0; 3] ∧ ∀ k, coef [1; 2; 0; 3] k = coef [1; 2; 0; 3; 0] k).
Proof.
  split.
  - apply (proj1 (NewPolyInts_spec [1; 2; 0; 3; 0])). discriminate.
  - apply (proj2 (NewPolyInts_spec [1; 2; 0; 3; 0]) [1; 2; 0; 3]). reflexivity.
Defined.

Lemma all_zero_canonical (r : Poly) :
  canonical r → (∀ k, coef r k = 0) → r = [0].
Proof.
  intros Hr H. apply canonical_ext; [exact Hr| |].
  - split; [discriminate|]. simpl. lia.
  - intros k. rewrite H. destruct k as [|[|k]]; reflexivity.
Qed.

(** X3.  [isZero] recognises the one-element slice [0] and nothing else: a slice
    of several zeros is not zero for it.  After [trim], it tells whether all
    the coefficients are 0. *)
Theorem isZero_spec (p : Poly) :
  (isZero p = true ↔ p = [0]) ∧
  (∀ r, trim p = Some r → (isZero r = true ↔ ∀ k, coef p k = 0)).
Proof.
  split; [apply isZero_iff|].
  intros r H. rewrite isZero_iff. split.
  - intros -> k. rewrite <- (coef_trim _ _ k H). destruct k as [|[|k]]; reflexivity.
  - intros Hz. apply all_zero_canonical; [exact (trim_canonical _ _ H)|].
    intros k. rewrite (coef_trim _ _ k H). apply Hz.
Qed.

Lemma isZero_spec_witness : isZero [0] = true ↔ ∀ k, coef [0; 0; 0] k = 0.
Proof. apply (proj2 (isZero_spec [0; 0; 0]) [0]). reflexivity. Defined.

(** ** [Compare] is a total order *)

Lemma Compare_coeffs_range p : ∀ q,
  Compare_coeffs p q = -1 ∨ Compare_coeffs p q = 0 ∨ Compare_coeffs p q = 1.
Proof.
  induction p as [|a p IH]; intros [|b q]; simpl; auto.
  destruct (big.Cmp a b =? 1); [auto|].
  destruct (big.Cmp a b =? -1); auto.
Qed.

Lemma Compare_coeffs_trans p : ∀ q r,
  length p = length q → length q = length r →
  0 ≤ Compare_coeffs p q → 0 ≤ Compare_coeffs q r → 0 ≤ Compare_coeffs p r.
Proof.
  induction p as [|a p IH]; intros [|b q] [|c r]; simpl; try discriminate; try lia.
  intros [= L1] [= L2]. unfold big.Cmp.
  destruct (Z.compare_spec a b), (Z.compare_spec b c), (Z.compare_spec a c);
    simpl; try lia; subst; try lia; apply IH; assumption.
Qed.

(** X4.  [Compare] returns -1, 0 or 1; exchanging the operands changes the sign;
    0 means that the two polynomials have the same coefficients; and the
    order is transitive. *)
Theorem Compare_total_order (p q r : Poly) :
  (Compare p q = -1 ∨ Compare p q = 0 ∨ Compare p q = 1) ∧
  Compare q p = - Compare p q ∧
  (Compare p q = 0 ↔ p = q) ∧
  (0 ≤ Compare p q → 0 ≤ Compare q r → 0 ≤ Compare p r).
Proof.
  split; [|split; [|split]].
  - unfold Compare. destruct (_ <? _); [auto|]. destruct (_ <? _); [auto|].
    apply Compare_coeffs_range.
  - apply Compare_antisym.
  - split; [apply Compare_zero_eq|].
    intros <-. unfold Compare. rewrite Z.ltb_irrefl.
    induction p as [|a p IH]; simpl; [reflexivity|].
    unfold big.Cmp. rewrite Z.compare_refl. simpl. exact IH.
  - unfold Compare, GetDegree.
    destruct (Z.ltb_spec (Z.of_nat (length q) - 1) (Z.of_nat (length p) - 1)),
             (Z.ltb_spec (Z.of_nat (length p) - 1) (Z.of_nat (length q) - 1)),
             (Z.ltb_spec (Z.of_nat (length r) - 1) (Z.of_nat (length q) - 1)),
             (Z.ltb_spec (Z.of_nat (length q) - 1) (Z.of_nat (length r) - 1)),
             (Z.ltb_spec (Z.of_nat (length r) - 1) (Z.of_nat (length p) - 1)),
             (Z.ltb_spec (Z.of_nat (length p) - 1) (Z.of_nat (length r) - 1));
      try lia.
    apply Compare_coeffs_trans; lia.
Qed.

Lemma Compare_total_order_witness : 0 ≤ Compare [3; 1] [1; 1].
Proof.
  apply (proj2 (proj2 (proj2 (Compare_total_order [3; 1] [2; 1] [1; 1])))).
  - vm_compute. discriminate.
  - vm_compute. discriminate.
Defined.

(** ** [Add] and [Sub] *)

Lemma reduce_cong m a b : cong m a b → reduce m a = reduce m b.
Proof. intros H. exact H. Qed.

Lemma Add_is_Some p q m : is_Some (Add p q m) ↔ (p ≠ [] ∨ q ≠ []) ∧ m ≠ Some 0.
Proof.
  split.
  - intros [r H]. apply Add_inv in H as (s & Hs & HL & _ & Hm).
    apply trim_inv in Hs as [Hs _].
    assert (s ≠ [] → (p ≠ [] ∨ q ≠ []) ∧ m ≠ Some 0) as Hgo; [|exact (Hgo Hs)].
    intros _. split.
    + destruct p; [|left; discriminate]. destruct q; [|right; discriminate].
      destruct s; [congruence|discriminate].
    + destruct Hm; [congruence|assumption].
  - intros [Hpq Hm]. destruct (Add_Some p q m Hm Hpq) as [r Hr]. eauto.
Qed.

(** X5.  [Add] returns unless both operands are empty or the modulus is 0 (the
    first panics in [trim], the second in [Mod]).  Its result is canonical
    and its coefficients are the sums of the operands' coefficients, reduced
    when there is a modulus. *)
Theorem Add_spec (p q : Poly) (m : option Z) :
  (is_Some (Add p q m) ↔ (p ≠ [] ∨ q ≠ []) ∧ m ≠ Some 0) ∧
  (∀ r, Add p q m = Some r →
        canonical r ∧ ∀ k, coef r k = reduce m (coef p k + coef q k)).
Proof.
  split; [apply Add_is_Some|].
  intros r H. split; [exact (Add_canonical _ _ _ _ H)|].
  intros k. exact (Add_coef _ _ _ _ k H).
Qed.

Lemma Add_spec_witness :
  canonical [1; 0; 2] ∧
  ∀ k, coef [1; 0; 2] k = reduce (Some 5) (coef [1; 2] k + coef [5; 8; 7] k).
Proof. apply (proj2 (Add_spec [1; 2] [5; 8; 7] (Some 5)) [1; 0; 2]). reflexivity. Defined.

Lemma Add_nonempty p q m r : Add p q m = Some r → r ≠ [].
Proof. intros H. exact (proj1 (Add_canonical _ _ _ _ H)). Qed.

(** X6.  [Add] is associative: on operands that are not empty, adding [r] to the
    sum of [p] and [q] and adding [p] to the sum of [q] and [r] give the
    same result (and both panic on the modulus 0). *)
Theorem Add_assoc (p q r : Poly) (m : option Z) :
  p ≠ [] → q ≠ [] → r ≠ [] →
  (pq ← Add p q m; Add pq r m) = (qr ← Add q r m; Add p qr m).
Proof.
  intros Hp Hq Hr.
  destruct (decide (m = Some 0)) as [->|Hm].
  { destruct (Add p q (Some 0)) as [x|] eqn:E1.
    { assert (is_Some (Add p q (Some 0))) as H by eauto.
      apply Add_is_Some in H as [_ H]. congruence. }
    destruct (Add q r (Some 0)) as [x|] eqn:E2; [|reflexivity].
    assert (is_Some (Add q r (Some 0))) as H by eauto.
    apply Add_is_Some in H as [_ H]. congruence. }
  destruct (Add_Some p q m Hm (or_introl Hp)) as [pq Hpq].
  destruct (Add_Some q r m Hm (or_introl Hq)) as [qr Hqr].
  rewrite Hpq, Hqr. cbn [mbind option_bind].
  destruct (Add_Some pq r m Hm (or_intror Hr)) as [x Hx].
  destruct (Add_Some p qr m Hm (or_introl Hp)) as [y Hy].
  rewrite Hx, Hy. f_equal.
  apply canonical_ext; [exact (Add_canonical _ _ _ _ Hx)|exact (Add_canonical _ _ _ _ Hy)|].
  intros k.
  rewrite (Add_coef _ _ _ _ k Hx), (Add_coef _ _ _ _ k Hy),
          (Add_coef _ _ _ _ k Hpq), (Add_coef _ _ _ _ k Hqr).
  apply reduce_cong.
  apply cong_trans with (coef p k + coef q k + coef r k).
  - apply cong_add; [apply cong_reduce|apply cong_refl].
  - apply cong_sym. rewrite <- Z.add_assoc.
    apply cong_add; [apply cong_refl|apply cong_reduce].
Qed.

Lemma Add_assoc_witness :
  (pq ← Add [1; 2] [3] (Some 5); Add pq [4; 4; 4] (Some 5))
  = (qr ← Add [3] [4; 4; 4] (Some 5); Add [1; 2] qr (Some 5)).
Proof. apply (Add_assoc [1; 2] [3] [4; 4; 4] (Some 5)); discriminate. Defined.

Lemma coef_Neg p k : coef (Neg p) k = - coef p k.
Proof. unfold Neg. apply coef_fmap. reflexivity. Qed.

Lemma Neg_nil_iff p : Neg p = [] ↔ p = [].
Proof. unfold Neg. destruct p; simpl; split; congruence. Qed.

(** X7.  [Sub] returns under the same conditions as [Add]; its result is
    canonical and its coefficients are the differences of the operands'
    coefficients, reduced when there is a modulus.  In particular a
    polynomial minus itself is [0]. *)
Theorem Sub_spec (p q : Poly) (m : option Z) :
  (is_Some (Sub p q m) ↔ (p ≠ [] ∨ q ≠ []) ∧ m ≠ Some 0) ∧
  (∀ r, Sub p q m = Some r →
        canonical r ∧ ∀ k, coef r k = reduce m (coef p k - coef q k)) ∧
  (p ≠ [] → m ≠ Some 0 → Sub p p m = Some [0]).
Proof.
  assert (Hco : ∀ p q r, Sub p q m = Some r →
                 canonical r ∧ ∀ k, coef r k = reduce m (coef p k - coef q k)).
  { intros p0 q0 r H. unfold Sub in H. split; [exact (Add_canonical _ _ _ _ H)|].
    intros k. rewrite (Add_coef _ _ _ _ k H), coef_Neg. f_equal. }
  split; [|split].
  - unfold Sub. rewrite Add_is_Some, Neg_nil_iff. reflexivity.
  - apply Hco.
  - intros Hp Hm. unfold Sub.
    destruct (Add_Some p (Neg p) m Hm (or_introl Hp)) as [r Hr].
    rewrite Hr. f_equal. destruct (Hco p p r Hr) as [Hc Hk].
    apply all_zero_canonical; [exact Hc|].
    intros k. rewrite Hk, Z.sub_diag. apply reduce_0.
Qed.

Lemma Sub_spec_witness :
  (canonical [1; 4; 3] ∧
   ∀ k, coef [1; 4; 3] k = reduce (Some 5) (coef [1; 2] k - coef [5; 8; 7] k)) ∧
  Sub [1; 2] [1; 2] (Some 5) = Some [0].
Proof.
  split.
  - apply (proj1 (proj2 (Sub_spec [1; 2] [5; 8; 7] (Some 5))) [1; 4; 3]). reflexivity.
  - apply (proj2 (proj2 (Sub_spec [1; 2] [1; 2] (Some 5)))); discriminate.
Defined.

(** X8.  Without a modulus, subtracting [q] from the sum of a canonical [p] and
    [q], or adding [q] to their difference, gives [p] back. *)
Theorem Add_Sub_round_trip (p q : Poly) :
  canonical p →
  (s ← Add p q None; Sub s q None) = Some p ∧
  (d ← Sub p q None; Add d q None) = Some p.
Proof.
  intros Hc. pose proof (proj1 Hc) as Hp.
  assert (Hm : (None : option Z) ≠ Some 0) by discriminate.
  split.
  - destruct (Add_Some p q None Hm (or_introl Hp)) as [s Hs]. rewrite Hs.
    cbn [mbind option_bind]. unfold Sub.
    destruct (Add_Some s (Neg q) None Hm (or_introl (Add_nonempty _ _ _ _ Hs))) as [r Hr].
    rewrite Hr. f_equal.
    apply canonical_ext; [exact (Add_canonical _ _ _ _ Hr)|exact Hc|].
    intros k. rewrite (Add_coef _ _ _ _ k Hr), (Add_coef _ _ _ _ k Hs), coef_Neg.
    simpl. lia.
  - unfold Sub.
    destruct (Add_Some p (Neg q) None Hm (or_introl Hp)) as [d Hd]. rewrite Hd.
    cbn [mbind option_bind].
    destruct (Add_Some d q None Hm (or_introl (Add_nonempty _ _ _ _ Hd))) as [r Hr].
    rewrite Hr. f_equal.
    apply canonical_ext; [exact (Add_canonical _ _ _ _ Hr)|exact Hc|].
    intros k. rewrite (Add_coef _ _ _ _ k Hr), (Add_coef _ _ _ _ k Hd), coef_Neg.
    simpl. lia.
Qed.

Lemma Add_Sub_round_trip_witness :
  (s ← Add [1; 2; 3] [5; -7] None; Sub s [5; -7] None) = Some [1; 2; 3] ∧
  (d ← Sub [1; 2; 3] [5; -7] None; Add d [5; -7] None) = Some [1; 2; 3].
Proof.
  apply (Add_Sub_round_trip [1; 2; 3] [5; -7]).
  split; [discriminate|]. intros _. simpl. discriminate.
Defined.

(** ** [Mul]: the coefficients of the product *)

Lemma Zsum_extend f n n' :
  (n ≤ n')%nat → (∀ i, (n ≤ i < n')%nat → f i = 0) → Zsum f n' = Zsum f n.
Proof.
  induction 1 as [|n' Hle IH]; [reflexivity|].
  intros H. simpl. rewrite IH by (intros i Hi; apply H; lia).
  rewrite H by lia. lia.
Qed.

Lemma Zsum_front f n : Zsum f (S n) = f O + Zsum (λ i, f (S i)) n.
Proof. induction n as [|n IH]; [simpl; lia|]. simpl in *. rewrite IH. lia. Qed.

Lemma Zsum_rev f n : Zsum f n = Zsum (λ i, f (n - 1 - i)%nat) n.
Proof.
  induction n as [|n IH]; [reflexivity|].
  change (Zsum f (S n)) with (Zsum f n + f n).
  rewrite (Zsum_front (λ i, f (S n - 1 - i)%nat)), IH.
  replace (S n - 1 - 0)%nat with n by lia.
  rewrite Z.add_comm. f_equal.
  apply Zsum_ext. intros i Hi. f_equal. lia.
Qed.

Lemma Zsum_scale c f n : Zsum (λ i, c * f i) n = c * Zsum f n.
Proof. induction n as [|n IH]; simpl; [lia|]. rewrite IH. lia. Qed.

Lemma conv_comm a b k : conv a b k = conv b a k.
Proof.
  unfold conv. rewrite Zsum_rev. apply Zsum_ext. intros i Hi.
  replace (S k - 1 - i)%nat with (k - i)%nat by lia.
  replace (k - (k - i))%nat with i by lia. lia.
Qed.

Lemma conv_add_l a a' s b k :
  (∀ i, coef s i = coef a i + coef a' i) → conv s b k = conv a b k + conv a' b k.
Proof.
  intros H. unfold conv. rewrite <- Zsum_add. apply Zsum_ext.
  intros i _. rewrite H. lia.
Qed.

Lemma conv_Mul_term p q k : conv p q k = Zsum (Mul_term p q k) (length p).
Proof.
  unfold conv.
  rewrite (Zsum_ext _ (Mul_term p q k)).
  2:{ intros i Hi. unfold Mul_term. rewrite decide_True by lia. reflexivity. }
  destruct (decide (S k ≤ length p)%nat).
  - symmetry. apply Zsum_extend; [assumption|].
    intros i Hi. unfold Mul_term. rewrite decide_False by lia. reflexivity.
  - apply Zsum_extend; [lia|].
    intros i Hi. unfold Mul_term. rewrite (coef_ge p i) by lia.
    destruct (decide _); lia.
Qed.

Lemma Mul_inner_prefix m a i q r n :
  m ≠ Some 0 → (n ≤ length q)%nat → (i + n ≤ length r)%nat →
  ∃ r',
    foldl (λ acc j,
             r ← acc;
             b ← q !! j;
             old ← r !! (i + j)%nat;
             c ← match m with
                 | None => Some (a * b + old)
                 | Some m => big.Mod (a * b + old) m
                 end;
             Some (<[(i + j)%nat := c]> r))
          (Some r) (seq 0 n) = Some r' ∧
    length r' = length r ∧
    ∀ k, coef r' k =
         if decide (i ≤ k < i + n)%nat
         then reduce m (a * coef q (k - i) + coef r k)
         else coef r k.
Proof.
  intros Hm. induction n as [|n IH]; intros Hn Hr.
  - exists r. split; [reflexivity|]. split; [reflexivity|].
    intros k. rewrite decide_False by lia. reflexivity.
  - destruct IH as (r1 & E1 & L1 & C1); [lia|lia|].
    rewrite seq_S, foldl_app, E1. simpl.
    rewrite (lookup_coef q n) by lia. cbn [mbind option_bind].
    rewrite (lookup_coef r1 (i + n)) by lia. cbn [mbind option_bind].
    assert (Hc : match m with
                 | None => Some (a * coef q n + coef r1 (i + n))
                 | Some m0 => big.Mod (a * coef q n + coef r1 (i + n)) m0
                 end = Some (reduce m (a * coef q n + coef r1 (i + n)))).
    { destruct m as [m0|]; [|reflexivity]. apply Mod_Some. congruence. }
    rewrite Hc. cbn [mbind option_bind].
    eexists. split; [reflexivity|]. split; [rewrite length_insert; exact L1|].
    intros k. rewrite coef_insert by lia.
    destruct (decide (k = (i + n)%nat)) as [->|Hk].
    + rewrite decide_True by lia. rewrite C1, decide_False by lia.
      replace (i + n - i)%nat with n by lia. reflexivity.
    + rewrite C1. destruct (decide (i ≤ k < i + n)%nat).
      * rewrite decide_True by lia. reflexivity.
      * rewrite decide_False by lia. reflexivity.
Qed.

Lemma Mul_inner_post m a i q r :
  m ≠ Some 0 → (q = [] ∨ i + length q ≤ length r)%nat →
  ∃ r',
    Mul_inner m a i q r = Some r' ∧
    length r' = length r ∧
    ∀ k, coef r' k =
         if decide (i ≤ k < i + length q)%nat
         then reduce m (a * coef q (k - i) + coef r k)
         else coef r k.
Proof.
  intros Hm [->|H].
  - exists r. split; [reflexivity|]. split; [reflexivity|].
    intros k. simpl. rewrite decide_False by lia. reflexivity.
  - apply Mul_inner_prefix; [assumption|lia|lia].
Qed.

Lemma Mul_outer_prefix m p q r n :
  m ≠ Some 0 → (n ≤ length p)%nat →
  (q = [] ∨ length p + length q ≤ S (length r))%nat →
  (∀ k, coef r k = reduce m (coef r k)) →
  ∃ r',
    foldl (λ acc i, r ← acc; a ← p !! i; Mul_inner m a i q r) (Some r) (seq 0 n)
    = Some r' ∧
    length r' = length r ∧
    (∀ k, coef r' k = reduce m (coef r' k)) ∧
    ∀ k, cong m (coef r' k) (coef r k + Zsum (Mul_term p q k) n).
Proof.
  intros Hm. induction n as [|n IH]; intros Hn Hr Hred.
  - exists r. split; [reflexivity|]. split; [reflexivity|]. split; [exact Hred|].
    intros k. simpl. rewrite Z.add_0_r. apply cong_refl.
  - destruct IH as (r1 & E1 & L1 & R1 & C1); [lia|assumption|assumption|].
    rewrite seq_S, foldl_app, E1. simpl.
    rewrite (lookup_coef p n) by lia. cbn [mbind option_bind].
    destruct (Mul_inner_post m (coef p n) n q r1 Hm) as (r2 & E2 & L2 & C2).
    { destruct Hr as [->|Hr]; [left; reflexivity|right; lia]. }
    exists r2. split; [exact E2|]. split; [lia|]. split.
    + intros k. rewrite C2. destruct (decide _); [|apply R1].
      symmetry. apply reduce_idem.
    + intros k. rewrite C2. unfold Mul_term at 2.
      destruct (decide (n ≤ k < n + length q)%nat) as [Hk|Hk].
      * rewrite decide_True by lia.
        eapply cong_trans; [apply cong_reduce|].
        rewrite (Z.add_comm (coef p n * _)), Z.add_assoc.
        apply cong_add; [apply C1|apply cong_refl].
      * destruct (decide (n ≤ k)%nat).
        -- rewrite (coef_ge q (k - n)) by lia.
           rewrite Z.mul_0_r, Z.add_0_r. apply C1.
        -- rewrite Z.add_0_r. apply C1.
Qed.

Lemma Mul_outer_post m p q n :
  m ≠ Some 0 → (q = [] ∨ length p + length q ≤ S n)%nat →
  ∃ r,
    Mul_outer m p q (replicate n 0) = Some r ∧
    length r = n ∧
    ∀ k, coef r k = reduce m (conv p q k).
Proof.
  intros Hm Hn.
  destruct (Mul_outer_prefix m p q (replicate n 0) (length p) Hm) as (r & E & L & R & C).
  - lia.
  - rewrite length_replicate. exact Hn.
  - intros k. rewrite coef_replicate_0, reduce_0. reflexivity.
  - exists r. split; [exact E|]. split; [rewrite L; apply length_replicate|].
    intros k. rewrite R. apply reduce_cong.
    eapply cong_trans; [apply C|].
    rewrite coef_replicate_0, Z.add_0_l, <- conv_Mul_term. apply cong_refl.
Qed.

Lemma sanitize_Some p m : m ≠ Some 0 → sanitize p m = Some (reduce m <$> p).
Proof. apply mod_coeffs_Some. Qed.

Lemma sanitize_by_zero p : p ≠ [] → sanitize p (Some 0) = None.
Proof.
  intros Hp. destruct (sanitize p (Some 0)) as [x|] eqn:E; [|reflexivity].
  unfold sanitize in E. apply mod_coeffs_inv in E as [_ [?|?]]; congruence.
Qed.

Lemma Mul_unfold p q m :
  m ≠ Some 0 →
  Mul p q m =
    (if decide (length p + length q = 0)%nat then None
     else r ← Mul_outer m (reduce m <$> p) (reduce m <$> q)
                (replicate (length p + length q - 1) 0);
          trim r).
Proof.
  intros Hm. unfold Mul. rewrite !sanitize_Some by exact Hm.
  cbn [mbind option_bind]. rewrite !GetDegree_fmap. unfold GetDegree.
  destruct (Z.ltb_spec (Z.of_nat (length p) - 1 + (Z.of_nat (length q) - 1) + 1) 0).
  - rewrite decide_True by lia. reflexivity.
  - rewrite decide_False by lia.
    replace (Z.to_nat (Z.of_nat (length p) - 1 + (Z.of_nat (length q) - 1) + 1))
      with (length p + length q - 1)%nat by lia.
    reflexivity.
Qed.

Lemma Mul_inv p q m r :
  Mul p q m = Some r →
  (2 ≤ length p + length q)%nat ∧ m ≠ Some 0 ∧
  ∃ s, trim s = Some r ∧ length s = (length p + length q - 1)%nat ∧
       ∀ k, coef s k = reduce m (conv p q k).
Proof.
  intros H.
  assert (Hm : m ≠ Some 0).
  { intros ->. unfold Mul in H.
    destruct p as [|a p].
    - destruct q as [|b q]; [discriminate H|].
      rewrite (sanitize_by_zero (b :: q)) in H by discriminate. discriminate H.
    - rewrite (sanitize_by_zero (a :: p)) in H by discriminate. discriminate H. }
  rewrite Mul_unfold in H by exact Hm.
  destruct (decide _) as [|Hne]; [discriminate|].
  destruct (Mul_outer_post m (reduce m <$> p) (reduce m <$> q)
              (length p + length q - 1) Hm) as (s & E & L & C).
  { rewrite !length_fmap. right. lia. }
  rewrite E in H. cbn [mbind option_bind] in H.
  pose proof (trim_inv _ _ H) as [Hs _].
  assert (length s ≠ 0%nat) by (destruct s; [congruence|discriminate]).
  split; [lia|]. split; [exact Hm|].
  exists s. split; [exact H|]. split; [exact L|].
  intros k. rewrite C. apply reduce_cong.
  apply conv_cong; intros i; rewrite coef_reduce; apply cong_reduce.
Qed.

Lemma Mul_Some p q m :
  (2 ≤ length p + length q)%nat → m ≠ Some 0 → ∃ r, Mul p q m = Some r.
Proof.
  intros HL Hm. rewrite Mul_unfold by exact Hm.
  rewrite decide_False by lia.
  destruct (Mul_outer_post m (reduce m <$> p) (reduce m <$> q)
              (length p + length q - 1) Hm) as (s & E & L & C).
  { rewrite !length_fmap. right. lia. }
  rewrite E. cbn [mbind option_bind].
  destruct (trim s) as [r|] eqn:Er; [eauto|].
  apply trim_None in Er. subst s. simpl in L. lia.
Qed.

Lemma Mul_coef p q m r k : Mul p q m = Some r → coef r k = reduce m (conv p q k).
Proof.
  intros H. apply Mul_inv in H as (_ & _ & s & Hs & _ & C).
  rewrite (coef_trim _ _ k Hs). apply C.
Qed.

(** X9.  [Mul] returns when the operands have at least two coefficients between
    them and the modulus is not 0.  Its result is canonical, and its
    coefficient of [x^k] is the sum of the products [p_i * q_(k-i)], reduced
    when there is a modulus. *)
Theorem Mul_spec (p q : Poly) (m : option Z) :
  (is_Some (Mul p q m) ↔ (2 ≤ length p + length q)%nat ∧ m ≠ Some 0) ∧
  (∀ r, Mul p q m = Some r →
        canonical r ∧ ∀ k, coef r k = reduce m (conv p q k)).
Proof.
  split; [split|].
  - intros [r H]. apply Mul_inv in H as (H1 & H2 & _). auto.
  - intros [H1 H2]. destruct (Mul_Some p q m H1 H2) as [r Hr]. eauto.
  - intros r H. split; [exact (Mul_canonical _ _ _ _ H)|].
    intros k. exact (Mul_coef _ _ _ _ k H).
Qed.

Lemma Mul_spec_witness :
  canonical [5; 2; 0; 3] ∧
  ∀ k, coef [5; 2; 0; 3] k = reduce None (conv [1; 1] [5; -3; 3] k).
Proof. apply (proj2 (Mul_spec [1; 1] [5; -3; 3] None) [5; 2; 0; 3]). reflexivity. Defined.

(** X10.  [Mul] is commutative, panics included. *)
Theorem Mul_comm (p q : Poly) (m : option Z) : Mul p q m = Mul q p m.
Proof.
  destruct (Mul p q m) as [r|] eqn:E1, (Mul q p m) as [r'|] eqn:E2.
  - f_equal.
    apply canonical_ext; [exact (Mul_canonical _ _ _ _ E1)|exact (Mul_canonical _ _ _ _ E2)|].
    intros k. rewrite (Mul_coef _ _ _ _ k E1), (Mul_coef _ _ _ _ k E2), conv_comm.
    reflexivity.
  - apply Mul_inv in E1 as (H1 & H2 & _).
    destruct (Mul_Some q p m) as [x Hx]; [lia|assumption|]. congruence.
  - apply Mul_inv in E2 as (H1 & H2 & _).
    destruct (Mul_Some p q m) as [x Hx]; [lia|assumption|]. congruence.
  - reflexivity.
Qed.

Lemma length_pos_nonempty (p : Poly) : p ≠ [] → (1 ≤ length p)%nat.
Proof. destruct p; [congruence|simpl; lia]. Qed.

(** X11.  [Mul] distributes over [Add]: on operands that are not empty, the
    product of a sum is the sum of the products. *)
Theorem Mul_Add_distr (p q r : Poly) (m : option Z) :
  p ≠ [] → q ≠ [] → r ≠ [] →
  (s ← Add p q m; Mul s r m) = (a ← Mul p r m; b ← Mul q r m; Add a b m).
Proof.
  intros Hp Hq Hr.
  pose proof (length_pos_nonempty p Hp). pose proof (length_pos_nonempty q Hq).
  pose proof (length_pos_nonempty r Hr).
  destruct (decide (m = Some 0)) as [->|Hm].
  { destruct (Add p q (Some 0)) as [x|] eqn:E1.
    { assert (is_Some (Add p q (Some 0))) as H' by eauto.
      apply Add_is_Some in H' as [_ H']. congruence. }
    destruct (Mul p r (Some 0)) as [x|] eqn:E2; [|reflexivity].
    apply Mul_inv in E2 as (_ & E2 & _). congruence. }
  destruct (Add_Some p q m Hm (or_introl Hp)) as [s Hs].
  destruct (Mul_Some p r m) as [a Ha]; [lia|assumption|].
  destruct (Mul_Some q r m) as [b Hb]; [lia|assumption|].
  rewrite Hs, Ha, Hb. cbn [mbind option_bind].
  pose proof (length_pos_nonempty s (Add_nonempty _ _ _ _ Hs)).
  destruct (Mul_Some s r m) as [x Hx]; [lia|assumption|].
  destruct (Add_Some a b m Hm) as [y Hy].
  { left. exact (proj1 (Mul_canonical _ _ _ _ Ha)). }
  rewrite Hx, Hy. f_equal.
  apply canonical_ext; [exact (Mul_canonical _ _ _ _ Hx)|exact (Add_canonical _ _ _ _ Hy)|].
  intros k.
  rewrite (Mul_coef _ _ _ _ k Hx), (Add_coef _ _ _ _ k Hy),
          (Mul_coef _ _ _ _ k Ha), (Mul_coef _ _ _ _ k Hb).
  apply reduce_cong.
  apply cong_trans with (conv p r k + conv q r k).
  - unfold conv. rewrite <- Zsum_add. apply Zsum_cong. intros i _.
    rewrite (Add_coef _ _ _ _ i Hs), <- Z.mul_add_distr_r.
    apply cong_mul; [apply cong_reduce|apply cong_refl].
  - apply cong_sym. apply cong_add; apply cong_reduce.
Qed.

Lemma Mul_Add_distr_witness :
  (s ← Add [1; 2] [3] (Some 5); Mul s [4; 4; 4] (Some 5))
  = (a ← Mul [1; 2] [4; 4; 4] (Some 5); b ← Mul [3] [4; 4; 4] (Some 5); Add a b (Some 5)).
Proof. apply (Mul_Add_distr [1; 2] [3] [4; 4; 4] (Some 5)); discriminate. Defined.

(** ** The degree of a product *)

Lemma conv_lead p q :
  p ≠ [] → q ≠ [] → conv p q (length p + length q - 2) = lead p * lead q.
Proof.
  intros Hp Hq.
  pose proof (length_pos_nonempty p Hp). pose proof (length_pos_nonempty q Hq).
  rewrite conv_Mul_term.
  destruct (length p) as [|dp] eqn:Lp; [lia|].
  change (Zsum (Mul_term p q (S dp + length q - 2)) (S dp))
    with (Zsum (Mul_term p q (S dp + length q - 2)) dp
          + Mul_term p q (S dp + length q - 2) dp).
  rewrite (Zsum_ext _ (λ _, 0)), Zsum_zero.
  - unfold Mul_term, lead. rewrite decide_True by lia. rewrite Lp.
    replace (S dp - 1)%nat with dp by lia.
    replace (S dp + length q - 2 - dp)%nat with (length q - 1)%nat by lia. lia.
  - intros i Hi. unfold Mul_term. destruct (decide _); [|reflexivity].
    rewrite (coef_ge q) by lia. lia.
Qed.

(** X12.  Without a modulus the product of canonical polynomials that are not 0
    has the sum of the degrees (no leading coefficient is lost), and the
    product with the zero polynomial is the zero polynomial. *)
Theorem Mul_degree (p q : Poly) :
  canonical p → canonical q →
  ∃ r, Mul p q None = Some r ∧
       (p = [0] ∨ q = [0] → r = [0]) ∧
       (p ≠ [0] → q ≠ [0] → GetDegree r = GetDegree p + GetDegree q).
Proof.
  intros Hp Hq.
  pose proof (length_pos_nonempty p (proj1 Hp)).
  pose proof (length_pos_nonempty q (proj1 Hq)).
  destruct (Mul_Some p q None) as [r Hr]; [lia|discriminate|].
  exists r. split; [exact Hr|]. split.
  - intros Hz. apply all_zero_canonical; [exact (Mul_canonical _ _ _ _ Hr)|].
    intros k. rewrite (Mul_coef _ _ _ _ k Hr). simpl.
    destruct Hz as [-> | ->].
    + apply conv_zero_l. intros [|[|i]]; reflexivity.
    + rewrite conv_comm. apply conv_zero_l. intros [|[|i]]; reflexivity.
  - intros Hp0 Hq0.
    pose proof (Mul_inv _ _ _ _ Hr) as (_ & _ & s & Hs & Ls & Cs).
    assert (coef s (length s - 1) ≠ 0) as Hlead.
    { rewrite Cs, Ls. simpl.
      replace (length p + length q - 1 - 1)%nat with (length p + length q - 2)%nat by lia.
      rewrite conv_lead by (apply Hp || apply Hq).
      pose proof (canonical_lead p Hp Hp0). pose proof (canonical_lead q Hq Hq0). nia. }
    rewrite (trim_keeps _ _ Hs Hlead). unfold GetDegree. rewrite Ls. lia.
Qed.

Lemma Mul_degree_witness :
  ∃ r, Mul [1; 1] [-1; 0; 2] None = Some r ∧
       ([1; 1] = [0] ∨ [-1; 0; 2] = [0] → r = [0]) ∧
       ([1; 1] ≠ [0] → [-1; 0; 2] ≠ [0] →
        GetDegree r = GetDegree [1; 1] + GetDegree [-1; 0; 2]).
Proof.
  apply (Mul_degree [1; 1] [-1; 0; 2]).
  - split; [discriminate|]. intros _. simpl. discriminate.
  - split; [discriminate|]. intros _. simpl. discriminate.
Defined.

(** ** [Eval]: the value of a polynomial *)

Lemma value_nil x : value [] x = 0.
Proof. reflexivity. Qed.

Lemma pow_S x (i : nat) : x ^ Z.of_nat (S i) = x * x ^ Z.of_nat i.
Proof. rewrite Nat2Z.inj_succ. apply Z.pow_succ_r. lia. Qed.

Lemma value_cons c p x : value (c :: p) x = c + x * value p x.
Proof.
  unfold value. simpl length. rewrite Zsum_front.
  change (coef (c :: p) 0) with c. rewrite Z.pow_0_r, Z.mul_1_r. f_equal.
  rewrite <- Zsum_scale. apply Zsum_ext. intros i _.
  change (coef (c :: p) (S i)) with (coef p i). rewrite pow_S. lia.
Qed.

Lemma value_as_sum p x N :
  (length p ≤ N)%nat → value p x = Zsum (λ i, coef p i * x ^ Z.of_nat i) N.
Proof.
  intros H. unfold value. symmetry. apply Zsum_extend; [exact H|].
  intros i Hi. rewrite coef_ge by lia. lia.
Qed.

Lemma value_cong m p q x :
  (∀ k, cong m (coef p k) (coef q k)) → cong m (value p x) (value q x).
Proof.
  intros H.
  rewrite (value_as_sum p x (length p `max` length q)) by lia.
  rewrite (value_as_sum q x (length p `max` length q)) by lia.
  apply Zsum_cong. intros i _. apply cong_mul; [apply H|apply cong_refl].
Qed.

Lemma value_app_zeros n p x : value (replicate n 0 ++ p) x = x ^ Z.of_nat n * value p x.
Proof.
  induction n as [|n IH]; [simpl; rewrite Z.pow_0_r; lia|].
  change (replicate (S n) 0 ++ p) with (0 :: (replicate n 0 ++ p)).
  rewrite value_cons, IH, pow_S. lia.
Qed.

Lemma Eval_loop_None p x : ∀ y accx,
  Eval_loop p x None y accx = Some (y + accx * value p x).
Proof.
  induction p as [|c p IH]; intros y accx.
  - simpl. rewrite value_nil. f_equal. lia.
  - simpl. rewrite IH, value_cons. f_equal. lia.
Qed.

Lemma Eval_loop_mod n p x : n ≠ 0 → ∀ y accx,
  ∃ v, Eval_loop p x (Some n) y accx = Some v ∧
       cong (Some n) v (y + accx * value p x) ∧
       (y = reduce (Some n) y → v = reduce (Some n) v).
Proof.
  intros Hn. induction p as [|c p IH]; intros y accx.
  - exists y. split; [reflexivity|]. split; [|auto].
    rewrite value_nil, Z.mul_0_r, Z.add_0_r. apply cong_refl.
  - simpl. rewrite !Mod_Some by exact Hn. cbn [mbind option_bind].
    destruct (IH ((y + accx * c) mod Z.abs n) ((accx * x) mod Z.abs n)) as (v & E & C & R).
    exists v. split; [exact E|]. split.
    + eapply cong_trans; [exact C|]. rewrite value_cons.
      replace (y + accx * (c + x * value p x))
        with ((y + accx * c) + (accx * x) * value p x) by ring.
      apply cong_add; [apply (cong_reduce (Some n))|].
      apply cong_mul; [apply (cong_reduce (Some n))|apply cong_refl].
    + intros _. apply R. symmetry. apply (reduce_idem (Some n)).
Qed.

Lemma Eval_value p x m : m ≠ Some 0 → Eval p x m = Some (reduce m (value p x)).
Proof.
  intros Hm. unfold Eval. destruct m as [n|].
  - destruct (Eval_loop_mod n p x ltac:(congruence) 0 1) as (v & E & C & R).
    rewrite E. f_equal. rewrite R by (symmetry; apply (reduce_0 (Some n))).
    apply reduce_cong. rewrite Z.add_0_l, Z.mul_1_l in C. exact C.
  - rewrite Eval_loop_None. simpl. f_equal. lia.
Qed.

(** X13.  [Eval] returns the value of the polynomial at [x], the sum of the
    [p_i * x^i], reduced when there is a modulus; on the modulus 0 it panics,
    unless the polynomial is empty, whose value is 0. *)
Theorem Eval_spec (p : Poly) (x : Z) (m : option Z) :
  (m ≠ Some 0 → Eval p x m = Some (reduce m (value p x))) ∧
  (p ≠ [] → Eval p x (Some 0) = None) ∧
  Eval [] x m = Some 0.
Proof.
  split; [apply Eval_value|]. split; [|reflexivity].
  intros Hp. destruct p as [|c p]; [congruence|]. reflexivity.
Qed.

Lemma Eval_spec_witness :
  Eval [1; 2; 0; 3] 2 (Some 7) = Some (reduce (Some 7) (value [1; 2; 0; 3] 2)) ∧
  Eval [1; 2] 5 (Some 0) = None.
Proof.
  split.
  - apply (proj1 (Eval_spec [1; 2; 0; 3] 2 (Some 7))). discriminate.
  - apply (proj1 (proj2 (Eval_spec [1; 2] 5 (Some 0)))). discriminate.
Defined.

Lemma reduce_add m a b : reduce m (reduce m a + reduce m b) = reduce m (a + b).
Proof. apply reduce_cong. apply cong_add; apply cong_reduce. Qed.

Lemma reduce_mul m a b : reduce m (reduce m a * reduce m b) = reduce m (a * b).
Proof. apply reduce_cong. apply cong_mul; apply cong_reduce. Qed.

(** X14.  [Eval] of a sum is the sum of the values of the operands. *)
Theorem Eval_Add (p q : Poly) (m : option Z) (r : Poly) (x : Z) :
  Add p q m = Some r →
  ∃ a b, Eval p x m = Some a ∧ Eval q x m = Some b ∧
         Eval r x m = Some (reduce m (a + b)).
Proof.
  intros H.
  assert (Hm : m ≠ Some 0).
  { assert (is_Some (Add p q m)) as H' by eauto. apply Add_is_Some in H'. tauto. }
  exists (reduce m (value p x)), (reduce m (value q x)).
  rewrite !Eval_value by exact Hm. split; [reflexivity|]. split; [reflexivity|].
  f_equal. rewrite reduce_add. apply reduce_cong.
  rewrite (value_as_sum p x ((length p `max` length q) `max` length r)) by lia.
  rewrite (value_as_sum q x ((length p `max` length q) `max` length r)) by lia.
  rewrite (value_as_sum r x ((length p `max` length q) `max` length r)) by lia.
  rewrite <- Zsum_add. apply Zsum_cong. intros i _.
  rewrite (Add_coef _ _ _ _ i H), <- Z.mul_add_distr_r.
  apply cong_mul; [apply cong_reduce|apply cong_refl].
Qed.

Lemma Eval_Add_witness :
  ∃ a b, Eval [1; 2] 3 (Some 5) = Some a ∧ Eval [4; 4; 4] 3 (Some 5) = Some b ∧
         Eval [0; 1; 4] 3 (Some 5) = Some (reduce (Some 5) (a + b)).
Proof. apply (Eval_Add [1; 2] [4; 4; 4] (Some 5) [0; 1; 4] 3). reflexivity. Defined.

Lemma conv_cons c p q k :
  conv (c :: p) q k = c * coef q k + match k with O => 0 | S k' => conv p q k' end.
Proof.
  unfold conv. rewrite Zsum_front.
  change (coef (c :: p) 0) with c. rewrite Nat.sub_0_r. f_equal.
  destruct k as [|k']; [reflexivity|].
  apply Zsum_ext. intros i _. reflexivity.
Qed.

Lemma Zsum_conv q x p : ∀ N,
  (length p + length q ≤ N)%nat →
  Zsum (λ k, conv p q k * x ^ Z.of_nat k) N = value p x * value q x.
Proof.
  induction p as [|c p IH]; intros N HN.
  - rewrite value_nil, Z.mul_0_l. rewrite (Zsum_ext _ (λ _, 0)); [apply Zsum_zero|].
    intros i _. rewrite conv_zero_l by (intros j; apply coef_nil). lia.
  - destruct N as [|N]; [simpl in HN; lia|]. simpl in HN.
    rewrite (Zsum_ext _ (λ k, c * (coef q k * x ^ Z.of_nat k)
                              + match k with
                                | O => 0
                                | S k' => x * (conv p q k' * x ^ Z.of_nat k')
                                end)).
    2:{ intros k _. rewrite conv_cons. destruct k as [|k']; [lia|].
        rewrite pow_S. lia. }
    rewrite Zsum_add, Zsum_scale, <- (value_as_sum q x (S N)) by lia.
    rewrite Zsum_front, Zsum_scale, IH by lia.
    rewrite value_cons. lia.
Qed.

(** X15.  [Eval] of a product is the product of the values of the operands. *)
Theorem Eval_Mul (p q : Poly) (m : option Z) (r : Poly) (x : Z) :
  Mul p q m = Some r →
  ∃ a b, Eval p x m = Some a ∧ Eval q x m = Some b ∧
         Eval r x m = Some (reduce m (a * b)).
Proof.
  intros H.
  pose proof (Mul_inv _ _ _ _ H) as (_ & Hm & _).
  exists (reduce m (value p x)), (reduce m (value q x)).
  rewrite !Eval_value by exact Hm. split; [reflexivity|]. split; [reflexivity|].
  f_equal. rewrite reduce_mul. apply reduce_cong.
  rewrite (value_as_sum r x (length r `max` (length p + length q))) by lia.
  rewrite <- (Zsum_conv q x p (length r `max` (length p + length q))) by lia.
  apply Zsum_cong. intros i _.
  rewrite (Mul_coef _ _ _ _ i H).
  apply cong_mul; [apply cong_reduce|apply cong_refl].
Qed.

Lemma Eval_Mul_witness :
  ∃ a b, Eval [1; 2] 3 (Some 5) = Some a ∧ Eval [4; 4; 4] 3 (Some 5) = Some b ∧
         Eval [4; 2; 2; 3] 3 (Some 5) = Some (reduce (Some 5) (a * b)).
Proof. apply (Eval_Mul [1; 2] [4; 4; 4] (Some 5) [4; 2; 2; 3] 3). reflexivity. Defined.

(** X16.  [Clone] with a shift [s] that is not negative multiplies by [x^s]:
    whenever it returns, the value of the clone is [x^s] times the value of
    the polynomial. *)
Theorem Eval_Clone (p : Poly) (s x : Z) (m : option Z) (r : Poly) :
  0 ≤ s → m ≠ Some 0 → Clone p s = Some r →
  ∃ a, Eval p x m = Some a ∧ Eval r x m = Some (reduce m (x ^ s * a)).
Proof.
  intros Hs Hm Hr. rewrite Clone_nonneg in Hr by exact Hs. injection Hr as <-.
  exists (reduce m (value p x)).
  rewrite !Eval_value by exact Hm. split; [reflexivity|]. f_equal.
  rewrite value_app_zeros, Z2Nat.id by exact Hs.
  apply reduce_cong. apply cong_mul; [apply cong_refl|apply cong_sym, cong_reduce].
Qed.

Lemma Eval_Clone_witness :
  ∃ a, Eval [1; 1] 3 None = Some a ∧
       Eval [0; 0; 1; 1] 3 None = Some (reduce None (3 ^ 2 * a)).
Proof.
  apply (Eval_Clone [1; 1] 2 3 None [0; 0; 1; 1]); [lia|discriminate|reflexivity].
Defined.

(** ** [Div]: the identity on every return *)

Lemma fmap_reduce_None (p : Poly) : reduce None <$> p = p.
Proof. change (reduce None) with (@id Z). apply list_fmap_id. Qed.

Lemma Div_by_zero_modulus p q : Div_run p q (Some 0) = None.
Proof.
  rewrite Div_run_unfold.
  destruct p as [|a p]; [|rewrite (sanitize_by_zero (a :: p)) by discriminate; reflexivity].
  destruct q as [|b q]; [reflexivity|].
  rewrite (sanitize_by_zero (b :: q)) by discriminate. reflexivity.
Qed.

Lemma Div_inv p q m quo rem :
  Div p q m = Some (quo, rem) →
  Div_run p q m = Some (DivEarly quo rem) ∨
  Div_run p q m = Some (DivDone quo rem) ∨
  Div_run p q m = Some (DivAbort quo rem).
Proof.
  unfold Div. destruct (Div_run p q m) as [[a b|a b|a b|]|]; simpl;
    intros H; try discriminate H; injection H as <- <-; auto.
Qed.

Lemma Div_abort_inv p q m quo rem :
  Div_run p q m = Some (DivAbort quo rem) → quo = [0] ∧ rem = reduce m <$> p.
Proof.
  rewrite Div_run_unfold.
  destruct (sanitize p m) as [ps|] eqn:Ep; [|discriminate].
  destruct (sanitize q m) as [qs|] eqn:Eq; [|discriminate].
  cbn [mbind option_bind]. apply sanitize_inv in Ep. subst ps.
  destruct (_ || _); [discriminate|].
  destruct (Div_loop _ _ m _ _) as [[quoF remF| |]|]; try discriminate.
  - destruct (trim quoF); [|discriminate]. cbn [mbind option_bind].
    destruct (trim remF); discriminate.
  - intros [= <- <-]. auto.
Qed.

Lemma Div_early_inv p q m quo rem :
  Div_run p q m = Some (DivEarly quo rem) → quo = [0] ∧ rem = reduce m <$> p.
Proof.
  rewrite Div_run_unfold.
  destruct (sanitize p m) as [ps|] eqn:Ep; [|discriminate].
  destruct (sanitize q m) as [qs|] eqn:Eq; [|discriminate].
  cbn [mbind option_bind]. apply sanitize_inv in Ep. subst ps.
  destruct (_ || _); [intros [= <- <-]; auto|].
  destruct (Div_loop _ _ m _ _) as [[quoF remF| |]|]; try discriminate.
  destruct (trim quoF); [|discriminate]. cbn [mbind option_bind].
  destruct (trim remF); discriminate.
Qed.

Lemma Div_coef_identity p q m quo rem :
  Div p q m = Some (quo, rem) →
  m ≠ Some 0 ∧ ∀ k, cong m (conv quo q k + coef rem k) (coef p k).
Proof.
  intros H. split.
  - intros ->. unfold Div in H. rewrite Div_by_zero_modulus in H. discriminate.
  - apply Div_inv in H as [H|[H|H]].
    + exact (proj1 (proj2 (Div_run_post p q m quo rem) H)).
    + exact (proj1 (proj1 (Div_run_post p q m quo rem) H)).
    + apply Div_abort_inv in H as [-> ->]. intros k.
      rewrite conv_zero_l by (intros [|[|i]]; reflexivity).
      rewrite coef_reduce. simpl. apply cong_reduce.
Qed.

Lemma value_identity m p q quo rem x :
  (∀ k, cong m (conv quo q k + coef rem k) (coef p k)) →
  cong m (value quo x * value q x + value rem x) (value p x).
Proof.
  intros H.
  set (N := ((length quo + length q) `max` (length rem `max` length p))%nat).
  rewrite <- (Zsum_conv q x quo N) by lia.
  rewrite (value_as_sum rem x N), (value_as_sum p x N) by lia.
  rewrite <- Zsum_add. apply Zsum_cong. intros i _.
  rewrite <- Z.mul_add_distr_r. apply cong_mul; [apply H|apply cong_refl].
Qed.

(** X17.  On every return of [Div], also the one that gives up, the quotient
    times the divisor plus the remainder is the dividend, coefficient by
    coefficient (up to the modulus), and so are the values at every [x]. *)
Theorem Div_identity (p q : Poly) (m : option Z) (quo rem : Poly) :
  Div p q m = Some (quo, rem) →
  (∀ k, cong m (conv quo q k + coef rem k) (coef p k)) ∧
  (∀ x, ∃ a b c d,
      Eval p x m = Some a ∧ Eval q x m = Some b ∧
      Eval quo x m = Some c ∧ Eval rem x m = Some d ∧
      a = reduce m (c * b + d)).
Proof.
  intros H. apply Div_coef_identity in H as [Hm H]. split; [exact H|].
  intros x.
  exists (reduce m (value p x)), (reduce m (value q x)),
         (reduce m (value quo x)), (reduce m (value rem x)).
  rewrite !Eval_value by exact Hm. repeat (split; [reflexivity|]).
  apply reduce_cong. apply cong_sym.
  eapply cong_trans; [|apply (value_identity m p q quo rem x H)].
  apply cong_add; [|apply cong_reduce].
  apply cong_mul; apply cong_reduce.
Qed.

Lemma Div_identity_witness :
  (∀ k, cong (Some 7) (conv [4; 1; 5] [1; 2] k + coef [4] k) (coef [1; 2; 0; 3] k)) ∧
  (∀ x, ∃ a b c d,
      Eval [1; 2; 0; 3] x (Some 7) = Some a ∧ Eval [1; 2] x (Some 7) = Some b ∧
      Eval [4; 1; 5] x (Some 7) = Some c ∧ Eval [4] x (Some 7) = Some d ∧
      a = reduce (Some 7) (c * b + d)).
Proof. apply (Div_identity [1; 2; 0; 3] [1; 2] (Some 7) [4; 1; 5] [4]). reflexivity. Defined.

(** ** [Div] by a polynomial whose leading coefficient is 1 or -1 *)

Lemma Div_unit_lead p q :
  canonical p → lead q = 1 ∨ lead q = -1 →
  ∃ quo rem,
    Div p q None = Some (quo, rem) ∧
    canonical quo ∧ canonical rem ∧
    (∀ k, conv quo q k + coef rem k = coef p k) ∧
    (isZero rem = true ∨ GetDegree rem < GetDegree q).
Proof.
  intros Hc Hq.
  destruct (Div_run_exact p q Hc) as (quo & rem & H).
  { intros n t _. split; [lia|]. destruct Hq as [-> | ->].
    - apply Z.divide_1_l.
    - exists (- lead t). lia. }
  assert (Hq0 : isZero q = false).
  { apply isZero_false_iff. intros ->. unfold lead, coef in Hq. simpl in Hq. lia. }
  exists quo, rem. destruct H as [H|H].
  - split; [unfold Div; rewrite H; reflexivity|].
    destruct (Div_done_canonical _ _ _ _ _ H) as [C1 C2].
    split; [exact C1|]. split; [exact C2|].
    exact (proj1 (Div_run_post p q None quo rem) H).
  - split; [unfold Div; rewrite H; reflexivity|].
    destruct (proj2 (Div_run_post p q None quo rem) H) as [I D].
    apply Div_early_inv in H as [-> ->]. rewrite !fmap_reduce_None in *.
    split; [split; [discriminate|simpl; lia]|]. split; [exact Hc|].
    split; [exact I|]. right. apply D. exact Hq0.
Qed.

(** X18.  Without a modulus, the division of a canonical polynomial by one whose
    leading coefficient is 1 or -1 never gives up: it returns a canonical
    quotient and remainder with [quo * q + rem = p], the remainder being
    [0] or of degree below that of [q]. *)
Theorem Div_monic (p q : Poly) :
  canonical p → lead q = 1 ∨ lead q = -1 →
  ∃ quo rem,
    Div p q None = Some (quo, rem) ∧
    canonical quo ∧ canonical rem ∧
    (∀ k, conv quo q k + coef rem k = coef p k) ∧
    (isZero rem = true ∨ GetDegree rem < GetDegree q).
Proof. apply Div_unit_lead. Qed.

Lemma Div_monic_witness :
  ∃ quo rem,
    Div [1; 2; 0; 3] [1; 1] None = Some (quo, rem) ∧
    canonical quo ∧ canonical rem ∧
    (∀ k, conv quo [1; 1] k + coef rem k = coef [1; 2; 0; 3] k) ∧
    (isZero rem = true ∨ GetDegree rem < GetDegree [1; 1]).
Proof.
  apply (Div_monic [1; 2; 0; 3] [1; 1]).
  - split; [discriminate|]. intros _. simpl. discriminate.
  - left. reflexivity.
Defined.

(** X19.  The remainder theorem: dividing a canonical [p] by [x - a] leaves the
    constant [Eval p a] as remainder. *)
Theorem Div_linear_remainder (p : Poly) (a : Z) :
  canonical p →
  ∃ quo v, Div p [- a; 1] None = Some (quo, [v]) ∧ Eval p a None = Some v.
Proof.
  intros Hc.
  destruct (Div_unit_lead p [- a; 1] Hc (or_introl eq_refl))
    as (quo & rem & HD & _ & Cr & I & Hdeg).
  assert (Hrem : ∃ c, rem = [c]).
  { destruct Hdeg as [Hz|Hd].
    - apply isZero_iff in Hz. eauto.
    - destruct Cr as [Hne _]. unfold GetDegree in Hd. simpl in Hd.
      destruct rem as [|c [|d rem]]; [congruence|eauto|simpl in Hd; lia]. }
  destruct Hrem as [c ->].
  exists quo, c. split; [exact HD|].
  rewrite Eval_value by discriminate. simpl. f_equal.
  pose proof (value_identity None p [- a; 1] quo [c] a) as Hv.
  unfold cong in Hv. simpl in Hv. rewrite <- Hv by exact I.
  unfold value at 2 3. simpl. unfold coef. simpl. lia.
Qed.

Lemma Div_linear_remainder_witness :
  ∃ quo v, Div [1; 2; 0; 3] [- 2; 1] None = Some (quo, [v]) ∧
           Eval [1; 2; 0; 3] 2 None = Some v.
Proof.
  apply (Div_linear_remainder [1; 2; 0; 3] 2).
  split; [discriminate|]. intros _. simpl. discriminate.
Defined.

(** ** [Div] with a prime modulus *)

Lemma ModInverse_complete g n :
  n ≠ 0 → Z.gcd g n = 1 → ∃ r, big.ModInverse g n = Some r.
Proof.
  intros Hn Hg. unfold big.ModInverse. rewrite Hg, Z.eqb_refl.
  destruct (find _ _) as [r|] eqn:E; [eauto|exfalso].
  destruct (Z.gcd_bezout g n 1 Hg) as (a & b & Hab).
  assert (Hpos : 0 < Z.abs n) by lia.
  pose proof (Z.mod_pos_bound a (Z.abs n) Hpos) as Hx.
  assert (Hin : In (a mod Z.abs n) (Z.of_nat <$> seq 0 (Z.to_nat (Z.abs n)))).
  { apply in_map_iff. exists (Z.to_nat (a mod Z.abs n)). split; [lia|].
    apply in_seq. lia. }
  pose proof (find_none _ _ E (a mod Z.abs n) Hin) as Hf. simpl in Hf.
  apply Z.eqb_neq in Hf. apply Hf.
  rewrite Z.mul_mod_idemp_r by lia.
  replace (g * a) with (1 + (- b * Z.sgn n) * Z.abs n).
  - apply Z.mod_add. lia.
  - pose proof (Z.abs_sgn n). nia.
Qed.

Lemma reduced_fmap m p : reduced m (reduce m <$> p).
Proof. intros k. rewrite coef_reduce. symmetry. apply reduce_idem. Qed.

Lemma reduced_range n p k : n ≠ 0 → reduced (Some n) p → 0 ≤ coef p k < Z.abs n.
Proof. intros Hn H. rewrite (H k). simpl. apply Z.mod_pos_bound. lia. Qed.

Lemma Div_ratio_prime n a b :
  Z.prime n → 0 < a < n → 0 < b < n →
  ∃ r, Div_ratio (Some n) a b = Some r ∧ r ≠ 0.
Proof.
  intros Hp Ha Hb.
  assert (Hn : n ≠ 0) by lia. assert (Habs : Z.abs n = n) by lia.
  destruct (ModInverse_complete b n Hn) as [i Hi].
  { rewrite Z.gcd_comm. apply (Z.coprime_prime_small n b Hp). lia. }
  unfold Div_ratio. rewrite Hi. simpl. rewrite Mod_Some by exact Hn.
  eexists. split; [reflexivity|]. rewrite Habs. intros Hz.
  apply ModInverse_sound in Hi. rewrite Habs in Hi.
  assert (E1 : (b * (i * a)) mod n = 0).
  { rewrite <- Z.mul_mod_idemp_r by lia. rewrite Hz, Z.mul_0_r. apply Z.mod_0_l. lia. }
  assert (E2 : (b * i * a) mod n = a mod n).
  { rewrite <- Z.mul_mod_idemp_l by lia. rewrite Hi.
    rewrite Z.mul_mod_idemp_l by lia. f_equal. lia. }
  replace (b * i * a) with (b * (i * a)) in E2 by ring.
  rewrite (Z.mod_small a n) in E2 by lia. lia.
Qed.

Lemma Div_loop_prime n q fuel :
  Z.prime n → canonical q → reduced (Some n) q → q ≠ [0] →
  ∀ t quo,
    canonical t → reduced (Some n) t → (length t - length q < length quo)%nat →
    match Div_loop fuel q (Some n) t quo with
    | Some (LoopBreak quoF remF) => length quoF = length quo ∧ canonical remF
    | Some LoopFuel => True
    | _ => False
    end.
Proof.
  intros Hp Hcq Hrq Hq0.
  assert (Hn : n ≠ 0) by (destruct Hp; lia). assert (Habs : Z.abs n = n) by (destruct Hp; lia).
  induction fuel as [|fuel IH]; intros t quo Hc Hr Hquo; [exact I|].
  simpl. destruct (decide ((length t < length q)%nat ∨ t = [0])) as [Hb|Hb].
  - rewrite (Div_step_break_intro q (Some n) t quo Hb). simpl. auto.
  - assert (Hl : (length q ≤ length t)%nat)
      by (destruct (decide (length t < length q)%nat); [tauto|lia]).
    assert (Ht : t ≠ [0]) by tauto.
    pose proof (canonical_lead t Hc Ht) as Ha.
    pose proof (canonical_lead q Hcq Hq0) as Hb'.
    pose proof (reduced_range n t (length t - 1) Hn Hr) as Ra.
    pose proof (reduced_range n q (length q - 1) Hn Hrq) as Rb.
    unfold lead in Ha, Hb'.
    destruct (Div_ratio_prime n (coef t (length t - 1)) (coef q (length q - 1)) Hp)
      as (r & Er & Hr0); [lia|lia|].
    destruct (Div_step_goes_on q (Some n) t quo r (proj1 Hcq) Hl Ht ltac:(congruence)
                Er Hr0 Hquo) as [t' Estep].
    rewrite Estep. simpl.
    pose proof (Div_step_length _ _ _ _ _ _ Estep) as (L1 & L2 & Hc').
    assert (Hr' : reduced (Some n) t').
    { apply Div_step_next in Estep as (r1 & s & _ & _ & _ & _ & _ & _ & Hs & _ & Cs & _).
      intros k. rewrite (coef_trim _ _ k Hs), Cs. symmetry. apply reduce_idem. }
    specialize (IH t' (<[(length t - length q)%nat := r]> quo) Hc' Hr').
    rewrite length_insert in IH.
    destruct (Div_loop fuel q (Some n) t' _) as [[quoF remF| |]|]; apply IH; lia.
Qed.

(** X20.  With a prime modulus [n], dividing by a polynomial whose residue is
    canonical (its leading coefficient is not a multiple of [n]) never gives
    up, provided the residue of the dividend is canonical too: [Div] returns
    from its guard or after its loop, with [quo * q + rem] congruent to [p]
    and, unless the divisor reduces to [0], a remainder that is [0] or of
    degree below that of [q]. *)
Theorem Div_prime_field (p q : Poly) (n : Z) :
  Z.prime n →
  canonical (reduce (Some n) <$> p) → canonical (reduce (Some n) <$> q) →
  ∃ quo rem,
    (Div_run p q (Some n) = Some (DivDone quo rem) ∨
     Div_run p q (Some n) = Some (DivEarly quo rem)) ∧
    Div p q (Some n) = Some (quo, rem) ∧
    (∀ k, (conv quo q k + coef rem k) mod n = coef p k mod n) ∧
    (isZero (reduce (Some n) <$> q) = false →
     isZero rem = true ∨ GetDegree rem < GetDegree q).
Proof.
  intros Hp Hcp Hcq.
  assert (Hn : n ≠ 0) by (destruct Hp; lia). assert (Habs : Z.abs n = n) by (destruct Hp; lia).
  assert (Hrun : ∃ quo rem,
            Div_run p q (Some n) = Some (DivDone quo rem) ∨
            Div_run p q (Some n) = Some (DivEarly quo rem)).
  { rewrite Div_run_unfold. rewrite !sanitize_Some by congruence.
    cbn [mbind option_bind].
    set (ps := reduce (Some n) <$> p) in *. set (qs := reduce (Some n) <$> q) in *.
    destruct (_ || _) eqn:Eg; [eauto|].
    apply orb_false_elim in Eg as [Eg1 Eg2]. apply Z.ltb_ge in Eg1.
    apply isZero_false_iff in Eg2.
    assert (Lq : (length (Div_start ps qs) = length ps - length qs + 1)%nat).
    { unfold Div_start, GetDegree in *. rewrite length_replicate. lia. }
    assert (Lpq : (length qs ≤ length ps)%nat) by (unfold GetDegree in Eg1; lia).
    pose proof (Div_loop_prime n qs (2 * length ps + 2) Hp Hcq (reduced_fmap _ _) Eg2
                  ps (Div_start ps qs) Hcp (reduced_fmap _ _) ltac:(lia)) as H.
    destruct (Div_loop _ qs (Some n) ps _) as [[quoF remF| |]|] eqn:El;
      [|contradiction| |contradiction].
    - destruct H as [L1 Hc'].
      rewrite (trim_of_canonical remF Hc').
      rewrite trim_nonempty by (intros ->; simpl in L1; lia).
      simpl. eauto.
    - exfalso. revert El. apply Div_loop_fuel. lia. }
  destruct Hrun as (quo & rem & H). exists quo, rem. split; [exact H|].
  split; [unfold Div; destruct H as [-> | ->]; reflexivity|].
  pose proof (Div_run_post p q (Some n) quo rem) as [HD HE].
  unfold cong in HD, HE. simpl in HD, HE. rewrite Habs in HD, HE.
  destruct H as [H|H].
  - destruct (HD H) as [I D]. split; [exact I|]. intros _. exact D.
  - destruct (HE H) as [I D]. split; [exact I|]. intros Hz. right. exact (D Hz).
Qed.

Lemma Div_prime_field_witness :
  ∃ quo rem,
    (Div_run [1; 2; 0; 3] [1; 2] (Some 7) = Some (DivDone quo rem) ∨
     Div_run [1; 2; 0; 3] [1; 2] (Some 7) = Some (DivEarly quo rem)) ∧
    Div [1; 2; 0; 3] [1; 2] (Some 7) = Some (quo, rem) ∧
    (∀ k, (conv quo [1; 2] k + coef rem k) mod 7 = coef [1; 2; 0; 3] k mod 7) ∧
    (isZero (reduce (Some 7) <$> [1; 2]) = false →
     isZero rem = true ∨ GetDegree rem < GetDegree [1; 2]).
Proof.
  apply (Div_prime_field [1; 2; 0; 3] [1; 2] 7).
  - split; [lia|]. intros k Hk [d Hd]. assert (k = 2 ∨ k = 3 ∨ k = 4 ∨ k = 5 ∨ k = 6) by lia.
    lia.
  - split; [discriminate|]. intros _. simpl. discriminate.
  - split; [discriminate|]. intros _. simpl. discriminate.
Defined.

(** ** The results of [Div] are reduced *)

Lemma reduced_fmap_id m p : reduced m p → reduce m <$> p = p.
Proof.
  intros H. apply coef_ext_length; [apply length_fmap|].
  intros k. rewrite coef_reduce. symmetry. apply H.
Qed.

Lemma reduced_zero m : reduced m [0].
Proof. intros [|[|k]]; unfold coef; simpl; symmetry; apply reduce_0. Qed.

Lemma reduced_trim m s r : trim s = Some r → reduced m s → reduced m r.
Proof. intros H Hs k. rewrite (coef_trim _ _ k H). apply Hs. Qed.

Lemma Div_ratio_reduced m a b r : Div_ratio m a b = Some r → r = reduce m r.
Proof.
  destruct m as [n|]; [|reflexivity]. unfold Div_ratio.
  intros H. apply Mod_inv in H as [_ ->]. symmetry. apply (reduce_idem (Some n)).
Qed.

Lemma Div_loop_reduced q m fuel : ∀ t quo quoF remF,
  reduced m t → reduced m quo →
  Div_loop fuel q m t quo = Some (LoopBreak quoF remF) →
  reduced m quoF ∧ reduced m remF.
Proof.
  induction fuel as [|fuel IH]; intros t quo quoF remF Ht Hquo; [discriminate|].
  simpl. destruct (Div_step q m t quo) as [[| |t' quo']|] eqn:E; simpl; try discriminate.
  - intros [= <- <-]. auto.
  - apply Div_step_next in E
      as (r & s & _ & _ & _ & _ & Er & _ & Hs & _ & Cs & Hlt & ->).
    apply IH.
    + intros k. rewrite (coef_trim _ _ k Hs), Cs. symmetry. apply reduce_idem.
    + intros k. rewrite coef_insert by exact Hlt.
      destruct (decide _); [exact (Div_ratio_reduced _ _ _ _ Er)|apply Hquo].
Qed.

Lemma Div_done_reduced p q m quo rem :
  Div_run p q m = Some (DivDone quo rem) → reduced m quo ∧ reduced m rem.
Proof.
  rewrite Div_run_unfold.
  destruct (sanitize p m) as [ps|] eqn:Ep; [|discriminate].
  destruct (sanitize q m) as [qs|] eqn:Eq; [|discriminate].
  cbn [mbind option_bind]. apply sanitize_inv in Ep. subst ps.
  destruct (_ || _); [discriminate|].
  destruct (Div_loop _ _ m _ _) as [[quoF remF| |]|] eqn:El; try discriminate.
  destruct (trim quoF) as [quo'|] eqn:Equo; [|discriminate]. cbn [mbind option_bind].
  destruct (trim remF) as [rem'|] eqn:Erem; [|discriminate]. cbn [mbind option_bind].
  intros [= <- <-].
  apply Div_loop_reduced in El as [H1 H2].
  - split; eapply reduced_trim; eassumption.
  - apply reduced_fmap.
  - intros k. unfold Div_start. rewrite coef_replicate_0. symmetry. apply reduce_0.
Qed.

(** X21.  With a modulus [n], every coefficient of the quotient and of the
    remainder that [Div] returns lies in [0, |n|), on each of its three
    returns. *)
Theorem Div_results_reduced (p q : Poly) (n : Z) (quo rem : Poly) :
  Div p q (Some n) = Some (quo, rem) →
  ∀ k, 0 ≤ coef quo k < Z.abs n ∧ 0 ≤ coef rem k < Z.abs n.
Proof.
  intros H.
  pose proof (proj1 (Div_coef_identity _ _ _ _ _ H)) as Hn.
  assert (Hn0 : n ≠ 0) by congruence.
  assert (reduced (Some n) quo ∧ reduced (Some n) rem) as [H1 H2].
  { apply Div_inv in H as [H|[H|H]].
    - apply Div_early_inv in H as [-> ->]. split; [apply reduced_zero|apply reduced_fmap].
    - exact (Div_done_reduced _ _ _ _ _ H).
    - apply Div_abort_inv in H as [-> ->]. split; [apply reduced_zero|apply reduced_fmap]. }
  intros k. split; apply reduced_range; assumption.
Qed.

Lemma Div_results_reduced_witness :
  0 ≤ coef [4; 1; 5] 2 < Z.abs 7 ∧ 0 ≤ coef [4] 2 < Z.abs 7.
Proof.
  assert (H : Div [1; 2; 0; 3] [1; 2] (Some 7) = Some ([4; 1; 5], [4])) by reflexivity.
  exact (Div_results_reduced [1; 2; 0; 3] [1; 2] 7 [4; 1; 5] [4] H 2%nat).
Defined.

(** ** [Gcd] *)

Lemma Gcd_S fuel p q m :
  Gcd (S fuel) p q m =
    if Compare p q <? 0 then Gcd fuel q p m
    else if isZero q then Ret p
    else match Div p q m, sanitize q m with
         | Some (_, rem), Some q' => Gcd fuel q' rem m
         | _, _ => Panic
         end.
Proof. reflexivity. Qed.

Lemma Gcd_fuel_mono m fuel : ∀ p q r,
  Gcd fuel p q m = Ret r → Gcd (S fuel) p q m = Ret r.
Proof.
  induction fuel as [|fuel IH]; intros p q r; [discriminate|].
  intros H. rewrite Gcd_S in H. rewrite (Gcd_S (S fuel)).
  destruct (Compare p q <? 0); [apply IH; exact H|].
  destruct (isZero q); [exact H|].
  destruct (Div p q m) as [[quo rem]|]; [|discriminate].
  destruct (sanitize q m) as [q'|]; [|discriminate].
  apply IH. exact H.
Qed.

(** X22.  [Gcd] is symmetric: when [Gcd p q] returns within some depth of
    recursion, [Gcd q p] returns the same polynomial within one call more. *)
Theorem Gcd_sym (fuel : nat) (p q : Poly) (m : option Z) (r : Poly) :
  Gcd fuel p q m = Ret r → Gcd (S fuel) q p m = Ret r.
Proof.
  intros H.
  destruct (Z.ltb_spec (Compare q p) 0) as [Hlt|Hge].
  - rewrite Gcd_S, (proj2 (Z.ltb_lt _ _) Hlt). exact H.
  - destruct (Z.eq_dec (Compare q p) 0) as [Hz|Hnz].
    + apply Compare_zero_eq in Hz. subst q. apply Gcd_fuel_mono. exact H.
    + assert (Compare p q < 0) as Hpq by (rewrite (Compare_antisym q p); lia).
      destruct fuel as [|fuel]; [discriminate|].
      rewrite Gcd_S, (proj2 (Z.ltb_lt _ _) Hpq) in H.
      apply Gcd_fuel_mono, Gcd_fuel_mono. exact H.
Qed.

Lemma Gcd_sym_witness : Gcd 11 [1; 1] [-1; 0; 1] None = Ret [1; 1].
Proof. apply (Gcd_sym 10 [-1; 0; 1] [1; 1] None [1; 1]). reflexivity. Defined.

Lemma Gcd_fuel_le m fuel fuel' p q r :
  (fuel ≤ fuel')%nat → Gcd fuel p q m = Ret r → Gcd fuel' p q m = Ret r.
Proof.
  induction 1 as [|fuel' _ IH]; [auto|]. intros H. apply Gcd_fuel_mono, IH, H.
Qed.

Lemma Compare_longer p q : (length q < length p)%nat → Compare p q = 1.
Proof.
  intros H. unfold Compare, GetDegree.
  destruct (Z.ltb_spec (Z.of_nat (length q) - 1) (Z.of_nat (length p) - 1)); [reflexivity|lia].
Qed.

Lemma Div_prime_reduced n a b :
  Z.prime n →
  canonical a → reduced (Some n) a → canonical b → reduced (Some n) b →
  b ≠ [0] → (length b ≤ length a)%nat →
  ∃ quo rem,
    Div a b (Some n) = Some (quo, rem) ∧
    canonical rem ∧ reduced (Some n) rem ∧
    (rem = [0] ∨ (length rem < length b)%nat).
Proof.
  intros Hp Ca Ra Cb Rb Hb0 Hl.
  destruct (Div_prime_field a b n Hp) as (quo & rem & Hrun & HD & _ & Hdeg).
  { rewrite reduced_fmap_id by exact Ra. exact Ca. }
  { rewrite reduced_fmap_id by exact Rb. exact Cb. }
  exists quo, rem. split; [exact HD|].
  rewrite reduced_fmap_id in Hdeg by exact Rb.
  specialize (Hdeg (proj2 (isZero_false_iff b) Hb0)).
  assert (canonical rem ∧ reduced (Some n) rem) as [Cr Rr].
  { destruct Hrun as [H|H].
    - split; [exact (proj2 (Div_done_canonical _ _ _ _ _ H))|].
      exact (proj2 (Div_done_reduced _ _ _ _ _ H)).
    - apply Div_early_inv in H as [_ ->].
      rewrite reduced_fmap_id by exact Ra. auto. }
  split; [exact Cr|]. split; [exact Rr|].
  destruct Hdeg as [Hz|Hd]; [left; apply isZero_iff; exact Hz|].
  right. unfold GetDegree in Hd. lia.
Qed.

Lemma Compare_zero_r n b :
  n ≠ 0 → canonical b → reduced (Some n) b → 0 ≤ Compare b [0].
Proof.
  intros Hn [Hne Hl] Rb.
  destruct b as [|c [|d b]]; [congruence| |rewrite Compare_longer; simpl; lia].
  unfold Compare, GetDegree. simpl. pose proof (reduced_range n [c] 0 Hn Rb) as Hc. unfold coef in Hc. simpl in Hc.
  unfold big.Cmp. destruct (Z.compare_spec c 0); simpl; lia.
Qed.

Lemma Gcd_prime_ordered n :
  Z.prime n →
  ∀ L a b,
    canonical a → reduced (Some n) a → canonical b → reduced (Some n) b →
    (length b ≤ L)%nat → 0 ≤ Compare a b →
    ∃ fuel r, Gcd fuel a b (Some n) = Ret r.
Proof.
  intros Hp. assert (Hn : n ≠ 0) by (destruct Hp; lia).
  induction L as [|L IH]; intros a b Ca Ra Cb Rb HL Hcmp.
  { destruct Cb as [Hne _]. destruct b; [congruence|simpl in HL; lia]. }
  assert (Hnolt : (Compare a b <? 0) = false) by (apply Z.ltb_ge; exact Hcmp).
  destruct (decide (b = [0])) as [->|Hb0].
  { exists 1%nat, a. rewrite Gcd_S, Hnolt. reflexivity. }
  destruct (Div_prime_reduced n a b Hp Ca Ra Cb Rb Hb0 (Compare_nonneg_length _ _ Hcmp))
    as (quo & rem & HD & Cr & Rr & Hrem).
  assert (Hstep : ∀ fuel, Gcd (S fuel) a b (Some n) = Gcd fuel b rem (Some n)).
  { intros fuel. rewrite Gcd_S, Hnolt, (proj2 (isZero_false_iff b) Hb0), HD.
    rewrite sanitize_Some by congruence. rewrite reduced_fmap_id by exact Rb.
    reflexivity. }
  destruct Hrem as [->|Hlt].
  - exists 2%nat, b. rewrite Hstep, Gcd_S.
    rewrite (proj2 (Z.ltb_ge _ _) (Compare_zero_r n b Hn Cb Rb)). reflexivity.
  - destruct (IH b rem Cb Rb Cr Rr ltac:(lia)) as (fuel & r & Hr).
    { rewrite (Compare_longer b rem Hlt). lia. }
    exists (S fuel), r. rewrite Hstep. exact Hr.
Qed.

Lemma Gcd_prime_reduced n a b :
  Z.prime n →
  canonical a → reduced (Some n) a → canonical b → reduced (Some n) b →
  ∃ fuel r, Gcd fuel a b (Some n) = Ret r.
Proof.
  intros Hp Ca Ra Cb Rb.
  destruct (Z.ltb_spec (Compare a b) 0) as [Hlt|Hge].
  - destruct (Gcd_prime_ordered n Hp (length a) b a Cb Rb Ca Ra (le_n _)) as (fuel & r & H).
    { rewrite (Compare_antisym a b). lia. }
    exists (S fuel), r. rewrite Gcd_S, (proj2 (Z.ltb_lt _ _) Hlt). exact H.
  - exact (Gcd_prime_ordered n Hp (length b) a b Ca Ra Cb Rb (le_n _) Hge).
Qed.

Lemma Gcd_prime_first n p q :
  Z.prime n →
  canonical (reduce (Some n) <$> p) → canonical (reduce (Some n) <$> q) →
  0 ≤ Compare p q →
  ∃ fuel r, Gcd fuel p q (Some n) = Ret r.
Proof.
  intros Hp Cp Cq Hcmp. assert (Hn : n ≠ 0) by (destruct Hp; lia).
  assert (Hnolt : (Compare p q <? 0) = false) by (apply Z.ltb_ge; exact Hcmp).
  destruct (isZero q) eqn:Hz.
  { exists 1%nat, p. rewrite Gcd_S, Hnolt, Hz. reflexivity. }
  destruct (Div_prime_field p q n Hp Cp Cq) as (quo & rem & Hrun & HD & _ & _).
  assert (canonical rem ∧ reduced (Some n) rem) as [Cr Rr].
  { destruct Hrun as [H|H].
    - split; [exact (proj2 (Div_done_canonical _ _ _ _ _ H))|].
      exact (proj2 (Div_done_reduced _ _ _ _ _ H)).
    - apply Div_early_inv in H as [_ ->]. split; [exact Cp|apply reduced_fmap]. }
  destruct (Gcd_prime_reduced n (reduce (Some n) <$> q) rem Hp Cq (reduced_fmap _ _) Cr Rr)
    as (fuel & r & H).
  exists (S fuel), r. rewrite Gcd_S, Hnolt, Hz, HD.
  rewrite sanitize_Some by congruence. exact H.
Qed.

(** X23.  With a prime modulus [n], [Gcd] returns: on operands whose residues are
    canonical (leading coefficients that are not multiples of [n]) some depth
    of recursion is enough.  The stall of [Div] needs a ratio that is not
    invertible, and modulo a prime there is none. *)
Theorem Gcd_prime_terminates (p q : Poly) (n : Z) :
  Z.prime n →
  canonical (reduce (Some n) <$> p) → canonical (reduce (Some n) <$> q) →
  ∃ fuel r, Gcd fuel p q (Some n) = Ret r.
Proof.
  intros Hp Cp Cq.
  destruct (Z.ltb_spec (Compare p q) 0) as [Hlt|Hge].
  - destruct (Gcd_prime_first n q p Hp Cq Cp) as (fuel & r & H).
    { rewrite (Compare_antisym p q). lia. }
    exists (S fuel), r. rewrite Gcd_S, (proj2 (Z.ltb_lt _ _) Hlt). exact H.
  - exact (Gcd_prime_first n p q Hp Cp Cq Hge).
Qed.

Lemma Gcd_prime_terminates_witness :
  ∃ fuel r, Gcd fuel [0; 1] [2] (Some 3) = Ret r.
Proof.
  apply (Gcd_prime_terminates [0; 1] [2] 3).
  - exact Z.prime_3.
  - split; [discriminate|]. intros _. simpl. discriminate.
  - split; [discriminate|]. intros H. simpl in H. lia.
Defined.

(** ** The roots of the [Gcd] *)

Lemma root_value m p x : m ≠ Some 0 → root m p x ↔ cong m (value p x) 0.
Proof.
  intros Hm. unfold root, cong. rewrite Eval_value by exact Hm.
  rewrite (reduce_0 m). split; [intros [= H]; exact H|intros ->; reflexivity].
Qed.

Lemma root_Div m p q quo rem x :
  Div p q m = Some (quo, rem) →
  (root m p x ∧ root m q x) ↔ (root m (reduce m <$> q) x ∧ root m rem x).
Proof.
  intros H. apply Div_coef_identity in H as [Hm H].
  pose proof (value_identity m p q quo rem x H) as Hv.
  assert (Hq : cong m (value (reduce m <$> q) x) (value q x)).
  { apply value_cong. intros k. rewrite coef_reduce. apply cong_reduce. }
  rewrite !root_value by exact Hm. split.
  - intros [Hp0 Hq0]. split; [eapply cong_trans; eassumption|].
    apply cong_trans with ((value quo x * value q x + value rem x) - value quo x * value q x).
    { apply cong_eq. ring. }
    replace 0 with (0 - value quo x * 0) by ring.
    apply cong_sub; [eapply cong_trans; eassumption|].
    apply cong_mul; [apply cong_refl|exact Hq0].
  - intros [Hq0 Hr0].
    assert (Hq1 : cong m (value q x) 0) by (eapply cong_trans; [apply cong_sym|]; eassumption).
    split; [|exact Hq1].
    eapply cong_trans; [apply cong_sym; exact Hv|].
    replace 0 with (value quo x * 0 + 0) by ring.
    apply cong_add; [|exact Hr0].
    apply cong_mul; [apply cong_refl|exact Hq1].
Qed.

(** X24.  The roots of what [Gcd] returns are the common roots of its operands:
    [Eval] of the result at [x] is 0 exactly when [Eval] of both operands
    is.  This holds on every return, also when a [Div] on the way gave up. *)
Theorem Gcd_roots (fuel : nat) (p q : Poly) (m : option Z) (r : Poly) (x : Z) :
  m ≠ Some 0 →
  Gcd fuel p q m = Ret r →
  (Eval r x m = Some 0 ↔ Eval p x m = Some 0 ∧ Eval q x m = Some 0).
Proof.
  intros Hm. revert p q.
  induction fuel as [|fuel IH]; intros p q; [discriminate|].
  rewrite Gcd_S.
  destruct (Compare p q <? 0).
  { intros H. rewrite (IH _ _ H). tauto. }
  destruct (isZero q) eqn:Hz.
  { intros [= <-]. apply isZero_iff in Hz. subst q.
    assert (Eval [0] x m = Some 0) as ->.
    { rewrite Eval_value by exact Hm. f_equal. apply reduce_0. }
    tauto. }
  destruct (Div p q m) as [[quo rem]|] eqn:HD; [|discriminate].
  rewrite sanitize_Some by exact Hm.
  intros H. rewrite (IH _ _ H).
  symmetry. exact (root_Div m p q quo rem x HD).
Qed.

Lemma Gcd_roots_witness :
  Eval [1; 1] (-1) None = Some 0 ↔
  Eval [-1; 0; 1] (-1) None = Some 0 ∧ Eval [1; 1] (-1) None = Some 0.
Proof.
  apply (Gcd_roots 10 [-1; 0; 1] [1; 1] None [1; 1] (-1)); [discriminate|reflexivity].
Defined.

(** ** [RandomPoly] *)

Section RandomPoly.

Variable Rand : nat → Z → Z.

(** [Rand] draws from [0, e). *)
Hypothesis Rand_range : ∀ i e, 0 < e → 0 ≤ Rand i e < e.

(** X25.  For an [int64] [degree]: [RandomPoly] panics on every negative
    degree ([make] on a negative length, or [trim] on the empty slice for
    the degree -1) and on the largest [int64], where [degree + 1] wraps
    around to a negative length.  Whenever it returns, the result is a
    canonical polynomial with coefficients in [0, 2^bits) (all 0 when [bits]
    is not positive); its degree is at most [degree], and is lower when the
    leading draws are 0, which [trim] removes. *)
Theorem RandomPoly_spec (degree bits : Z) :
  - 2 ^ 63 ≤ degree ≤ MaxInt64 →
  (degree < 0 ∨ degree = MaxInt64 → RandomPoly Rand degree bits = None) ∧
  (∀ p, RandomPoly Rand degree bits = Some p →
        canonical p ∧ GetDegree p ≤ degree ∧
        ∀ k, 0 ≤ coef p k < 2 ^ Z.max 0 bits).
Proof.
  unfold RandomPoly, MaxInt64. intros Hrange.
  assert (Hneg : degree < 0 ∨ degree = 2 ^ 63 - 1 →
                 wrap64 (degree + 1) < 0 ∨ wrap64 (degree + 1) = 0).
  { unfold wrap64. intros [Hd| ->].
    - destruct (Z.eq_dec degree (-1)) as [->|Hne]; [right; reflexivity|left].
      rewrite Z.mod_small by lia. lia.
    - left. reflexivity. }
  split.
  - intros Hd. destruct (Hneg Hd) as [Hw|Hw].
    + rewrite (proj2 (Z.ltb_lt _ _) Hw). reflexivity.
    + rewrite Hw. reflexivity.
  - intros p.
    destruct (Z_lt_dec degree 0) as [Hd|Hd].
    { destruct (Hneg (or_introl Hd)) as [Hw|Hw].
      - rewrite (proj2 (Z.ltb_lt _ _) Hw). discriminate.
      - rewrite Hw. discriminate. }
    destruct (Z.eq_dec degree (2 ^ 63 - 1)) as [Hd'|Hd'].
    { destruct (Hneg (or_intror Hd')) as [Hw|Hw].
      - rewrite (proj2 (Z.ltb_lt _ _) Hw). discriminate.
      - rewrite Hw. discriminate. }
    assert (Hw : wrap64 (degree + 1) = degree + 1).
    { unfold wrap64. rewrite Z.mod_small by lia. lia. }
    rewrite Hw.
    destruct (Z.ltb_spec (degree + 1) 0); [lia|].
    set (exp := if bits <=? 0 then 1 else 2 ^ bits).
    assert (Hexp : 0 < exp ∧ exp = 2 ^ Z.max 0 bits).
    { unfold exp. destruct (Z.leb_spec bits 0).
      - rewrite Z.max_l by lia. simpl. lia.
      - rewrite Z.max_r by lia. split; [apply Z.pow_pos_nonneg; lia|reflexivity]. }
    destruct Hexp as [Hpos Hexp].
    set (cs := (λ i, Rand i exp) <$> seq 0 (Z.to_nat (degree + 1))).
    assert (Lcs : length cs = Z.to_nat (degree + 1)).
    { unfold cs. rewrite length_fmap, length_seq. reflexivity. }
    intros E. split; [exact (trim_canonical _ _ E)|].
    split.
    + pose proof (trim_length _ _ E). unfold GetDegree. lia.
    + intros k. rewrite (coef_trim _ _ k E), <- Hexp.
      destruct (decide (k < length cs)%nat) as [Hk|Hk].
      * destruct (lookup_lt_is_Some_2 cs k Hk) as [v Hv].
        rewrite (coef_lookup _ _ _ Hv).
        unfold cs in Hv. rewrite list_lookup_fmap in Hv.
        destruct (seq 0 (Z.to_nat (degree + 1)) !! k) as [j|]; [|discriminate].
        injection Hv as <-. apply Rand_range. exact Hpos.
      * rewrite coef_ge by lia. lia.
Qed.

End RandomPoly.

Lemma RandomPoly_spec_witness :
  RandomPoly (λ i e, Z.of_nat (7 * i + 2) mod e) (-1) 4 = None ∧
  RandomPoly (λ i e, Z.of_nat (7 * i + 2) mod e) MaxInt64 4 = None ∧
  (canonical [2; 9; 0; 7] ∧ GetDegree [2; 9; 0; 7] ≤ 3 ∧
   ∀ k, 0 ≤ coef [2; 9; 0; 7] k < 2 ^ Z.max 0 4).
Proof.
  assert (H : ∀ (i : nat) (e : Z), 0 < e → 0 ≤ Z.of_nat (7 * i + 2) mod e < e).
  { intros i e He. apply Z.mod_pos_bound. exact He. }
  split; [|split].
  - apply (proj1 (RandomPoly_spec _ H (-1) 4 ltac:(vm_compute; split; discriminate))).
    left. lia.
  - apply (proj1 (RandomPoly_spec _ H MaxInt64 4 ltac:(vm_compute; split; discriminate))).
    right. reflexivity.
  - apply (proj2 (RandomPoly_spec _ H 3 4 ltac:(vm_compute; split; discriminate))
             [2; 9; 0; 7]).
    reflexivity.
Defined.

(** ** The shares are field elements *)

Lemma value_at_0 p : value p 0 = coef p 0.
Proof.
  destruct p as [|c p]; [reflexivity|]. rewrite value_cons. unfold coef. simpl. lia.
Qed.

Lemma mapM_Mod_range {A} (g : A → Z) q (l : list A) p :
  mapM (λ i, big.Mod (g i) q) l = Some p →
  (l = [] ∨ q ≠ 0) ∧ ∀ k, coef p k = reduce (Some q) (coef p k).
Proof.
  intros H. apply mapM_Some_1 in H. split.
  - destruct H as [|a c l p Ha _]; [left; reflexivity|right].
    apply Mod_inv in Ha. tauto.
  - intros k. destruct (decide (k < length p)%nat) as [Hk|Hk].
    + destruct (lookup_lt_is_Some_2 p k Hk) as [v Hv].
      destruct (Forall2_lookup_r _ _ _ _ _ H Hv) as (a & _ & Ha).
      apply Mod_inv in Ha as [_ Ha]. rewrite (coef_lookup _ _ _ Hv), Ha.
      symmetry. apply (reduce_idem (Some q)).
    + rewrite coef_ge by lia. symmetry. apply (reduce_0 (Some q)).
Qed.

Section GenRandomSharesRange.

Variable RandomBigInt : nat → Z → Z.
Variable ProbablyPrime : Z → Z → bool.

(** X26.  When the primality test rejects the modulus, [GenRandomShares] returns
    no shares and no polynomial.  Otherwise, whatever the modulus [q] that
    the test accepted (not 0), the coefficients of the polynomial and both
    coordinates of every share lie in [0, |q|), and the constant coefficient,
    the shared secret, is the value of the polynomial at 0. *)
Theorem GenRandomShares_field (n k q : Z) (ps : list shamir.Point) (p : Poly) :
  shamir.GenRandomShares RandomBigInt ProbablyPrime n k q = Some (ps, p) →
  (ProbablyPrime q 100 = false → ps = [] ∧ p = []) ∧
  (ProbablyPrime q 100 = true → q ≠ 0 →
   (∀ i, 0 ≤ coef p i < Z.abs q) ∧
   (∀ i pt, ps !! i = Some pt →
            0 ≤ shamir.x pt < Z.abs q ∧ 0 ≤ shamir.y pt < Z.abs q) ∧
   Eval p 0 (Some q) = Some (coef p 0)).
Proof.
  unfold shamir.GenRandomShares.
  destruct (ProbablyPrime q 100); simpl.
  2:{ intros [= <- <-]. split; [auto|discriminate]. }
  destruct (k <? 0); [discriminate|].
  destruct (mapM _ (seq 0 (Z.to_nat k))) as [p0|] eqn:Ep; [|discriminate].
  simpl. destruct (n <? 0); [discriminate|].
  destruct (mapM _ (seq 0 (Z.to_nat n))) as [ps0|] eqn:Eps; [|discriminate].
  simpl. intros [= <- <-]. split; [discriminate|]. intros _ Hq.
  assert (Hpos : 0 < Z.abs q) by lia.
  apply mapM_Mod_range in Ep as [_ Rp].
  split; [|split].
  - intros i. rewrite Rp. simpl. apply Z.mod_pos_bound. exact Hpos.
  - intros i pt Hi. apply mapM_Some_1 in Eps.
    destruct (Forall2_lookup_r _ _ _ _ _ Eps Hi) as (j & _ & Hf).
    simpl in Hf. rewrite Mod_Some in Hf by exact Hq. simpl in Hf.
    rewrite Eval_value in Hf by congruence. simpl in Hf.
    injection Hf as <-. simpl.
    split; apply Z.mod_pos_bound; exact Hpos.
  - rewrite Eval_value by congruence. rewrite value_at_0, <- Rp. reflexivity.
Qed.

End GenRandomSharesRange.

Lemma GenRandomShares_field_witness :
  (trial_division 7 100 = false →
   [ {| shamir.x := 2; shamir.y := 0 |}; {| shamir.x := 2; shamir.y := 0 |} ] = [] ∧
   [2; 2; 2] = []) ∧
  (trial_division 7 100 = true → 7 ≠ 0 →
   (∀ i, 0 ≤ coef [2; 2; 2] i < Z.abs 7) ∧
   (∀ i pt, [ {| shamir.x := 2; shamir.y := 0 |};
              {| shamir.x := 2; shamir.y := 0 |} ] !! i = Some pt →
            0 ≤ shamir.x pt < Z.abs 7 ∧ 0 ≤ shamir.y pt < Z.abs 7) ∧
   Eval [2; 2; 2] 0 (Some 7) = Some (coef [2; 2; 2] 0)).
Proof.
  apply (GenRandomShares_field (λ _ _, 9) trial_division 2 3 7). reflexivity.
Defined.

(** * Further properties of the store layer *)

(** ** [Clone] is a deep copy *)

Lemma store_mapM_new (v : Z) {A} (l : list A) : ∀ h,
  Store.mapM (λ _, Store.new v) l h
  = Ret (seq (length h) (length l), h ++ replicate (length l) v).
Proof.
  induction l as [|a l IH]; intros h.
  - simpl. unfold Store.ret. rewrite app_nil_r. reflexivity.
  - simpl. unfold Store.bind at 1, Store.new at 1.
    unfold Store.bind at 1. rewrite IH. unfold Store.ret.
    rewrite length_app. simpl.
    replace (length h + 1)%nat with (S (length h)) by lia.
    rewrite <- app_assoc. reflexivity.
Qed.

Lemma store_copy_cells (p : list nat) : ∀ h vs,
  Store.coeffs h p = Some vs →
  Store.mapM (λ l, Store.bind (Store.new 0) (λ b,
                   Store.bind (Store.get l) (λ x,
                   Store.bind (Store.set b x) (λ _, Store.ret b)))) p h
  = Ret (seq (length h) (length p), h ++ vs).
Proof.
  induction p as [|l p IH]; intros h vs H.
  - injection H as <-. simpl. unfold Store.ret. rewrite app_nil_r. reflexivity.
  - unfold Store.coeffs in H. simpl in H.
    destruct (h !! l) as [v|] eqn:Hl; [|discriminate]. simpl in H.
    destruct (mapM (λ l, h !! l) p) as [vs'|] eqn:Hp; [|discriminate].
    injection H as <-.
    assert (Hlt : (l < length h)%nat) by (apply lookup_lt_is_Some; eauto).
    simpl. unfold Store.bind at 1, Store.bind at 1, Store.new at 1.
    unfold Store.bind at 1, Store.get at 1.
    rewrite lookup_app_l by exact Hlt. rewrite Hl.
    unfold Store.bind at 1, Store.set at 1.
    rewrite decide_True by (rewrite length_app; simpl; lia).
    unfold Store.ret at 1. unfold Store.bind at 1.
    assert (Hins : <[length h := v]> (h ++ [0]) = h ++ [v]).
    { rewrite insert_app_r_alt by lia. rewrite Nat.sub_diag. reflexivity. }
    rewrite Hins.
    rewrite (IH (h ++ [v]) vs').
    + unfold Store.ret. rewrite length_app. simpl.
      replace (length h + 1)%nat with (S (length h)) by lia.
      rewrite <- app_assoc. reflexivity.
    + unfold Store.coeffs. apply mapM_Some. apply mapM_Some_1 in Hp.
      eapply Forall2_impl; [exact Hp|]. intros a b Hab. simpl in *.
      rewrite lookup_app_l; [exact Hab|]. apply lookup_lt_is_Some. eauto.
Qed.

Lemma coeffs_new_cells (h ws : list Z) :
  Store.coeffs (h ++ ws) (seq (length h) (length ws)) = Some ws.
Proof.
  unfold Store.coeffs. apply mapM_Some. apply Forall2_same_length_lookup.
  split; [apply length_seq|].
  intros i l v Hl Hv. apply lookup_seq in Hl as [-> _].
  rewrite lookup_app_r by lia. replace (length h + i - length h)%nat with i by lia.
  exact Hv.
Qed.

Lemma Store_Clone_nonneg (h : list Z) (p : list nat) (s : Z) (vs : list Z) :
  0 ≤ s → Store.coeffs h p = Some vs →
  Store.Clone p s h
  = Ret (seq (length h) (Z.to_nat s + length p), h ++ replicate (Z.to_nat s) 0 ++ vs).
Proof.
  intros Hs Hp. unfold Store.Clone.
  destruct (Z.ltb_spec (Z.of_nat (length p) + s) 0); [lia|].
  destruct (Z.ltb_spec s 0); [lia|].
  unfold Store.bind at 1. rewrite store_mapM_new. rewrite length_seq.
  unfold Store.bind at 1.
  rewrite (store_copy_cells p (h ++ replicate (Z.to_nat s) 0) vs).
  - unfold Store.ret. rewrite length_app, length_replicate, seq_app.
    rewrite <- app_assoc. reflexivity.
  - unfold Store.coeffs in *. apply mapM_Some. apply mapM_Some_1 in Hp.
    eapply Forall2_impl; [exact Hp|]. intros a b Hab. simpl in *.
    rewrite lookup_app_l; [exact Hab|]. apply lookup_lt_is_Some. eauto.
Qed.

(** X27.  [Clone] with a shift that is not negative is a deep copy: whenever
    it returns, it returns cells that it has allocated itself, all
    different, holding [s] zeros followed by the coefficients of [p], and no
    cell that existed before is changed.  What is done to the clone later
    cannot reach [p]. *)
Theorem Store_Clone_deep_copy
    (h : list Z) (p : list nat) (s : Z) (vs : list Z) (r : list nat) (h' : list Z) :
  0 ≤ s → Store.coeffs h p = Some vs →
  Store.Clone p s h = Ret (r, h') →
  Store.coeffs h' r = Some (replicate (Z.to_nat s) 0 ++ vs) ∧
  NoDup r ∧ Forall (new_cell h) r ∧
  unchanged h h'.
Proof.
  intros Hs Hp Hr.
  assert (Lvs : length vs = length p).
  { unfold Store.coeffs in Hp. symmetry. exact (length_mapM _ _ _ Hp). }
  rewrite (Store_Clone_nonneg h p s vs Hs Hp) in Hr. injection Hr as <- <-.
  split; [|split; [|split]].
  - replace (Z.to_nat s + length p)%nat
      with (length (replicate (Z.to_nat s) 0 ++ vs))
      by (rewrite length_app, length_replicate; lia).
    apply coeffs_new_cells.
  - apply NoDup_seq.
  - apply Forall_forall. intros l Hl. apply elem_of_seq in Hl. unfold new_cell. lia.
  - intros l Hl. apply lookup_app_l. exact Hl.
Qed.

Lemma Store_Clone_deep_copy_witness :
  Store.coeffs [5; 7; 0; 0; 7; 5] [2; 3; 4; 5]%nat
    = Some (replicate (Z.to_nat 2) 0 ++ [7; 5]) ∧
  NoDup [2; 3; 4; 5]%nat ∧ Forall (new_cell [5; 7]) [2; 3; 4; 5]%nat ∧
  unchanged [5; 7] [5; 7; 0; 0; 7; 5].
Proof.
  apply (Store_Clone_deep_copy [5; 7] [1; 0]%nat 2 [7; 5] [2; 3; 4; 5]%nat
           [5; 7; 0; 0; 7; 5]); [lia|reflexivity|reflexivity].
Defined.

(** ** [NegSelf] and [sanitize] work in place *)

Lemma store_forM_cons {A} (a : A) l (g : A → Store.M unit) h :
  Store.forM (a :: l) g h =
    match g a h with
    | Ret (_, h1) => Store.forM l g h1
    | Panic => Panic
    | OutOfFuel => OutOfFuel
    end.
Proof. simpl. unfold Store.bind. destruct (g a h) as [[[] h1]| |]; reflexivity. Qed.

Lemma store_update_cell (g : Z → Z) l h v :
  h !! l = Some v →
  Store.bind (Store.get l) (λ x, Store.set l (g x)) h = Ret (tt, <[l := g v]> h).
Proof.
  intros H. unfold Store.bind, Store.get. rewrite H. unfold Store.set.
  rewrite decide_True; [reflexivity|]. apply lookup_lt_is_Some. eauto.
Qed.

(** X28.  On cells that are all different, [NegSelf] replaces what each cell of
    [p] holds by its opposite and leaves every other cell as it is; doing it
    a second time restores the store. *)
Theorem Store_NegSelf_in_place (h : list Z) (p : list nat) (vs : list Z) :
  NoDup p → Store.coeffs h p = Some vs →
  ∃ h',
    Store.NegSelf p h = Ret (tt, h') ∧
    Store.coeffs h' p = Some (Z.opp <$> vs) ∧
    (∀ l, l ∉ p → h' !! l = h !! l) ∧
    Store.NegSelf p h' = Ret (tt, h).
Proof.
  assert (Hgen : ∀ (p : list nat) h vs,
            NoDup p → Store.coeffs h p = Some vs →
            ∃ h', Store.NegSelf p h = Ret (tt, h') ∧ length h' = length h ∧
                  ∀ l, h' !! l = if decide (l ∈ p) then Z.opp <$> h !! l else h !! l).
  { clear. induction p as [|a p IH]; intros h vs Hnd Hp.
    - exists h. split; [reflexivity|]. split; [reflexivity|].
      intros l. rewrite decide_False by apply not_elem_of_nil. reflexivity.
    - apply NoDup_cons in Hnd as [Ha Hnd].
      unfold Store.coeffs in Hp. simpl in Hp.
      destruct (h !! a) as [v|] eqn:Hv; [|discriminate]. simpl in Hp.
      destruct (mapM (λ l, h !! l) p) as [vs'|] eqn:Hp'; [|discriminate].
      assert (Hlt : (a < length h)%nat) by (apply lookup_lt_is_Some; eauto).
      destruct (IH (<[a := - v]> h) vs' Hnd) as (h' & E & L & C).
      { unfold Store.coeffs. rewrite <- Hp'. apply Forall_mapM_ext.
        apply Forall_forall. intros l Hl. apply list_lookup_insert_ne.
        intros ->. contradiction. }
      exists h'. split; [|split].
      + unfold Store.NegSelf in *. rewrite store_forM_cons.
        rewrite (store_update_cell Z.opp a h v Hv). exact E.
      + rewrite L. apply length_insert.
      + intros l. rewrite C. destruct (decide (l = a)) as [->|Hne].
        * rewrite decide_False by exact Ha. rewrite decide_True by left.
          rewrite list_lookup_insert_eq by exact Hlt. rewrite Hv. reflexivity.
        * rewrite list_lookup_insert_ne by congruence.
          destruct (decide (l ∈ p)) as [Hin|Hin].
          -- rewrite decide_True by (right; exact Hin). reflexivity.
          -- rewrite decide_False; [reflexivity|].
             intros Hc. apply elem_of_cons in Hc as [?|?]; contradiction. }
  intros Hnd Hp.
  destruct (Hgen p h vs Hnd Hp) as (h' & E & L & C).
  assert (Hp' : Store.coeffs h' p = Some (Z.opp <$> vs)).
  { unfold Store.coeffs in *. apply mapM_Some. apply mapM_Some_1 in Hp.
    apply Forall2_fmap_r. apply Forall2_same_length_lookup.
    split; [exact (Forall2_length _ _ _ Hp)|].
    intros i l v Hl Hv. rewrite C.
    rewrite decide_True by (eapply list_elem_of_lookup_2; exact Hl).
    rewrite (Forall2_lookup_lr _ _ _ _ _ _ Hp Hl Hv). reflexivity. }
  exists h'. split; [exact E|]. split; [exact Hp'|]. split.
  - intros l Hl. rewrite C. rewrite decide_False by exact Hl. reflexivity.
  - destruct (Hgen p h' _ Hnd Hp') as (h'' & E' & L' & C').
    rewrite E'. f_equal. f_equal.
    apply list_eq. intros l. rewrite C', C.
    destruct (decide (l ∈ p)); [|reflexivity].
    destruct (h !! l) as [v|]; simpl; [|reflexivity]. f_equal. lia.
Qed.

Lemma Store_NegSelf_in_place_witness :
  ∃ h',
    Store.NegSelf [2; 0]%nat [5; 7; -1] = Ret (tt, h') ∧
    Store.coeffs h' [2; 0]%nat = Some (Z.opp <$> [-1; 5]) ∧
    (∀ l, l ∉ [2; 0]%nat → h' !! l = [5; 7; -1] !! l) ∧
    Store.NegSelf [2; 0]%nat h' = Ret (tt, [5; 7; -1]).
Proof.
  apply (Store_NegSelf_in_place [5; 7; -1] [2; 0]%nat [-1; 5]); [|reflexivity].
  apply NoDup_cons. split; [|apply NoDup_singleton].
  intros H. apply list_elem_of_singleton in H. discriminate.
Defined.

(** X29.  [sanitize] with a modulus [n] that is not 0 replaces what each cell of
    [p] holds by its residue in [0, |n|) and leaves every other cell as it
    is, also when [p] holds a cell more than once; a second [sanitize]
    changes nothing.  On the modulus 0 it panics when [p] is not empty. *)
Theorem Store_sanitize_in_place (h : list Z) (p : list nat) (n : Z) :
  Forall (λ l, l < length h)%nat p →
  (n ≠ 0 →
   ∃ h',
     Store.sanitize p (Some n) h = Ret (tt, h') ∧
     length h' = length h ∧
     (∀ l, h' !! l = if decide (l ∈ p) then (λ v, v mod Z.abs n) <$> h !! l else h !! l) ∧
     Store.sanitize p (Some n) h' = Ret (tt, h')) ∧
  (p ≠ [] → Store.sanitize p (Some 0) h = Panic).
Proof.
  intros Hp. split.
  - intros Hn.
    assert (Hgen : ∀ (p : list nat) h,
              Forall (λ l, l < length h)%nat p →
              ∃ h', Store.sanitize p (Some n) h = Ret (tt, h') ∧ length h' = length h ∧
                    ∀ l, h' !! l = if decide (l ∈ p)
                                   then (λ v, v mod Z.abs n) <$> h !! l else h !! l).
    { clear h p Hp. induction p as [|a p IH]; intros h Hp.
      - exists h. split; [reflexivity|]. split; [reflexivity|].
        intros l. rewrite decide_False by apply not_elem_of_nil. reflexivity.
      - apply Forall_cons in Hp as [Ha Hp].
        destruct (lookup_lt_is_Some_2 h a Ha) as [v Hv].
        destruct (IH (<[a := v mod Z.abs n]> h)) as (h' & E & L & C).
        { rewrite length_insert. exact Hp. }
        exists h'. split; [|split].
        + unfold Store.sanitize in *. rewrite store_forM_cons.
          unfold Store.mod_cell. unfold Store.bind at 1, Store.get at 1. rewrite Hv.
          unfold Store.bind at 1. rewrite Mod_Some by exact Hn.
          unfold Store.lift, Store.ret, Store.set.
          rewrite decide_True by exact Ha. exact E.
        + rewrite L. apply length_insert.
        + intros l. rewrite C. destruct (decide (l = a)) as [->|Hne].
          * rewrite (decide_True (P := a ∈ a :: p)) by left.
            rewrite list_lookup_insert_eq by exact Ha.
            rewrite Hv. simpl. destruct (decide (a ∈ p)); [|reflexivity].
            f_equal. apply Z.mod_mod. lia.
          * rewrite list_lookup_insert_ne by congruence.
            destruct (decide (l ∈ p)) as [Hin|Hin].
            -- rewrite decide_True by (right; exact Hin). reflexivity.
            -- rewrite decide_False; [reflexivity|].
               intros Hc. apply elem_of_cons in Hc as [?|?]; contradiction. }
    destruct (Hgen p h Hp) as (h' & E & L & C).
    exists h'. split; [exact E|]. split; [exact L|]. split; [exact C|].
    destruct (Hgen p h') as (h'' & E' & L' & C'); [rewrite L; exact Hp|].
    rewrite E'. f_equal. f_equal. apply list_eq. intros l. rewrite C', C.
    destruct (decide (l ∈ p)); [|reflexivity].
    destruct (h !! l) as [v|]; simpl; [|reflexivity]. f_equal. apply Z.mod_mod. lia.
  - intros Hne. destruct p as [|a p]; [congruence|].
    apply Forall_cons in Hp as [Ha _].
    destruct (lookup_lt_is_Some_2 h a Ha) as [v Hv].
    unfold Store.sanitize. rewrite store_forM_cons.
    unfold Store.mod_cell. unfold Store.bind at 1, Store.get at 1. rewrite Hv.
    reflexivity.
Qed.

Lemma Store_sanitize_in_place_witness :
  (7 ≠ 0 →
   ∃ h',
     Store.sanitize [2; 0; 2]%nat (Some 7) [15; 8; -1] = Ret (tt, h') ∧
     length h' = length [15; 8; -1] ∧
     (∀ l, h' !! l = if decide (l ∈ [2; 0; 2]%nat)
                     then (λ v, v mod Z.abs 7) <$> [15; 8; -1] !! l
                     else [15; 8; -1] !! l) ∧
     Store.sanitize [2; 0; 2]%nat (Some 7) h' = Ret (tt, h')) ∧
  ([2; 0; 2]%nat ≠ [] → Store.sanitize [2; 0; 2]%nat (Some 0) [15; 8; -1] = Panic).
Proof.
  apply (Store_sanitize_in_place [15; 8; -1] [2; 0; 2]%nat 7).
  repeat (apply Forall_cons; split; [simpl; lia|]). apply Forall_nil_2.
Defined.

(** ** Results do not share cells with the operands *)

Lemma Triple_result {A} (c : Store.M A) (R : A → Prop) Red f h a h' :
  Triple (length h) Red f c R → c h = Ret (a, h') → R a.
Proof. intros Hc E. exact (proj2 (Hc h a h' ltac:(lia) E)). Qed.

Lemma sanitizable_any (h : list Z) ps p m :
  p ⊆ ps → sanitizable (length h) (λ l, l ∈ ps) (reduce m) m p.
Proof.
  intros Hp. destruct m as [n|]; [|exact I]. apply sanitizable_operand. exact Hp.
Qed.

(** X30.  Every cell of what [NewPolyInts], [Add], [Sub], [Mul], [Neg], [Clone],
    [Div] (quotient and remainder) and [Eval] return has been allocated by
    the call: a result never shares a [big.Int] with an operand, so that
    changing it in place later leaves the operands alone. *)
Theorem results_fresh (h : list Z) (p q : list nat) (x : nat) (m : option Z) :
  (∀ cs r h', Store.NewPolyInts cs h = Ret (r, h') → Forall (new_cell h) r) ∧
  (∀ r h', Store.Add p q m h = Ret (r, h') → Forall (new_cell h) r) ∧
  (∀ r h', Store.Sub p q m h = Ret (r, h') → Forall (new_cell h) r) ∧
  (∀ r h', Store.Mul p q m h = Ret (r, h') → Forall (new_cell h) r) ∧
  (∀ r h', Store.Neg p h = Ret (r, h') → Forall (new_cell h) r) ∧
  (∀ s r h', Store.Clone p s h = Ret (r, h') → Forall (new_cell h) r) ∧
  (∀ quo rem h', Store.Div p q m h = Ret ((quo, rem), h') →
                 Forall (new_cell h) quo ∧ Forall (new_cell h) rem) ∧
  (∀ y h', Store.Eval p x m h = Ret (y, h') → new_cell h y).
Proof.
  assert (Hp : sanitizable (length h) (λ l, l ∈ p ++ q) (reduce m) m p).
  { apply sanitizable_any. intros l Hl. apply elem_of_app. left. exact Hl. }
  assert (Hq : sanitizable (length h) (λ l, l ∈ p ++ q) (reduce m) m q).
  { apply sanitizable_any. intros l Hl. apply elem_of_app. right. exact Hl. }
  repeat apply conj.
  - intros cs r h'. apply Triple_result with (Red := λ l, l ∈ p ++ q) (f := reduce m).
    apply T_NewPolyInts. apply reduce_idem.
  - intros r h'. apply Triple_result with (Red := λ l, l ∈ p ++ q) (f := reduce m).
    apply T_Add. apply reduce_idem.
  - intros r h'. apply Triple_result with (Red := λ l, l ∈ p ++ q) (f := reduce m).
    apply T_Sub. apply reduce_idem.
  - intros r h'. apply Triple_result with (Red := λ l, l ∈ p ++ q) (f := reduce m).
    apply T_Mul; [apply reduce_idem|exact Hp|exact Hq].
  - intros r h'. apply Triple_result with (Red := λ l, l ∈ p ++ q) (f := reduce m).
    apply T_Neg. apply reduce_idem.
  - intros s r h'. apply Triple_result with (Red := λ l, l ∈ p ++ q) (f := reduce m).
    apply T_Clone. apply reduce_idem.
  - intros quo rem h' E.
    apply (Triple_result _ (fresh_pair (length h)) (λ l, l ∈ p ++ q) (reduce m)) in E.
    + exact E.
    + apply T_Div; [apply reduce_idem|exact Hp|exact Hq].
  - intros y h'. apply Triple_result with (Red := λ l, l ∈ p ++ q) (f := reduce m).
    apply T_Eval. apply reduce_idem.
Qed.

Lemma results_fresh_witness :
  Forall (new_cell [5; 4]) [2%nat] ∧
  (Forall (new_cell [5; 4]) [10%nat] ∧ Forall (new_cell [5; 4]) [11%nat]).
Proof.
  split.
  - apply (proj1 (proj2 (results_fresh [5; 4] [0%nat] [1%nat] 0%nat None)) [2%nat] [5; 4; 9]).
    reflexivity.
  - apply (proj1 (proj2 (proj2 (proj2 (proj2 (proj2 (proj2
             (results_fresh [5; 4] [0%nat] [1%nat] 0%nat None)))))))
             [10%nat] [11%nat] [5; 4; 5; 0; 5; 1; 4; -4; 1; 0; 0; 5]).
    reflexivity.
Defined.
